(** * Supervised Random Walk recommender (ghanalyzer)

    A shallow embedding of
    [ghanalyzer/algorithms/recommenders/supervisedrw.py].

    Numbers.  The program computes with IEEE doubles (numpy arrays and
    scipy sparse matrices).  The embedding computes with the real numbers
    [R]: rounding is not modelled.  What numpy does on a division by zero
    (it yields [inf] or [nan] and goes on) is modelled explicitly, by the
    value [NonFinite] of the type [ndarray] below, wherever the program
    divides.  The edge strength is embedded a second time, over the
    doubles themselves ([_get_edge_strength64]): whether its values can
    reach 0 and 1 is a matter of rounding.

    Arrays.  A one-dimensional array is a [list R]; a dense or sparse
    N x N matrix is the list of its rows. *)

From Stdlib Require Import Floats ZArith.
From Stdlib Require Import String.
From Stdlib Require Import Reals Lra Lia List Arith Bool Permutation.
Import ListNotations.
Open Scope R_scope.

(** ** Arrays *)

Abbreviation vec := (list R) (only parsing).
Abbreviation matrix := (list (list R)) (only parsing).

(** [np.sum] of a one-dimensional array. *)
Definition vsum (v : vec) : R := fold_right Rplus 0 v.

(** [v[i]] for an index within bounds (the callers below only index
    within bounds; the default is never observed there). *)
Definition vget (v : vec) (i : nat) : R := nth i v 0.

(** [Q[i, j]]. *)
Definition mget (Q : matrix) (i j : nat) : R := nth j (nth i Q []) 0.

(** The sum of a function over [0 .. n-1], the shape of every
    comprehension over [xrange(n)] below. *)
Definition sum_upto (n : nat) (f : nat -> R) : R := vsum (map f (seq 0 n)).

(** [build n f] is the array [[f 0, ..., f (n-1)]]. *)
Definition build (n : nat) (f : nat -> R) : vec := map f (seq 0 n).

(** [build2 n f] is the n x n matrix with entries [f i j]. *)
Definition build2 (n : nat) (f : nat -> nat -> R) : matrix :=
  map (fun i => build n (f i)) (seq 0 n).

(** A matrix has shape [n x n]. *)
Definition square (n : nat) (Q : matrix) : Prop :=
  length Q = n /\ Forall (fun r => length r = n) Q.

(** ** The logistic link *)

(** [sigmoid], lines 15-16. *)
Definition sigmoid (x : R) : R := 1 / (1 + exp (- x)).

(** ** The graph *)

(** The entity classes of [ghanalyzer.models] that label the nodes. *)
Inductive node : Type :=
| User (id : nat)
| Organization (id : nat)
| Repository (id : nat).

Definition node_eq_dec (x y : node) : {x = y} + {x <> y}.
Proof. decide equality; apply Nat.eq_dec. Defined.

(** [isinstance(n, Repository)]. *)
Definition is_repository (n : node) : bool :=
  match n with Repository _ => true | _ => false end.

(** A networkx graph: its nodes, and for each node the keys of its
    adjacency dictionary [graph[u]] (its neighbours; the successors in a
    directed graph). *)
Record Graph : Type := {
  g_nodes : list node;
  g_adj : node -> list node
}.

Definition mem (x : node) (l : list node) : bool :=
  if in_dec node_eq_dec x l then true else false.

(** [self.node_indices[x]] over [self.nodes]: the position of [x]. *)
Fixpoint index_of (x : node) (l : list node) : option nat :=
  match l with
  | [] => None
  | y :: l' =>
      if node_eq_dec x y then Some O
      else match index_of x l' with
           | Some i => Some (S i)
           | None => None
           end
  end.

(** ** The trained recommender

    The attributes that [__init__] and [train] set on [self] and that the
    numerical core reads. *)
Record SupervisedRWRecommender : Type := {
  max_steps : nat;
  alpha : R;
  lambda_ : R;
  epsilon : R;
  loss_width : R;
  graph : Graph;
  (** [self.candidates], [self.nodes] *)
  candidates : list node;
  nodes : list node;
  (** [self.row], [self.col]: the coordinates of the adjacency matrix *)
  row : list nat;
  col : list nat;
  (** [self.features], an E x M array *)
  features : list (list R);
  N : nat;
  E : nat;
  M : nat
}.

(** What networkx keeps true of a graph: a node is listed once, the keys
    of an adjacency dictionary are distinct, and they are nodes of the
    graph. *)
Record well_formed (g : Graph) : Prop := {
  g_nodes_nodup : NoDup (g_nodes g);
  g_adj_nodup : forall u, NoDup (g_adj g u);
  g_adj_closed : forall u v, In v (g_adj g u) -> In v (g_nodes g)
}.

(** What [train] (lines 34-50) establishes about the graph attributes:
    [nodes] lists the nodes of the graph, each once, [candidates] are the
    repositories among them, and N is their number. *)
Record trained (self : SupervisedRWRecommender) : Prop := {
  graph_ok : well_formed (graph self);
  nodes_graph : nodes self = g_nodes (graph self);
  nodes_nodup : NoDup (nodes self);
  candidates_def : candidates self = filter is_repository (nodes self);
  N_def : N self = length (nodes self)
}.

(** What [train] establishes about the shapes: [features] is E x M, and
    [row], [col] are the E coordinates of an N x N sparse matrix. *)
Record shapes_ok (self : SupervisedRWRecommender) : Prop := {
  features_rows : length (features self) = E self;
  features_cols : Forall (fun f => length f = M self) (features self);
  row_len : length (row self) = E self;
  col_len : length (col self) = E self;
  row_range : Forall (fun r => (r < N self)%nat) (row self);
  col_range : Forall (fun c => (c < N self)%nat) (col self)
}.

(** ** Edge strength *)

(** One entry of [np.einsum('ij,j->i', features, w)]. *)
Fixpoint dot (f w : vec) : R :=
  match f, w with
  | x :: f', y :: w' => x * y + dot f' w'
  | _, _ => 0
  end.

(** [_get_edge_strength], lines 58-63.  [einsum] raises when a row of
    [features] and [w] differ in length; [train] builds [features] with
    M columns and every caller passes a [w] of length M. *)
Definition _get_edge_strength (self : SupervisedRWRecommender) (w : vec)
  : vec * list (list R) :=
  let S := map (fun f => dot f w) (features self) in
  let A := map sigmoid S in
  let dA := map (fun a => a * (1 - a)) A in
  let dA := map (fun af => map (fun x => fst af * x) (snd af))
                (combine dA (features self)) in
  (A, dA).

(** ** Edge strength in double precision *)

(** The number that a finite double stands for: [m * 2^e], with its
    sign. *)
Definition float_value (x : float) : option R :=
  match Prim2SF x with
  | S754_zero _ => Some 0
  | S754_finite s m e =>
      let mag := match e with
                 | Z0 => IZR (Zpos m)
                 | Zpos p => IZR (Zpos m) * IZR (Z.pow_pos 2 p)
                 | Zneg p => IZR (Zpos m) / IZR (Z.pow_pos 2 p)
                 end in
      Some (if s then - mag else mag)
  | S754_infinity _ => None
  | S754_nan => None
  end.

(** [np.exp] on a double is a call of the C library.  What is used of it
    is what it does at the two ends of the double range: where the exact
    exponential is 2^1024 or more it overflows to [inf], and where the
    exact exponential is below the least positive double, 2^-1074, it
    answers one of the two doubles around it, zero or that double. *)
Record ieee_exp (np_exp : float -> float) : Prop := {
  exp_overflow : forall x v,
    float_value x = Some v -> IZR (2 ^ 1024) <= exp v ->
    np_exp x = infinity;
  exp_underflow : forall x v,
    float_value x = Some v -> exp v < / IZR (2 ^ 1074) ->
    np_exp x = 0%float \/ np_exp x = 0x1p-1074%float
}.

(** [sigmoid], lines 15-16, on a double. *)
Definition sigmoid64 (np_exp : float -> float) (x : float) : float :=
  (1 / (1 + np_exp (- x)))%float.

(** One entry of [np.einsum('ij,j->i', features, w)] on doubles.  The
    order in which [einsum] adds the products is its own; with one
    column there is one product. *)
Fixpoint dot64 (f w : list float) : float :=
  match f, w with
  | x :: f', y :: w' => (x * y + dot64 f' w')%float
  | _, _ => 0%float
  end.

(** [_get_edge_strength], lines 58-63, on doubles. *)
Definition _get_edge_strength64 (np_exp : float -> float)
    (features : list (list float)) (w : list float)
  : list float * list (list float) :=
  let S := map (fun f => dot64 f w) features in
  let A := map (sigmoid64 np_exp) S in
  let dA := map (fun a => (a * (1 - a))%float) A in
  let dA := map (fun af => map (fun x => (fst af * x)%float) (snd af))
                (combine dA features) in
  (A, dA).

(** [0 < a < 1] on doubles. *)
Definition strictly_inside64 (a : float) : bool :=
  ((0 <? a) && (a <? 1))%float.

(** A function with the two properties of [ieee_exp]. *)
Definition coarse_exp (x : float) : float :=
  match float_value x with
  | Some v =>
      if Rle_dec (IZR (2 ^ 1024)) (exp v) then infinity
      else if Rlt_dec (exp v) (/ IZR (2 ^ 1074)) then 0%float
      else 1%float
  | None => nan
  end.

(** ** Sparse matrices *)

(** [coo_matrix((data, (row, col)), shape=(n, n))] read as a dense matrix:
    the entry at [(i, j)] is the sum of the data stored at that
    coordinate (scipy adds duplicates up when it converts to CSR/CSC).
    scipy raises [ValueError] when the three arrays differ in length or a
    coordinate is outside the shape; [shapes_ok] excludes both. *)
Fixpoint coo_entry (rows cols : list nat) (data : vec) (i j : nat) : R :=
  match rows, cols, data with
  | r :: rows', c :: cols', a :: data' =>
      (if ((r =? i)%nat && (c =? j)%nat)%bool then a else 0)
      + coo_entry rows' cols' data' i j
  | _, _, _ => 0
  end.

Definition coo_matrix (n : nat) (rows cols : list nat) (data : vec) : matrix :=
  build2 n (coo_entry rows cols data).

(** [M.sum(axis=1)], one entry. *)
Definition row_sum (r : vec) : R := vsum r.

(** One row of [sklearn.preprocessing.normalize(Q, norm='l1')] on a CSR
    matrix: the row is divided by the sum of the absolute values of its
    entries, and a row whose sum is zero is left as it is. *)
Definition normalize_l1_row (r : vec) : vec :=
  let s := vsum (map Rabs r) in
  if Req_dec_T s 0 then r else map (fun x => x / s) r.

(** [r[j] += a]. *)
Fixpoint add_at (j : nat) (a : R) (r : vec) : vec :=
  match r, j with
  | [], _ => []
  | x :: r', O => (x + a) :: r'
  | x :: r', S j' => x :: add_at j' a r'
  end.

(** ** Transition matrix *)

(** [_get_transition_probability], lines 65-74.  [root] is an index below
    N (the LIL matrix raises [IndexError] otherwise; [_get_rank] passes
    [node_indices[user]]). *)
Definition _get_transition_probability
    (self : SupervisedRWRecommender) (A : vec) (root : nat) : matrix :=
  let Q := coo_matrix (N self) (row self) (col self) A in
  let Q := map normalize_l1_row Q in
  let Q := map (map (fun x => x * (1 - alpha self))) Q in
  map (add_at root (alpha self)) Q.

(** ** Values that may leave the real numbers

    numpy does not raise on a floating-point division by zero: the
    quotient is [inf] or [nan].  [Finite a] is a value all of whose
    entries are real numbers, [NonFinite] a value of the same shape with
    at least one [inf] or [nan] entry. *)
Inductive ndarray (A : Type) : Type :=
| Finite (a : A)
| NonFinite.
Arguments Finite {A} a.
Arguments NonFinite {A}.

(** All rows finite, or some row not. *)
Fixpoint all_finite {A : Type} (l : list (ndarray A)) : ndarray (list A) :=
  match l with
  | [] => Finite []
  | NonFinite :: _ => NonFinite
  | Finite a :: l' =>
      match all_finite l' with
      | Finite r => Finite (a :: r)
      | NonFinite => NonFinite
      end
  end.

Definition is_zero (x : R) : bool := if Req_dec_T x 0 then true else false.

(** ** Derivative of the transition matrix *)

(** [dA[:, m]]. *)
Definition column (m : nat) (dA : list (list R)) : vec :=
  map (fun r => nth m r 0) dA.

(** Row [i] of [norm_F * dFm - norm_dFm * F] (line 90): two diagonal
    scalings and a sparse subtraction. *)
Definition dQ_numerator (sF sdF : R) (Frow dFrow : vec) : vec :=
  map (fun p => sF * snd p - sdF * fst p) (combine Frow dFrow).

(** Row [i] of [denominator * dQ[m]] (lines 87-91).  [denominator] holds
    [1.0 / np.power(norm, 2)], where [norm] is the row sum of [dFm]; it is
    [inf] where that sum is zero.  The product is a sparse one: it visits
    the stored entries of the numerator, which are its nonzero entries
    (scipy's sparse subtraction keeps no zero), so a row whose numerator
    vanishes stays a zero row and any other row of zero [norm] holds
    [inf]. *)
Definition dQ_row (norm : R) (numer : vec) : ndarray vec :=
  if forallb is_zero numer then Finite numer
  else if Req_dec_T norm 0 then NonFinite
  else Finite (map (fun x => 1 / norm ^ 2 * x) numer).

(** [dQ[m]], lines 84-93. *)
Definition dQ_m (self : SupervisedRWRecommender) (F : matrix) (dAm : vec)
  : ndarray matrix :=
  let dFm := coo_matrix (N self) (row self) (col self) dAm in
  let rows :=
    map (fun p => dQ_row (row_sum (snd p))
                         (dQ_numerator (row_sum (fst p)) (row_sum (snd p))
                                       (fst p) (snd p)))
        (combine F dFm) in
  match all_finite rows with
  | Finite dQ => Finite (map (map (fun x => x * (1 - alpha self))) dQ)
  | NonFinite => NonFinite
  end.

(** [_get_transition_probability_derivative], lines 76-95. *)
Definition _get_transition_probability_derivative
    (self : SupervisedRWRecommender) (A : vec) (dA : list (list R))
  : list (ndarray matrix) :=
  let F := coo_matrix (N self) (row self) (col self) A in
  map (fun m => dQ_m self F (column m dA)) (seq 0 (M self)).

(** ** Fixed-point iteration *)

(** What a Python call may raise here. *)
Inductive exn : Type :=
| ZeroDivisionError
| KeyError
| ValueError
| NetworkXError.

Inductive result (A : Type) : Type :=
| Ok (a : A)
| Raise (e : exn).
Arguments Ok {A} a.
Arguments Raise {A} e.

(** The two messages the solvers print. *)
Inductive solver : Type := Primal | Derivative.

(** ['Warning: stationary distribution (derivative) does not converge in
    %d iteration(s) (delta=%f)']. *)
Record diagnostic : Type := Warning {
  w_solver : solver;
  w_steps : nat;
  w_delta : ndarray R
}.

(** [np.max] of a non-empty array. *)
Definition vmax (v : vec) : R :=
  match v with
  | [] => 0
  | x :: v' => fold_left Rmax v' x
  end.

(** [X2 - X1], elementwise. *)
Definition vsub (X2 X1 : vec) : vec :=
  map (fun p => fst p - snd p) (combine X2 X1).

Definition Rltb (x y : R) : bool := if Rlt_dec x y then true else false.

(** [_converged], lines 97-100. *)
Definition _converged (self : SupervisedRWRecommender) (X1 X2 : vec)
  : bool * R :=
  let delta := map Rabs (vsub X2 X1) in
  let delta := vmax delta in
  (Rltb delta (epsilon self), delta).

(** [Q.T.dot(P.T).T]: entry [j] is the sum over [i] of [Q[i, j] * P[i]]. *)
Definition Qt_dot (n : nat) (Q : matrix) (P : vec) : vec :=
  build n (fun j => sum_upto n (fun i => mget Q i j * vget P i)).

(** Lines 107-108: [P1 = Q.T.dot(P.T).T; P1 /= P1.sum()].  When the sum is
    zero every entry of the quotient is [inf] or [nan]. *)
Definition primal_step (self : SupervisedRWRecommender) (Q : matrix) (P : vec)
  : ndarray vec :=
  let P1 := Qt_dot (N self) Q P in
  let s := vsum P1 in
  if Req_dec_T s 0 then NonFinite else Finite (map (fun x => x / s) P1).

(** The variables of the loop of lines 106-112. *)
Record loop_state : Type := LoopState {
  ls_P : ndarray vec;
  ls_converged : bool;
  ls_delta : ndarray R
}.

(** The [for] loop of lines 106-112 with [steps] iterations left.  Once
    [P] holds a non-finite entry it keeps one: the finite entries of such
    a [P] are zeros, so [P1.sum()] is zero or not finite and the quotient
    holds [nan] again; [delta] is then [nan] or [inf], the test
    [delta < epsilon] fails, and the loop stores [P1] and goes on. *)
Fixpoint primal_loop (self : SupervisedRWRecommender) (Q : matrix)
    (steps : nat) (st : loop_state) : loop_state :=
  match steps with
  | O => st
  | S steps' =>
      match ls_P st with
      | NonFinite => primal_loop self Q steps' (LoopState NonFinite false NonFinite)
      | Finite P =>
          match primal_step self Q P with
          | NonFinite =>
              primal_loop self Q steps' (LoopState NonFinite false NonFinite)
          | Finite P1 =>
              let (converged, delta) := _converged self P P1 in
              if converged then LoopState (Finite P) true (Finite delta)
              else primal_loop self Q steps'
                     (LoopState (Finite P1) false (Finite delta))
          end
      end
  end.

(** Lines 103-104: [P = np.empty((N,)); P.fill(1.0 / N)]. *)
Definition uniform (self : SupervisedRWRecommender) : vec :=
  repeat (1 / INR (N self)) (N self).

(** [_get_stationary_distribution], lines 102-116: the vector returned and
    what was printed.  [1.0 / self.N] raises when N is zero. *)
Definition _get_stationary_distribution
    (self : SupervisedRWRecommender) (Q : matrix)
  : result (ndarray vec * list diagnostic) :=
  match N self with
  | O => Raise ZeroDivisionError
  | S _ =>
      let P := uniform self in
      let st := primal_loop self Q (max_steps self)
                  (LoopState (Finite P) false (Finite 0)) in
      Ok (ls_P st,
          if ls_converged st then []
          else [Warning Primal (max_steps self) (ls_delta st)])
  end.

(** Lines 124-127: the column sums of
    [diag(dP[:, m]) * Q + diag(P) * dQ[m]]. *)
Definition derivative_step (n : nat) (P : vec) (Q dQm : matrix) (dPm : vec)
  : vec :=
  build n (fun j =>
    sum_upto n (fun i => vget dPm i * mget Q i j + vget P i * mget dQm i j)).

(** The variables of the inner loop of lines 123-131: the column
    [dP[:, m]], [converged] and [delta]. *)
Record dloop_state : Type := DLoopState {
  ds_dP : vec;
  ds_converged : bool;
  ds_delta : R
}.

(** The inner [for] loop of lines 123-131 with [steps] iterations left. *)
Fixpoint derivative_loop (self : SupervisedRWRecommender)
    (P : vec) (Q dQm : matrix) (steps : nat) (st : dloop_state) : dloop_state :=
  match steps with
  | O => st
  | S steps' =>
      let dPm := derivative_step (N self) P Q dQm (ds_dP st) in
      let (converged, delta) := _converged self (ds_dP st) dPm in
      if converged then DLoopState (ds_dP st) true delta
      else derivative_loop self P Q dQm steps' (DLoopState dPm false delta)
  end.

(** One turn of the outer loop of lines 121-134: the final column
    [dP[:, m]] and what was printed for feature [m]. *)
Definition derivative_column (self : SupervisedRWRecommender)
    (P : vec) (Q dQm : matrix) : vec * list diagnostic :=
  let st := derivative_loop self P Q dQm (max_steps self)
              (DLoopState (repeat 0 (N self)) false 0) in
  (ds_dP st,
   if ds_converged st then []
   else [Warning Derivative (max_steps self) (Finite (ds_delta st))]).

(** [_get_stationary_distribution_derivative], lines 118-135, on finite
    [P], [Q] and [dQ] (one matrix per feature, M of them): the N x M array
    [dP], row by row, and what was printed, in order.  The function is
    called after [_get_stationary_distribution] returned, so N is
    positive. *)
Definition _get_stationary_distribution_derivative
    (self : SupervisedRWRecommender) (P : vec) (Q : matrix) (dQ : list matrix)
  : list vec * list diagnostic :=
  let cols := map (fun m => derivative_column self P Q (nth m dQ []))
                 (seq 0 (M self)) in
  (map (fun i => map (fun c => vget (fst c) i) cols) (seq 0 (N self)),
   concat (map snd cols)).

(** ** The ranking loss *)

(** [np.sum(w ** 2)]. *)
Definition sq_norm (w : vec) : R := vsum (map (fun x => x ^ 2) w).

(** [np.einsum('i,im->m', ddiff, dpairs)], entry [m]. *)
Definition einsum_i_im (m : nat) (ddiff : vec) (dpairs : list vec) : R :=
  vsum (map (fun p => fst p * vget (snd p) m) (combine ddiff dpairs)).

(** Lines 144-152 of [_loss_function], once [P] and [dP] are there. *)
Definition loss_of (self : SupervisedRWRecommender) (w : vec)
    (pairs : list (nat * nat)) (P : vec) (dP : list vec) : R * vec :=
  let diff := map (fun uv => vget P (fst uv) - vget P (snd uv)) pairs in
  let loss := map (fun d => sigmoid (d / loss_width self)) diff in
  let objective := sq_norm w + lambda_ self * vsum loss in
  let ddiff := map (fun l => l * (1 - l) / loss_width self) loss in
  let dpairs := map (fun uv => vsub (nth (fst uv) dP []) (nth (snd uv) dP []))
                    pairs in
  let gradient :=
    build (M self) (fun m =>
      2 * vget w m + einsum_i_im m ddiff dpairs * lambda_ self) in
  (objective, gradient).

(** [_loss_function], lines 137-152.  The value is [NonFinite] when a
    division by zero occurred on the way (in [dQ], in [P], or by a zero
    [loss_width] with at least one pair): [inf] and [nan] are not followed
    through the rest of the computation.  So a finite value here is the
    finite value of the program; the converse fails where there is no
    pair, since the program then sums over nothing and its value is
    finite whatever [P] and [dQ] hold.  What the solvers print is
    dropped. *)
Definition _loss_function (self : SupervisedRWRecommender) (w : vec)
    (root : nat) (pairs : list (nat * nat)) : result (ndarray (R * vec)) :=
  let (A, dA) := _get_edge_strength self w in
  let Q := _get_transition_probability self A root in
  let dQ := _get_transition_probability_derivative self A dA in
  match _get_stationary_distribution self Q with
  | Raise e => Raise e
  | Ok (NonFinite, _) => Ok NonFinite
  | Ok (Finite P, _) =>
      match all_finite dQ with
      | NonFinite => Ok NonFinite
      | Finite dQ =>
          let dP := fst (_get_stationary_distribution_derivative self P Q dQ) in
          match pairs with
          | _ :: _ =>
              if Req_dec_T (loss_width self) 0 then Ok NonFinite
              else Ok (Finite (loss_of self w pairs P dP))
          | [] => Ok (Finite (loss_of self w pairs P dP))
          end
      end
  end.

(** ** Random choices and the optimizer

    [random.sample], [np.random.rand] and scipy's [fmin_l_bfgs_b] are
    calls to other libraries.  A computation that makes them is a tree:
    each call is a node that holds the arguments and continues with the
    answer. *)
Inductive prog (A : Type) : Type :=
| Ret (a : A)
| Throw (e : exn)
| Sample (population : list node) (k : nat) (cont : list node -> prog A)
| Rand (m : nat) (cont : vec -> prog A)
| Minimize (f : vec -> result (ndarray (R * vec))) (x0 : vec)
           (cont : vec -> prog A).
Arguments Ret {A} a.
Arguments Throw {A} e.
Arguments Sample {A} population k cont.
Arguments Rand {A} m cont.
Arguments Minimize {A} f x0 cont.

Fixpoint bind {A B : Type} (p : prog A) (k : A -> prog B) : prog B :=
  match p with
  | Ret a => k a
  | Throw e => Throw e
  | Sample pop n cont => Sample pop n (fun s => bind (cont s) k)
  | Rand m cont => Rand m (fun w => bind (cont w) k)
  | Minimize f x0 cont => Minimize f x0 (fun w => bind (cont w) k)
  end.

Notation "x <- p ;; q" := (bind p (fun x => q))
  (at level 61, p at next level, right associativity).

(** [random.sample(population, k)] answers with [k] distinct elements of
    the population. *)
Definition valid_sample (population : list node) (k : nat) (s : list node)
  : Prop :=
  length s = k /\ NoDup s /\ incl s population.

(** [p] can return [a]: some answers of the libraries lead to it.
    [np.random.rand(m)] answers with [m] numbers, and [fmin_l_bfgs_b] with
    a vector of the length of its starting point. *)
Inductive returns {A : Type} : prog A -> A -> Prop :=
| returns_Ret a : returns (Ret a) a
| returns_Sample pop k cont s a :
    valid_sample pop k s -> returns (cont s) a ->
    returns (Sample pop k cont) a
| returns_Rand m cont w a :
    length w = m -> returns (cont w) a -> returns (Rand m cont) a
| returns_Minimize f x0 cont w a :
    length w = length x0 -> returns (cont w) a ->
    returns (Minimize f x0 cont) a.

(** [p] can raise [e]. *)
Inductive raises {A : Type} : prog A -> exn -> Prop :=
| raises_Throw e : raises (Throw e) e
| raises_Sample pop k cont s e :
    valid_sample pop k s -> raises (cont s) e -> raises (Sample pop k cont) e
| raises_Rand m cont w e :
    length w = m -> raises (cont w) e -> raises (Rand m cont) e
| raises_Minimize f x0 cont w e :
    length w = length x0 -> raises (cont w) e ->
    raises (Minimize f x0 cont) e.

(** [p] can call the optimizer on the objective [f] from the starting
    point [x0]. *)
Inductive hands_over {A : Type}
  : prog A -> (vec -> result (ndarray (R * vec))) -> vec -> Prop :=
| hands_over_Minimize f x0 cont : hands_over (Minimize f x0 cont) f x0
| hands_over_Sample pop k cont s f x0 :
    valid_sample pop k s -> hands_over (cont s) f x0 ->
    hands_over (Sample pop k cont) f x0
| hands_over_Rand m cont w f x0 :
    length w = m -> hands_over (cont w) f x0 ->
    hands_over (Rand m cont) f x0.

(** [p] can reach a call of the optimizer. *)
Inductive optimizes {A : Type} : prog A -> Prop :=
| optimizes_Minimize f x0 cont : optimizes (Minimize f x0 cont)
| optimizes_Sample pop k cont s :
    valid_sample pop k s -> optimizes (cont s) -> optimizes (Sample pop k cont)
| optimizes_Rand m cont w :
    length w = m -> optimizes (cont w) -> optimizes (Rand m cont).

(** ** Sampling *)

(** [set(l)]: the elements of [l], each once. *)
Definition set_of (l : list node) : list node := nodup node_eq_dec l.

(** [set(a) - set(b)]. *)
Definition set_diff (a b : list node) : list node :=
  filter (fun x => negb (mem x b)) (set_of a).

(** [[self.node_indices[x] for x in l]]; a node that is not in the graph
    raises [KeyError]. *)
Fixpoint indices_of (nodes : list node) (l : list node) : result (list nat) :=
  match l with
  | [] => Ok []
  | x :: l' =>
      match index_of x nodes, indices_of nodes l' with
      | Some i, Ok r => Ok (i :: r)
      | None, _ => Raise KeyError
      | _, Raise e => Raise e
      end
  end.

Definition lift {A : Type} (r : result A) : prog A :=
  match r with
  | Ok a => Ret a
  | Raise e => Throw e
  end.

(** [_select_samples], lines 154-160.  [graph.neighbors(user)] raises
    networkx's own error for a [user] that is not a node of the graph. *)
Definition _select_samples (self : SupervisedRWRecommender) (user : node)
  : prog (list nat * list nat) :=
  if mem user (g_nodes (graph self)) then
    let positive := g_adj (graph self) user in
    let others := set_diff (candidates self) positive in
    negative <- Sample others (Nat.min (length positive) (length others)) (@Ret _) ;;
    positive <- lift (indices_of (nodes self) positive) ;;
    negative <- lift (indices_of (nodes self) negative) ;;
    Ret (positive, negative)
  else Throw NetworkXError.

(** ** Fitting and ranking *)

(** [[(u, v) for u in negative for v in positive]]. *)
Definition cross (negative positive : list nat) : list (nat * nat) :=
  flat_map (fun u => map (fun v => (u, v)) positive) negative.

(** Lines 163-168 of [_get_rank]: the samples, the pairs, the random
    starting point and the call of the optimizer; the value is the root
    index and the weights the optimizer answered. *)
Definition fit (self : SupervisedRWRecommender) (user : node)
  : prog (nat * vec) :=
  pn <- _select_samples self user ;;
  let pairs := cross (snd pn) (fst pn) in
  u <- lift (match index_of user (nodes self) with
             | Some u => Ok u
             | None => Raise KeyError
             end) ;;
  w0 <- Rand (M self) (@Ret _) ;;
  w <- Minimize (fun w => _loss_function self w u pairs) w0 (@Ret _) ;;
  Ret (u, w).

(** [_get_rank], lines 162-172. *)
Definition _get_rank (self : SupervisedRWRecommender) (user : node)
  : prog (ndarray vec) :=
  uw <- fit self user ;;
  let A := fst (_get_edge_strength self (snd uw)) in
  let Q := _get_transition_probability self A (fst uw) in
  P <- lift (_get_stationary_distribution self Q) ;;
  Ret (fst P).

(** Modelled from the spec: [recommend_by_rank] of
    [ghanalyzer.utils.recommendation] is not among the sources.  Section
    4.5: the entries are sorted by descending score, the sort is stable
    (entries of equal score keep the order they come in), and the first
    [n] are returned as (node, score) pairs. *)
Fixpoint insert_by_score (x : node * R) (l : list (node * R))
  : list (node * R) :=
  match l with
  | [] => [x]
  | y :: l' =>
      if Rlt_dec (snd x) (snd y) then y :: insert_by_score x l'
      else x :: y :: l'
  end.

Definition sort_by_score (l : list (node * R)) : list (node * R) :=
  fold_right insert_by_score [] l.

Definition recommend_by_rank (rank : list (node * R)) (n : nat)
  : list (node * R) :=
  firstn n (sort_by_score rank).

(** The items that the dictionary comprehension of lines 54-55 inserts,
    in the order in which it inserts them, that of [self.nodes]. *)
Definition rank_items (self : SupervisedRWRecommender) (user : node)
    (rank : vec) : list (node * R) :=
  filter (fun kv => is_repository (fst kv)
                    && negb (mem (fst kv) (g_adj (graph self) user)))%bool
         (combine (nodes self) rank).

(** The order in which a dictionary yields its items.  The program is
    Python 2 ([izip], [xrange], the [print] statement), where a
    dictionary iterates in the order of its hash table: that order comes
    from the hashes of the keys (here the entities of [ghanalyzer.models],
    which are not among the sources) and not from the order of insertion.
    [iteritems] takes the items in the order of insertion and answers
    them in the order of iteration, all of them, each once. *)
Definition dict_order (iteritems : list (node * R) -> list (node * R))
  : Prop :=
  forall items, Permutation items (iteritems items).

(** [recommend], lines 52-56: [recommend_by_rank] receives the dictionary
    and reads its items in the order [iteritems].  A rank with [nan]
    entries gives scores that are not numbers. *)
Definition recommend (iteritems : list (node * R) -> list (node * R))
    (self : SupervisedRWRecommender) (user : node) (n : nat)
  : prog (ndarray (list (node * R))) :=
  rank <- _get_rank self user ;;
  match rank with
  | Finite rank =>
      Ret (Finite (recommend_by_rank (iteritems (rank_items self user rank)) n))
  | NonFinite => Ret NonFinite
  end.

(** ** The iterates, as the specification words them

    Section 4.3: [P_0] is the start and [P_{k+1} = normalize(Q^T P_k)];
    the derivative of feature [m] starts from zero and applies the update
    of lines 124-127. *)
Fixpoint primal_iterate (self : SupervisedRWRecommender) (Q : matrix)
    (P : vec) (k : nat) : ndarray vec :=
  match k with
  | O => Finite P
  | S k' =>
      match primal_step self Q P with
      | Finite P1 => primal_iterate self Q P1 k'
      | NonFinite => NonFinite
      end
  end.

(** The change between [P_k] and [P_{k+1}], when both are finite. *)
Definition primal_delta_at (self : SupervisedRWRecommender) (Q : matrix)
    (P : vec) (k : nat) : ndarray R :=
  match primal_iterate self Q P k with
  | Finite Pk =>
      match primal_step self Q Pk with
      | Finite Pk1 => Finite (snd (_converged self Pk Pk1))
      | NonFinite => NonFinite
      end
  | NonFinite => NonFinite
  end.

(** The test [max |P_{k+1} - P_k| < epsilon] at step [k]. *)
Definition primal_converged_at (self : SupervisedRWRecommender) (Q : matrix)
    (P : vec) (k : nat) : bool :=
  match primal_delta_at self Q P k with
  | Finite d => Rltb d (epsilon self)
  | NonFinite => false
  end.

Fixpoint derivative_iterate (self : SupervisedRWRecommender)
    (P : vec) (Q dQm : matrix) (dP : vec) (k : nat) : vec :=
  match k with
  | O => dP
  | S k' =>
      derivative_iterate self P Q dQm
        (derivative_step (N self) P Q dQm dP) k'
  end.

Definition derivative_delta_at (self : SupervisedRWRecommender)
    (P : vec) (Q dQm : matrix) (dP : vec) (k : nat) : R :=
  let dPk := derivative_iterate self P Q dQm dP k in
  snd (_converged self dPk (derivative_step (N self) P Q dQm dPk)).

Definition derivative_converged_at (self : SupervisedRWRecommender)
    (P : vec) (Q dQm : matrix) (dP : vec) (k : nat) : bool :=
  Rltb (derivative_delta_at self P Q dQm dP k) (epsilon self).

(** ** The loss, as the specification words it

    Section 4.4.  The derivative of the logistic function is
    [logistic'(x) = logistic(x) * (1 - logistic(x))]. *)
Definition logistic' (x : R) : R := sigmoid x * (1 - sigmoid x).

(** The objective [|w|^2 + lambda * sum_pairs logistic((P[u] - P[v]) /
    width)], shared by the two gradients below. *)
Definition objective_of (self : SupervisedRWRecommender) (w : vec)
    (pairs : list (nat * nat)) (P : vec) : R :=
  sq_norm w
  + lambda_ self
    * vsum (map (fun uv =>
                   sigmoid ((vget P (fst uv) - vget P (snd uv))
                            / loss_width self))
                pairs).

(** The gradient as section 4.4 writes it: [2w + lambda * sum_pairs
    logistic'((P[u] - P[v]) / width) * (dP[u, :] - dP[v, :])]. *)
Definition claimed_gradient (self : SupervisedRWRecommender) (w : vec)
    (pairs : list (nat * nat)) (P : vec) (dP : list vec) : vec :=
  build (M self) (fun m =>
    2 * vget w m
    + lambda_ self
      * vsum (map (fun uv =>
                     logistic' ((vget P (fst uv) - vget P (snd uv))
                                / loss_width self)
                     * (mget dP (fst uv) m - mget dP (snd uv) m))
                  pairs)).

(** The gradient of the objective by the chain rule: each term carries
    the factor [1 / width] of the inner function. *)
Definition chain_rule_gradient (self : SupervisedRWRecommender) (w : vec)
    (pairs : list (nat * nat)) (P : vec) (dP : list vec) : vec :=
  build (M self) (fun m =>
    2 * vget w m
    + lambda_ self
      * vsum (map (fun uv =>
                     logistic' ((vget P (fst uv) - vget P (snd uv))
                                / loss_width self)
                     / loss_width self
                     * (mget dP (fst uv) m - mget dP (snd uv) m))
                  pairs)).

(** A probability vector of length [n]. *)
Definition stochastic (n : nat) (P : vec) : Prop :=
  length P = n /\ Forall (fun x => 0 <= x) P /\ vsum P = 1.

(** An n x n matrix without negative entries in which every row has a
    positive sum. *)
Definition walkable (n : nat) (Q : matrix) : Prop :=
  square n Q /\
  Forall (Forall (fun x => 0 <= x)) Q /\
  Forall (fun r => 0 < row_sum r) Q.

(** [x] comes before [y] in [self.nodes]. *)
Definition precedes (nodes : list node) (x y : node) : Prop :=
  exists i j, index_of x nodes = Some i /\ index_of y nodes = Some j
              /\ (i < j)%nat.

(** Scores descend, and of two entries with the same score the
    [earlier] one comes first. *)
Definition by_score (earlier : node * R -> node * R -> Prop)
    (x y : node * R) : Prop :=
  snd y < snd x \/ (snd x = snd y /\ earlier x y).

(** The order of a ranking: scores descend, and of two entries with the
    same score the one that comes first in [self.nodes] comes first. *)
Definition ranked_before (nodes : list node) : node * R -> node * R -> Prop :=
  by_score (fun x y => precedes nodes (fst x) (fst y)).

(** [x] comes before [y] in the sequence [items]. *)
Definition yielded_before (items : list (node * R)) (x y : node * R) : Prop :=
  exists i j, nth_error items i = Some x /\ nth_error items j = Some y
              /\ (i < j)%nat.

(** ** The quotient rule, as the specification words it

    Section 4.2: [dQ[m]] is the derivative of the row-normalized strength
    matrix, [(sum_row F * dF_m - sum_row dF_m * F) / (sum_row F)^2],
    scaled by [1 - alpha]; a row of [F] that sums to zero gives a zero
    row. *)
Definition quotient_rule_row (a : R) (Frow dFrow : vec) : vec :=
  let sF := row_sum Frow in
  let sdF := row_sum dFrow in
  if Req_dec_T sF 0 then map (fun _ => 0) Frow
  else map (fun p => (sF * snd p - sdF * fst p) / sF ^ 2 * (1 - a))
           (combine Frow dFrow).

Definition quotient_rule_dQ (self : SupervisedRWRecommender) (A : vec)
    (dA : list (list R)) (m : nat) : matrix :=
  let F := coo_matrix (N self) (row self) (col self) A in
  let dFm := coo_matrix (N self) (row self) (col self) (column m dA) in
  map (fun p => quotient_rule_row (alpha self) (fst p) (snd p))
      (combine F dFm).

(** ** A small session

    One user who starred two of three repositories.  The adjacency matrix
    of the undirected graph has four entries; there is one feature. *)
Definition demo_graph : Graph := {|
  g_nodes := [User 0; Repository 0; Repository 1; Repository 2];
  g_adj := fun n =>
    match n with
    | User 0 => [Repository 0; Repository 1]
    | Repository 0 => [User 0]
    | Repository 1 => [User 0]
    | _ => []
    end
|}.

Definition demo : SupervisedRWRecommender := {|
  max_steps := 1;
  alpha := 1 / 2;
  lambda_ := 1;
  epsilon := 1 / 100;
  loss_width := 2;
  graph := demo_graph;
  candidates := [Repository 0; Repository 1; Repository 2];
  nodes := [User 0; Repository 0; Repository 1; Repository 2];
  row := [0; 0; 1; 2]%nat;
  col := [1; 2; 0; 0]%nat;
  features := [[1]; [2]; [1]; [2]];
  N := 4;
  E := 4;
  M := 1
|}.

(** The transition matrix of the small session at [w = [0]], rooted at
    the user. *)
Definition demo_Q : matrix :=
  [[1 / 2; 1 / 4; 1 / 4; 0]; [1; 0; 0; 0]; [1; 0; 0; 0]; [1 / 2; 0; 0; 0]].

(** The small session with a tolerance of 1. *)
Definition coarse_demo : SupervisedRWRecommender := {|
  max_steps := 1;
  alpha := 1 / 2;
  lambda_ := 1;
  epsilon := 1;
  loss_width := 2;
  graph := demo_graph;
  candidates := [Repository 0; Repository 1; Repository 2];
  nodes := [User 0; Repository 0; Repository 1; Repository 2];
  row := [0; 0; 1; 2]%nat;
  col := [1; 2; 0; 0]%nat;
  features := [[1]; [2]; [1]; [2]];
  N := 4;
  E := 4;
  M := 1
|}.

(** ** A directed session

    A follow graph of two users, the first following the second, with no
    teleportation. *)
Definition follow_graph : Graph := {|
  g_nodes := [User 0; User 1];
  g_adj := fun n => match n with User 0 => [User 1] | _ => [] end
|}.

Definition follow_demo : SupervisedRWRecommender := {|
  max_steps := 2;
  alpha := 0;
  lambda_ := 1;
  epsilon := 1 / 100;
  loss_width := 1;
  graph := follow_graph;
  candidates := [];
  nodes := [User 0; User 1];
  row := [0]%nat;
  col := [1]%nat;
  features := [[1]];
  N := 2;
  E := 1;
  M := 1
|}.

(** ** A mixed session

    A user who follows another user and starred one of two
    repositories. *)
Definition mixed_graph : Graph := {|
  g_nodes := [User 0; User 1; Repository 0; Repository 1];
  g_adj := fun n =>
    match n with
    | User 0 => [User 1; Repository 0]
    | User 1 => [User 0]
    | Repository 0 => [User 0]
    | _ => []
    end
|}.

Definition mixed_demo : SupervisedRWRecommender := {|
  max_steps := 1;
  alpha := 1 / 2;
  lambda_ := 1;
  epsilon := 1 / 100;
  loss_width := 1;
  graph := mixed_graph;
  candidates := [Repository 0; Repository 1];
  nodes := [User 0; User 1; Repository 0; Repository 1];
  row := [0; 0; 1; 2]%nat;
  col := [1; 2; 0; 0]%nat;
  features := [[1]; [1]; [1]; [1]];
  N := 4;
  E := 4;
  M := 1
|}.

(** ** A session without edges

    One user and one repository, no edge between them. *)
Definition lonely_graph : Graph := {|
  g_nodes := [User 0; Repository 0];
  g_adj := fun _ => []
|}.

Definition lonely_demo : SupervisedRWRecommender := {|
  max_steps := 1;
  alpha := 1 / 2;
  lambda_ := 1;
  epsilon := 1 / 100;
  loss_width := 1;
  graph := lonely_graph;
  candidates := [Repository 0];
  nodes := [User 0; Repository 0];
  row := [];
  col := [];
  features := [];
  N := 2;
  E := 0;
  M := 1
|}.

(** ** A session with a feature that says nothing

    The small session with a second feature that is zero on every
    edge. *)
Definition flat_demo : SupervisedRWRecommender := {|
  max_steps := 1;
  alpha := 1 / 2;
  lambda_ := 1;
  epsilon := 1 / 100;
  loss_width := 2;
  graph := demo_graph;
  candidates := [Repository 0; Repository 1; Repository 2];
  nodes := [User 0; Repository 0; Repository 1; Repository 2];
  row := [0; 0; 1; 2]%nat;
  col := [1; 2; 0; 0]%nat;
  features := [[1; 0]; [2; 0]; [1; 0]; [2; 0]];
  N := 4;
  E := 4;
  M := 2
|}.

(** ** A session with two repositories that nobody starred

    One user who starred the first of three repositories; the feature is
    zero on both entries of the adjacency matrix (a constant column after
    standardization). *)
Definition tie_graph : Graph := {|
  g_nodes := [User 0; Repository 0; Repository 1; Repository 2];
  g_adj := fun n =>
    match n with
    | User 0 => [Repository 0]
    | Repository 0 => [User 0]
    | _ => []
    end
|}.

Definition tie_demo : SupervisedRWRecommender := {|
  max_steps := 1;
  alpha := 1 / 2;
  lambda_ := 1;
  epsilon := 1 / 100;
  loss_width := 1;
  graph := tie_graph;
  candidates := [Repository 0; Repository 1; Repository 2];
  nodes := [User 0; Repository 0; Repository 1; Repository 2];
  row := [0; 1]%nat;
  col := [1; 0]%nat;
  features := [[0]; [0]];
  N := 4;
  E := 2;
  M := 1
|}.

(** ** Two sessions on a directed graph

    A directed graph of two users and a repository, with one edge, from
    the second user to the repository; the feature is zero.  The first
    session has no teleportation, the second a teleport probability
    of 2. *)
Definition sink_graph : Graph := {|
  g_nodes := [User 0; User 1; Repository 0];
  g_adj := fun n => match n with User 1 => [Repository 0] | _ => [] end
|}.

Definition sink_demo : SupervisedRWRecommender := {|
  max_steps := 2;
  alpha := 0;
  lambda_ := 1;
  epsilon := 1 / 100;
  loss_width := 1;
  graph := sink_graph;
  candidates := [Repository 0];
  nodes := [User 0; User 1; Repository 0];
  row := [1]%nat;
  col := [2]%nat;
  features := [[0]];
  N := 3;
  E := 1;
  M := 1
|}.

Definition steep_demo : SupervisedRWRecommender := {|
  max_steps := 1;
  alpha := 2;
  lambda_ := 1;
  epsilon := 1 / 100;
  loss_width := 1;
  graph := sink_graph;
  candidates := [Repository 0];
  nodes := [User 0; User 1; Repository 0];
  row := [1]%nat;
  col := [2]%nat;
  features := [[0]];
  N := 3;
  E := 1;
  M := 1
|}.

(** ** One weight as a variable *)

(** [w] with [w[m] = t]. *)
Fixpoint set_at (m : nat) (t : R) (w : vec) : vec :=
  match w, m with
  | [], _ => []
  | _ :: w', O => t :: w'
  | x :: w', S m' => x :: set_at m' t w'
  end.

(** * Loading graphs ([ghanalyzer/io/graphs.py]) *)

(** ** JSON records *)

(** A JSON value of the record files.  The identifiers of GitHub entities
    are numbers. *)
#[warnings="-register-all"]
Inductive json : Type :=
| JNull
| JNum (n : nat)
| JStr (s : string)
| JObj (fields : list (string * json)).

(** A Python dictionary with string keys, as the list of its items. *)
Definition dict : Type := list (string * json).

(** [d[key]] or [d.get(key)]. *)
Fixpoint dict_get (key : string) (d : dict) : option json :=
  match d with
  | [] => None
  | (k, v) :: d' => if String.eqb k key then Some v else dict_get key d'
  end.

(** [d.pop(key)]: the value, and the dictionary without the key. *)
Fixpoint dict_pop (key : string) (d : dict) : option (json * dict) :=
  match d with
  | [] => None
  | (k, v) :: d' =>
      if String.eqb k key then Some (v, d')
      else match dict_pop key d' with
           | Some (x, d'') => Some (x, (k, v) :: d'')
           | None => None
           end
  end.

(** ** The table of graph types *)

(** The entity classes that the table names. *)
Inductive entity_class : Type :=
| UserClass
| OrganizationClass
| RepositoryClass.

(** [cls(id)]. *)
Definition make (cls : entity_class) (id : nat) : node :=
  match cls with
  | UserClass => User id
  | OrganizationClass => Organization id
  | RepositoryClass => Repository id
  end.

(** [type(n)]. *)
Definition class_of (n : node) : entity_class :=
  match n with
  | User _ => UserClass
  | Organization _ => OrganizationClass
  | Repository _ => RepositoryClass
  end.

Definition entity_class_eqb (a b : entity_class) : bool :=
  match a, b with
  | UserClass, UserClass => true
  | OrganizationClass, OrganizationClass => true
  | RepositoryClass, RepositoryClass => true
  | _, _ => false
  end.

(** One end of an edge: the key of the record that holds it, and its
    class. *)
Record end_metadata : Type := {
  em_name : string;
  em_class : entity_class
}.

Record metadata : Type := {
  md_filename : string;
  md_directed : bool;
  md_head : end_metadata;
  md_tail : end_metadata
}.

Definition repo_user (filename : string) : metadata := {|
  md_filename := filename;
  md_directed := false;
  md_head := {| em_name := "repo"; em_class := RepositoryClass |};
  md_tail := {| em_name := "user"; em_class := UserClass |}
|}.

(** [GRAPH_METADATA.get(graph_type)], lines 12-49 and 60. *)
Definition GRAPH_METADATA (graph_type : string) : option metadata :=
  if String.eqb graph_type "collaborator" then
    Some (repo_user "Collaborator.jsonl")
  else if String.eqb graph_type "contributor" then
    Some (repo_user "Contributor.jsonl")
  else if String.eqb graph_type "follow" then
    Some {| md_filename := "Follow.jsonl";
            md_directed := true;
            md_head := {| em_name := "followee"; em_class := UserClass |};
            md_tail := {| em_name := "follower"; em_class := UserClass |} |}
  else if String.eqb graph_type "membership" then
    Some {| md_filename := "Membership.jsonl";
            md_directed := false;
            md_head := {| em_name := "org"; em_class := OrganizationClass |};
            md_tail := {| em_name := "user"; em_class := UserClass |} |}
  else if String.eqb graph_type "stargazer" then
    Some (repo_user "Stargazer.jsonl")
  else if String.eqb graph_type "subscriber" then
    Some (repo_user "Subscriber.jsonl")
  else None.

(** ** Building the graph *)

(** Why a record gives no edge between two nodes that [node] represents.
    [load_graph] raises on it: [item.pop(name)] on a record without the
    key, [head['id']] on a value that is not an object or on an object
    without ['id'].  Or the identifier is not a number: the program builds
    the entity around whatever value it finds and goes on, with a node
    that [node], whose identifiers are numbers, does not represent; the
    embedding stops there and says nothing of such a file. *)
Inductive load_error : Type :=
| MissingKey (key : string)
| NotAnObject
| Unrepresented.

Inductive loaded (A : Type) : Type :=
| Loaded (a : A)
| LoadError (e : load_error).
Arguments Loaded {A} a.
Arguments LoadError {A} e.

(** [x['id']]. *)
Definition entity_id (x : json) : loaded nat :=
  match x with
  | JObj fields =>
      match dict_get "id" fields with
      | Some (JNum n) => Loaded n
      | Some _ => LoadError Unrepresented
      | None => LoadError (MissingKey "id")
      end
  | _ => LoadError NotAnObject
  end.

(** Lines 72-75: the two ends of the edge of a record, tail first. *)
Definition item_edge (md : metadata) (item : dict) : loaded (node * node) :=
  match dict_pop (em_name (md_head md)) item with
  | None => LoadError (MissingKey (em_name (md_head md)))
  | Some (head, item) =>
      match entity_id head with
      | LoadError e => LoadError e
      | Loaded head_id =>
          match dict_pop (em_name (md_tail md)) item with
          | None => LoadError (MissingKey (em_name (md_tail md)))
          | Some (tail, item) =>
              match entity_id tail with
              | LoadError e => LoadError e
              | Loaded tail_id =>
                  Loaded (make (em_class (md_tail md)) tail_id,
                          make (em_class (md_head md)) head_id)
              end
          end
      end
  end.

(** [nx.Graph()] or [nx.DiGraph()]. *)
Definition empty_graph : Graph := {| g_nodes := []; g_adj := fun _ => [] |}.

(** A key added to a dictionary: nothing changes when it is there. *)
Definition add_key (x : node) (l : list node) : list node :=
  if mem x l then l else l ++ [x].

(** [graph.add_edge(u, v)]: both ends become nodes, [v] becomes a key of
    [graph[u]], and in an undirected graph [u] a key of [graph[v]].  The
    attributes of the edge are not kept: [Graph] holds the keys of the
    adjacency dictionaries only. *)
Definition add_edge (directed : bool) (g : Graph) (u v : node) : Graph :=
  let adj1 := fun n =>
    if node_eq_dec n u then add_key v (g_adj g n) else g_adj g n in
  {| g_nodes := add_key v (add_key u (g_nodes g));
     g_adj := if directed then adj1
              else fun n =>
                if node_eq_dec n v then add_key u (adj1 n) else adj1 n |}.

(** The loop of lines 71-76.  [graph.add_edge(tail, head, **item)] passes
    what is left of the record as keyword arguments, the attributes of
    the edge, which [Graph] does not keep; networkx raises when one of
    these keys is the name of a parameter of [add_edge], and the embedding
    adds the edge there as well.  So [load_edges] answers a graph for
    every file of number-identified records for which the program returns
    one, and that graph has the same nodes and neighbours. *)
Fixpoint load_edges (md : metadata) (g : Graph) (data : list dict)
  : loaded Graph :=
  match data with
  | [] => Loaded g
  | item :: data' =>
      match item_edge md item with
      | LoadError e => LoadError e
      | Loaded (tail, head) =>
          load_edges md (add_edge (md_directed md) g tail head) data'
      end
  end.

(** [load_graph], lines 59-77, on the records of the file that the table
    names; [None] is the [None] that the function returns for a graph
    type that the table does not have. *)
Definition load_graph (graph_type : string)
    (item_filter : option (dict -> bool)) (data : list dict)
  : loaded (option Graph) :=
  match GRAPH_METADATA graph_type with
  | None => Loaded None
  | Some md =>
      let data := match item_filter with
                  | Some f => filter f data
                  | None => data
                  end in
      match load_edges md empty_graph data with
      | Loaded g => Loaded (Some g)
      | LoadError e => LoadError e
      end
  end.

(** Every edge of the graph runs from the class of the tail to the class
    of the head, or, in an undirected graph, back. *)
Definition edges_typed (md : metadata) (g : Graph) : Prop :=
  forall u v, In v (g_adj g u) ->
    (class_of u = em_class (md_tail md) /\ class_of v = em_class (md_head md))
    \/ (md_directed md = false
        /\ class_of u = em_class (md_head md)
        /\ class_of v = em_class (md_tail md)).

(** [v in graph[u]] exactly when [u in graph[v]]. *)
Definition symmetric (g : Graph) : Prop :=
  forall u v, In v (g_adj g u) <-> In u (g_adj g v).

(** ** Two records of a stargazer file

    User 0 starred the repositories 0 and 1. *)
Definition star_records : list dict :=
  [[("repo", JObj [("id", JNum 0)]); ("user", JObj [("id", JNum 0)]);
    ("starred_at", JStr "2014-01-01")];
   [("user", JObj [("id", JNum 0)]); ("repo", JObj [("id", JNum 1)])]]%string.

Definition star_graph : Graph :=
  add_edge false
    (add_edge false empty_graph (User 0) (Repository 0))
    (User 0) (Repository 1).

(** A session on the loaded stargazer graph. *)
Definition star_demo : SupervisedRWRecommender := {|
  max_steps := 1;
  alpha := 1 / 2;
  lambda_ := 1;
  epsilon := 1 / 100;
  loss_width := 1;
  graph := star_graph;
  candidates := [Repository 0; Repository 1];
  nodes := [User 0; Repository 0; Repository 1];
  row := [0; 0; 1; 2]%nat;
  col := [1; 2; 0; 0]%nat;
  features := [[1]; [1]; [1]; [1]];
  N := 3;
  E := 4;
  M := 1
|}.

(** * Edge features ([ghanalyzer/algorithms/graphfeatures.py]) *)

(** What [EdgeFeature.__init__] (lines 25-35) keeps of the adjacency
    matrix: the nodes and the two index arrays of its CSR form. *)
Record EdgeFeature : Type := {
  ef_nodes : list node;
  ef_indptr : list nat;
  ef_indices : list nat
}.

(** [self.edge_count], line 35: the number of stored entries. *)
Definition edge_count (self : EdgeFeature) : nat := length (ef_indices self).

(** Lines 45-46: [c = self.indices[i]; yield self.nodes[r],
    self.nodes[c]]; [None] is an [IndexError]. *)
Definition edge_at (self : EdgeFeature) (r i : nat) : option (node * node) :=
  match nth_error (ef_indices self) i with
  | Some c =>
      match nth_error (ef_nodes self) r, nth_error (ef_nodes self) c with
      | Some u, Some v => Some (u, v)
      | _, _ => None
      end
  | None => None
  end.

(** The inner loop of line 44, over [xrange(indptr[r], indptr[r+1])]. *)
Definition row_edges (self : EdgeFeature) (r : nat)
  : list (option (node * node)) :=
  match nth_error (ef_indptr self) r, nth_error (ef_indptr self) (S r) with
  | Some a, Some b => map (edge_at self r) (seq a (b - a))
  | _, _ => [None]
  end.

(** All the values, or [None] when one is missing. *)
Fixpoint all_some {A : Type} (l : list (option A)) : option (list A) :=
  match l with
  | [] => Some []
  | None :: _ => None
  | Some a :: l' =>
      match all_some l' with
      | Some r => Some (a :: r)
      | None => None
      end
  end.

(** [EdgeFeature._iter_edges], lines 42-46: the edges it yields, in
    order, or [None] when an index is out of range. *)
Definition EdgeFeature_iter_edges (self : EdgeFeature)
  : option (list (node * node)) :=
  all_some (flat_map (row_edges self) (seq 0 (length (ef_nodes self)))).

(** The index arrays are those of a CSR matrix of shape N x N over the N
    nodes (line 27 asserts the format). *)
Record csr_valid (self : EdgeFeature) : Prop := {
  indptr_length : length (ef_indptr self) = S (length (ef_nodes self));
  indptr_first : nth 0 (ef_indptr self) O = O;
  indptr_monotone :
    forall r, (r < length (ef_nodes self))%nat ->
      (nth r (ef_indptr self) O <= nth (S r) (ef_indptr self) O)%nat;
  indptr_last :
    nth (length (ef_nodes self)) (ef_indptr self) O = length (ef_indices self);
  indices_range :
    Forall (fun c => (c < length (ef_nodes self))%nat) (ef_indices self)
}.

(** ** Combined features *)

(** An extractor, as [CombinedFeature] uses it: its [feature_count] and
    its [get_feature_matrix(root)]. *)
Record extractor : Type := {
  feature_count : nat;
  get_feature_matrix : option nat -> list (list R)
}.

(** [DummyFeature], lines 63-67: [np.zeros((edge_count, 0))]. *)
Definition DummyFeature (self : EdgeFeature) : extractor := {|
  feature_count := 0;
  get_feature_matrix := fun _ => repeat [] (edge_count self)
|}.

(** [ConstantFeature], lines 70-80: one column filled with [value]. *)
Definition ConstantFeature (self : EdgeFeature) (value : R) : extractor := {|
  feature_count := 1;
  get_feature_matrix := fun _ => repeat [value] (edge_count self)
|}.

(** Two arrays side by side; [None] is the [ValueError] of numpy for
    arrays with different numbers of rows. *)
Definition hstack (a b : list (list R)) : option (list (list R)) :=
  if (length a =? length b)%nat
  then Some (map (fun p => fst p ++ snd p) (combine a b))
  else None.

(** [np.concatenate(arrays, axis=1)]; numpy raises on an empty
    sequence. *)
Fixpoint concatenate_axis1 (arrays : list (list (list R)))
  : option (list (list R)) :=
  match arrays with
  | [] => None
  | [a] => Some a
  | a :: arrays' =>
      match concatenate_axis1 arrays' with
      | Some r => hstack a r
      | None => None
      end
  end.

(** [CombinedFeature.__init__], lines 167-172: the extractors in use. *)
Definition combined_extractors (self : EdgeFeature)
    (extractors : list extractor) : list extractor :=
  match extractors with
  | [] => [DummyFeature self]
  | _ => extractors
  end.

(** [self.feature_count], line 172. *)
Definition combined_feature_count (self : EdgeFeature)
    (extractors : list extractor) : nat :=
  list_sum (map feature_count (combined_extractors self extractors)).

(** [CombinedFeature.get_feature_matrix], lines 174-176. *)
Definition combined_feature_matrix (self : EdgeFeature)
    (extractors : list extractor) (root : option nat)
  : option (list (list R)) :=
  concatenate_axis1
    (map (fun e => get_feature_matrix e root)
         (combined_extractors self extractors)).

(** The array has [rows] rows of [cols] entries. *)
Definition has_shape (rows cols : nat) (a : list (list R)) : Prop :=
  length a = rows /\ Forall (fun r => length r = cols) a.

(** The adjacency matrix of the small session, in CSR form. *)
Definition demo_features : EdgeFeature := {|
  ef_nodes := [User 0; Repository 0; Repository 1; Repository 2];
  ef_indptr := [0; 2; 3; 4; 4]%nat;
  ef_indices := [1; 2; 0; 0]%nat
|}.

(** * Properties *)

(** ** Sums and arrays *)

Lemma vsum_app (u v : vec) : vsum (u ++ v) = vsum u + vsum v.
Proof. induction u as [|x u IH]; simpl; [lra | rewrite IH; lra]. Qed.

Lemma length_build (n : nat) (f : nat -> R) : length (build n f) = n.
Proof. unfold build. now rewrite length_map, length_seq. Qed.

Lemma vget_build (n : nat) (f : nat -> R) (i : nat) :
  (i < n)%nat -> vget (build n f) i = f i.
Proof.
  intros Hi. unfold vget, build.
  rewrite (nth_indep _ 0 (f 0%nat)) by now rewrite length_map, length_seq.
  rewrite map_nth, seq_nth; auto.
Qed.

Lemma sum_upto_ext (n : nat) (f g : nat -> R) :
  (forall i, (i < n)%nat -> f i = g i) -> sum_upto n f = sum_upto n g.
Proof.
  intros H. unfold sum_upto. f_equal. apply map_ext_in.
  intros i Hi. apply in_seq in Hi. apply H. lia.
Qed.

Lemma sum_upto_S (n : nat) (f : nat -> R) :
  sum_upto (S n) f = sum_upto n f + f n.
Proof.
  unfold sum_upto. rewrite seq_S, map_app, vsum_app. simpl. lra.
Qed.

Lemma sum_upto_shift (n : nat) (f : nat -> R) :
  sum_upto (S n) f = f O + sum_upto n (fun i => f (S i)).
Proof.
  unfold sum_upto. simpl. f_equal. now rewrite <- seq_shift, map_map.
Qed.

Lemma sum_upto_plus (n : nat) (f g : nat -> R) :
  sum_upto n (fun i => f i + g i) = sum_upto n f + sum_upto n g.
Proof.
  induction n as [|n IH]; [unfold sum_upto; simpl; lra|].
  rewrite !sum_upto_S, IH. lra.
Qed.

Lemma sum_upto_scal (n : nat) (c : R) (f : nat -> R) :
  sum_upto n (fun i => c * f i) = c * sum_upto n f.
Proof.
  induction n as [|n IH]; [unfold sum_upto; simpl; lra|].
  rewrite !sum_upto_S, IH. lra.
Qed.

Lemma sum_upto_zero (n : nat) (f : nat -> R) :
  (forall i, (i < n)%nat -> f i = 0) -> sum_upto n f = 0.
Proof.
  induction n as [|n IH]; intros H; [reflexivity|].
  rewrite sum_upto_S, IH by (intros; apply H; lia).
  rewrite H by lia. lra.
Qed.

Lemma sum_upto_nonneg (n : nat) (f : nat -> R) :
  (forall i, (i < n)%nat -> 0 <= f i) -> 0 <= sum_upto n f.
Proof.
  induction n as [|n IH]; intros H; [unfold sum_upto; simpl; lra|].
  rewrite sum_upto_S.
  assert (0 <= sum_upto n f) by (apply IH; intros; apply H; lia).
  assert (0 <= f n) by (apply H; lia). lra.
Qed.

Lemma sum_upto_le (n : nat) (f g : nat -> R) :
  (forall i, (i < n)%nat -> f i <= g i) -> sum_upto n f <= sum_upto n g.
Proof.
  induction n as [|n IH]; intros H; [unfold sum_upto; simpl; lra|].
  rewrite !sum_upto_S.
  assert (sum_upto n f <= sum_upto n g) by (apply IH; intros; apply H; lia).
  assert (f n <= g n) by (apply H; lia). lra.
Qed.

(** One term of a sum of non-negative terms is at most the sum. *)
Lemma sum_upto_term_le (n : nat) (f : nat -> R) (k : nat) :
  (forall i, (i < n)%nat -> 0 <= f i) -> (k < n)%nat -> f k <= sum_upto n f.
Proof.
  induction n as [|n IH]; intros H Hk; [lia|].
  rewrite sum_upto_S.
  assert (0 <= sum_upto n f) by (apply sum_upto_nonneg; intros; apply H; lia).
  assert (0 <= f n) by (apply H; lia).
  destruct (Nat.eq_dec k n) as [->|Hne]; [lra|].
  assert (f k <= sum_upto n f) by (apply IH; [intros; apply H|]; lia). lra.
Qed.

(** Exchange of two finite sums. *)
Lemma sum_upto_swap (n m : nat) (f : nat -> nat -> R) :
  sum_upto n (fun i => sum_upto m (fun j => f i j))
  = sum_upto m (fun j => sum_upto n (fun i => f i j)).
Proof.
  induction n as [|n IH].
  - symmetry. apply sum_upto_zero. reflexivity.
  - rewrite sum_upto_S, IH, <- sum_upto_plus.
    apply sum_upto_ext. intros j _. now rewrite sum_upto_S.
Qed.

Lemma vsum_sum_upto (v : vec) : vsum v = sum_upto (length v) (vget v).
Proof.
  induction v as [|x v IH]; [reflexivity|].
  simpl length. rewrite sum_upto_shift. simpl. now rewrite IH.
Qed.

Lemma vsum_build (n : nat) (f : nat -> R) : vsum (build n f) = sum_upto n f.
Proof. reflexivity. Qed.

Lemma vsum_map_scal (c : R) (v : vec) :
  vsum (map (fun x => x * c) v) = vsum v * c.
Proof. induction v as [|x v IH]; simpl; [lra | rewrite IH; lra]. Qed.

Lemma vsum_map_div (s : R) (v : vec) :
  vsum (map (fun x => x / s) v) = vsum v / s.
Proof. unfold Rdiv. apply vsum_map_scal. Qed.

Lemma vsum_repeat (x : R) (n : nat) : vsum (repeat x n) = INR n * x.
Proof.
  induction n as [|n IH]; [simpl; lra|].
  rewrite S_INR. simpl. rewrite IH. lra.
Qed.

Lemma vsum_nonneg (v : vec) : Forall (fun x => 0 <= x) v -> 0 <= vsum v.
Proof. induction 1; simpl; lra. Qed.

Lemma dot_sum_upto (f w : vec) :
  length f = length w ->
  dot f w = sum_upto (length w) (fun m => vget f m * vget w m).
Proof.
  revert w. induction f as [|x f IH]; intros [|y w] Hlen; try discriminate.
  - reflexivity.
  - simpl length. rewrite sum_upto_shift. simpl. f_equal.
    apply IH. now injection Hlen.
Qed.

(** ** The logistic link *)

Lemma sigmoid_bounds (x : R) : 0 < sigmoid x < 1.
Proof.
  unfold sigmoid. pose proof (exp_pos (- x)) as He.
  split.
  - apply Rdiv_lt_0_compat; lra.
  - apply Rmult_lt_reg_r with (1 + exp (- x)); [lra|].
    unfold Rdiv. rewrite Rmult_assoc, Rinv_l by lra. lra.
Qed.

Lemma nth_map_lt {A B : Type} (f : A -> B) (l : list A) (i : nat) (d : B) (d' : A) :
  (i < length l)%nat -> nth i (map f l) d = f (nth i l d').
Proof.
  intros Hi. rewrite (nth_indep _ d (f d')) by now rewrite length_map.
  apply map_nth.
Qed.

(** ** Edge strength *)

(** The entries of [A] and [dA] over the real numbers, where the logistic
    function stays strictly between 0 and 1. *)
Lemma edge_strength_entries (self : SupervisedRWRecommender) (w : vec) :
  shapes_ok self -> length w = M self ->
  let A := fst (_get_edge_strength self w) in
  let dA := snd (_get_edge_strength self w) in
  length A = E self /\ length dA = E self /\
  forall e, (e < E self)%nat ->
    vget A e
    = sigmoid (sum_upto (M self) (fun m => mget (features self) e m * vget w m))
    /\ 0 < vget A e < 1
    /\ length (nth e dA []) = M self
    /\ forall m, (m < M self)%nat ->
         mget dA e m = vget A e * (1 - vget A e) * mget (features self) e m.
Proof.
  intros Hs Hw A dA. subst A dA. unfold _get_edge_strength. cbn [fst snd].
  destruct Hs as [Hrows Hcols _ _ _ _].
  split; [now rewrite !length_map|].
  split.
  { rewrite length_map, length_combine. repeat rewrite length_map.
    rewrite Hrows. apply Nat.min_id. }
  intros e He.
  assert (Hrow : length (nth e (features self) []) = M self).
  { rewrite Forall_forall in Hcols. apply Hcols, nth_In. lia. }
  assert (HA : vget (map sigmoid (map (fun f => dot f w) (features self))) e
               = sigmoid (dot (nth e (features self) []) w)).
  { unfold vget. rewrite map_map.
    apply (nth_map_lt (fun f => sigmoid (dot f w))). lia. }
  rewrite HA.
  split.
  { f_equal. rewrite dot_sum_upto by lia. rewrite Hw. reflexivity. }
  split; [apply sigmoid_bounds|].
  set (s := sigmoid (dot (nth e (features self) []) w)).
  assert (Hd : nth e
      (map (fun af : R * list R => map (fun x => fst af * x) (snd af))
         (combine (map (fun a => a * (1 - a))
                     (map sigmoid (map (fun f => dot f w) (features self))))
                  (features self))) []
      = map (fun x => s * (1 - s) * x) (nth e (features self) [])).
  { rewrite (nth_map_lt _ _ _ _ (0, []))
      by (rewrite length_combine, !length_map; lia).
    rewrite combine_nth by now rewrite !length_map.
    cbn [fst snd].
    rewrite (nth_map_lt (fun a => a * (1 - a)) _ _ _ 0)
      by (rewrite !length_map; lia).
    fold (vget (map sigmoid (map (fun f => dot f w) (features self))) e).
    rewrite HA. reflexivity. }
  split.
  { rewrite Hd, length_map. exact Hrow. }
  intros m Hm. unfold mget. rewrite Hd.
  apply (nth_map_lt (fun x => s * (1 - s) * x)). lia.
Qed.


(** ** Edge strength in double precision *)

Lemma exp_nat_mult (n : nat) (x : R) : exp (INR n * x) = exp x ^ n.
Proof.
  induction n as [|n IH].
  - simpl. rewrite Rmult_0_l. apply exp_0.
  - rewrite S_INR, Rmult_plus_distr_r, Rmult_1_l, exp_plus, IH. simpl. ring.
Qed.

Lemma exp_1_lower : 64 / 25 <= exp 1.
Proof.
  replace 1 with (INR 8 * (1 / 8)) at 1 by (simpl; lra).
  rewrite exp_nat_mult.
  assert (H : 9 / 8 <= exp (1 / 8)).
  { left. replace (9 / 8) with (1 + 1 / 8) by lra. apply exp_ineq1. lra. }
  apply Rle_trans with ((9 / 8) ^ 8); [simpl; lra|].
  apply pow_incr. lra.
Qed.

Lemma exp_800_lower : IZR (2 ^ 1075) <= exp 800.
Proof.
  replace 800 with (INR 800 * 1) by (rewrite INR_IZR_INZ; simpl; lra).
  rewrite exp_nat_mult.
  apply Rle_trans with ((64 / 25) ^ 800);
    [|apply pow_incr; split; [lra | apply exp_1_lower]].
  replace (64 / 25) with (IZR 64 * / IZR 25) by lra.
  rewrite Rpow_mult_distr, pow_inv, !pow_IZR.
  apply Rmult_le_reg_r with (IZR (25 ^ Z.of_nat 800)).
  { apply IZR_lt. now vm_compute. }
  rewrite Rmult_assoc, Rinv_l, Rmult_1_r.
  - rewrite <- mult_IZR. apply IZR_le. now vm_compute.
  - apply not_0_IZR. now vm_compute.
Qed.

Lemma float_value_800 : float_value 800%float = Some 800.
Proof.
  unfold float_value.
  replace (Prim2SF 800%float) with (S754_finite false 7036874417766400 (-43))
    by (vm_compute; reflexivity).
  cbv zeta iota beta. f_equal.
  change (Z.pow_pos 2 43) with 8796093022208%Z. lra.
Qed.

Lemma float_value_m800 : float_value (-800)%float = Some (- 800).
Proof.
  unfold float_value.
  replace (Prim2SF (-800)%float) with (S754_finite true 7036874417766400 (-43))
    by (vm_compute; reflexivity).
  cbv zeta iota beta. f_equal.
  change (Z.pow_pos 2 43) with 8796093022208%Z. lra.
Qed.

(** At 800 and at -800 the exponential leaves the double range. *)
Lemma exp_saturates (np_exp : float -> float) :
  ieee_exp np_exp ->
  np_exp 800%float = infinity
  /\ (np_exp (-800)%float = 0%float \/ np_exp (-800)%float = 0x1p-1074%float).
Proof.
  intros [Hover Hunder]. pose proof exp_800_lower as H800. split.
  - apply (Hover _ 800 float_value_800).
    apply Rle_trans with (IZR (2 ^ 1075)); [|exact H800].
    apply IZR_le. now vm_compute.
  - apply (Hunder _ (- 800) float_value_m800).
    replace (exp (- 800)) with (/ exp 800)
      by (rewrite <- exp_Ropp; f_equal; lra).
    apply Rinv_0_lt_contravar.
    + apply IZR_lt. now vm_compute.
    + eapply Rlt_le_trans; [|exact H800]. apply IZR_lt. now vm_compute.
Qed.

Lemma coarse_exp_ieee : ieee_exp coarse_exp.
Proof.
  split; intros x v Hv H; unfold coarse_exp; rewrite Hv.
  - destruct (Rle_dec _ _); [reflexivity | contradiction].
  - destruct (Rle_dec _ _) as [Hle|_].
    + exfalso. apply (Rlt_irrefl (exp v)).
      eapply Rlt_le_trans; [exact H|].
      eapply Rle_trans; [|exact Hle].
      apply Rle_trans with 1.
      * rewrite <- Rinv_1. apply Rinv_le_contravar; [lra|].
        apply IZR_le. now vm_compute.
      * apply IZR_le. now vm_compute.
    + destruct (Rlt_dec _ _); [now left | contradiction].
Qed.


(** ** Transition matrix *)

Lemma coo_entry_nonneg (rows cols : list nat) (data : vec) (i j : nat) :
  Forall (fun a => 0 <= a) data -> 0 <= coo_entry rows cols data i j.
Proof.
  intros H. revert rows cols.
  induction H as [|a data Ha _ IH]; intros [|r rows] [|c cols]; simpl; try lra.
  specialize (IH rows cols).
  destruct ((r =? i)%nat && (c =? j)%nat)%bool; lra.
Qed.

Lemma length_build2 (n : nat) (f : nat -> nat -> R) : length (build2 n f) = n.
Proof. unfold build2. now rewrite length_map, length_seq. Qed.

Lemma nth_build2 (n : nat) (f : nat -> nat -> R) (i : nat) :
  (i < n)%nat -> nth i (build2 n f) [] = build n (f i).
Proof.
  intros Hi. unfold build2.
  rewrite (nth_map_lt _ _ _ _ O) by now rewrite length_seq.
  now rewrite seq_nth.
Qed.

Lemma square_build2 (n : nat) (f : nat -> nat -> R) : square n (build2 n f).
Proof.
  split; [apply length_build2|].
  unfold build2. apply Forall_forall. intros r Hr.
  apply in_map_iff in Hr. destruct Hr as [i [<- _]]. apply length_build.
Qed.

Lemma Forall_build (P : R -> Prop) (n : nat) (f : nat -> R) :
  (forall i, (i < n)%nat -> P (f i)) -> Forall P (build n f).
Proof.
  intros H. unfold build. apply Forall_forall. intros x Hx.
  apply in_map_iff in Hx. destruct Hx as [i [<- Hi]].
  apply in_seq in Hi. apply H. lia.
Qed.

Lemma length_add_at (j : nat) (a : R) (r : vec) :
  length (add_at j a r) = length r.
Proof.
  revert j. induction r as [|x r IH]; intros [|j]; simpl; auto.
Qed.

Lemma vsum_add_at (j : nat) (a : R) (r : vec) :
  (j < length r)%nat -> vsum (add_at j a r) = vsum r + a.
Proof.
  revert j. induction r as [|x r IH]; intros [|j] Hj; simpl in *; try lia.
  - lra.
  - rewrite IH by lia. lra.
Qed.

Lemma map_Rabs_nonneg (r : vec) :
  Forall (fun x => 0 <= x) r -> map Rabs r = r.
Proof.
  induction 1 as [|x r Hx _ IH]; simpl; [reflexivity|].
  rewrite IH, Rabs_right by lra. reflexivity.
Qed.

(** The row sum of an L1-normalized row of non-negative entries is 1,
    unless the row sums to zero, which leaves it unchanged. *)
Lemma normalize_l1_row_sum (r : vec) :
  Forall (fun x => 0 <= x) r ->
  vsum (normalize_l1_row r) = if Req_dec_T (vsum r) 0 then 0 else 1.
Proof.
  intros Hr. unfold normalize_l1_row. rewrite map_Rabs_nonneg by assumption.
  destruct (Req_dec_T (vsum r) 0) as [Hz|Hnz]; [assumption|].
  rewrite vsum_map_div. now apply Rdiv_diag.
Qed.

Lemma length_normalize_l1_row (r : vec) :
  length (normalize_l1_row r) = length r.
Proof.
  unfold normalize_l1_row. destruct (Req_dec_T _ _); [reflexivity|].
  apply length_map.
Qed.

(** Row [i] of the transition matrix, from row [i] of the scattered
    strengths. *)
Lemma transition_row (self : SupervisedRWRecommender) (A : vec) (root i : nat) :
  (i < N self)%nat ->
  nth i (_get_transition_probability self A root) []
  = add_at root (alpha self)
      (map (fun x => x * (1 - alpha self))
         (normalize_l1_row
            (build (N self) (coo_entry (row self) (col self) A i)))).
Proof.
  intros Hi. unfold _get_transition_probability, coo_matrix.
  rewrite !map_map.
  rewrite (nth_map_lt _ _ _ _ []) by now rewrite length_build2.
  now rewrite nth_build2.
Qed.

Lemma transition_square (self : SupervisedRWRecommender) (A : vec) (root : nat) :
  square (N self) (_get_transition_probability self A root).
Proof.
  unfold _get_transition_probability, coo_matrix. rewrite !map_map.
  split; [now rewrite length_map, length_build2|].
  apply Forall_forall. intros r Hr. apply in_map_iff in Hr.
  destruct Hr as [r0 [<- Hr0]].
  rewrite length_add_at, length_map, length_normalize_l1_row.
  destruct (square_build2 (N self) (coo_entry (row self) (col self) A))
    as [_ Hall].
  rewrite Forall_forall in Hall. now apply Hall.
Qed.

(** C2.  For non-negative strengths, every row of the transition matrix
    sums to 1, except the rows whose raw strengths sum to zero, which sum
    to [alpha]. *)
Theorem transition_rows_sum (self : SupervisedRWRecommender) (A : vec)
    (root : nat) :
  shapes_ok self -> length A = E self -> Forall (fun a => 0 <= a) A ->
  (root < N self)%nat ->
  let F := coo_matrix (N self) (row self) (col self) A in
  let Q := _get_transition_probability self A root in
  square (N self) Q /\
  forall i, (i < N self)%nat ->
    row_sum (nth i Q [])
    = if Req_dec_T (row_sum (nth i F [])) 0 then alpha self else 1.
Proof.
  intros _ _ HA Hroot F Q. subst F Q.
  split; [apply transition_square|].
  intros i Hi. unfold row_sum, coo_matrix.
  rewrite transition_row, nth_build2 by assumption.
  set (r := build (N self) (coo_entry (row self) (col self) A i)).
  assert (Hr : Forall (fun x => 0 <= x) r).
  { apply Forall_build. intros j _. now apply coo_entry_nonneg. }
  rewrite vsum_add_at
    by (rewrite length_map, length_normalize_l1_row; unfold r;
        now rewrite length_build).
  rewrite vsum_map_scal, normalize_l1_row_sum by assumption.
  destruct (Req_dec_T (vsum r) 0); lra.
Qed.

(** ** The small session *)

Lemma demo_shapes_ok : shapes_ok demo.
Proof.
  constructor; simpl; try reflexivity; repeat constructor.
Qed.

(** A concrete list of nodes without repetition. *)
Ltac nodup_nodes := repeat constructor; simpl; intuition discriminate.

(** A member of a concrete adjacency list is a node of the graph. *)
Ltac adj_closed :=
  let u := fresh "u" in let v := fresh "v" in let H := fresh "H" in
  intros u v H; simpl in *;
  repeat match goal with
         | H : In _ (match ?x with _ => _ end) |- _ => destruct x
         end;
  simpl in *; intuition (subst; auto).

Ltac adj_nodup :=
  let u := fresh "u" in
  intros u; simpl;
  repeat match goal with
         | |- NoDup (match ?x with _ => _ end) => destruct x
         end;
  nodup_nodes.

Lemma demo_graph_ok : well_formed demo_graph.
Proof. constructor; [nodup_nodes | adj_nodup | adj_closed]. Qed.

Lemma demo_trained : trained demo.
Proof.
  constructor; simpl; try reflexivity; [apply demo_graph_ok | nodup_nodes].
Qed.

(** A term that holds no test on real numbers. *)
Ltac no_test t :=
  lazymatch t with
  | context [Rcase_abs _] => fail
  | context [Rle_dec _ _] => fail
  | context [Req_dec_T _ _] => fail
  | context [Rlt_dec _ _] => fail
  | _ => idtac
  end.

(** Decides the tests on concrete real numbers that evaluation meets,
    innermost first. *)
Ltac decide_reals :=
  repeat match goal with
  | |- context [Rcase_abs ?a] =>
      no_test a;
      let H := fresh "H" in
      destruct (Rcase_abs a) as [H|H]; try (exfalso; lra)
  | |- context [Rle_dec ?a ?b] =>
      no_test a; no_test b;
      let H := fresh "H" in
      destruct (Rle_dec a b) as [H|H]; try (exfalso; lra)
  | |- context [Req_dec_T ?a ?b] =>
      no_test a; no_test b;
      let H := fresh "H" in
      destruct (Req_dec_T a b) as [H|H]; try (exfalso; lra)
  | |- context [Rlt_dec ?a ?b] =>
      no_test a; no_test b;
      let H := fresh "H" in
      destruct (Rlt_dec a b) as [H|H]; try (exfalso; lra)
  end.

Ltac evaluate := repeat progress (simpl; decide_reals).

(** Equality of two concrete arrays, entry by entry. *)
Ltac same_entries := repeat (f_equal; try lra; try field).

(** ** Derivative of the transition matrix *)

(** C1 (the code departs from the claim).  In the small session, with
    strengths [1/2] on all four entries and [dA[:, 0] = [1/4, 1/2, 1/4,
    1/2]], row 0 of [F] is [[0, 1/2, 1/2, 0]] and row 0 of [dF_0] is [[0,
    1/4, 1/2, 0]].  The quotient rule gives [[0, -1/16, 1/16, 0]] for row
    0 of [dQ[0]].  The builder divides by the square of the row sum of
    [dF_0] (9/16) where the rule divides by the square of the row sum of
    [F] (1), and returns [[0, -1/9, 1/9, 0]]. *)
Theorem derivative_denominator_demo :
  let A := [1 / 2; 1 / 2; 1 / 2; 1 / 2] in
  let dA := [[1 / 4]; [1 / 2]; [1 / 4]; [1 / 2]] in
  _get_transition_probability_derivative demo A dA
  = [Finite [[0; - (1 / 9); 1 / 9; 0];
             [0; 0; 0; 0]; [0; 0; 0; 0]; [0; 0; 0; 0]]]
  /\ quotient_rule_dQ demo A dA 0
     = [[0; - (1 / 16); 1 / 16; 0];
        [0; 0; 0; 0]; [0; 0; 0; 0]; [0; 0; 0; 0]].
Proof.
  cbv zeta. split.
  - unfold _get_transition_probability_derivative, dQ_m, dQ_row,
      dQ_numerator, is_zero, row_sum.
    simpl. decide_reals. simpl. same_entries.
  - unfold quotient_rule_dQ, quotient_rule_row, row_sum.
    simpl. decide_reals. same_entries.
Qed.

(** ** The primal fixed-point loop *)

Lemma converged_fst (self : SupervisedRWRecommender) (X1 X2 : vec) :
  fst (_converged self X1 X2) = Rltb (snd (_converged self X1 X2)) (epsilon self).
Proof. reflexivity. Qed.

(** The iterates unfold at the end as well: [P_{k+1}] is one step from
    [P_k]. *)
Lemma primal_iterate_S (self : SupervisedRWRecommender) (Q : matrix)
    (P : vec) (k : nat) :
  primal_iterate self Q P (S k)
  = match primal_iterate self Q P k with
    | Finite Pk => primal_step self Q Pk
    | NonFinite => NonFinite
    end.
Proof.
  revert P. induction k as [|k IH]; intros P.
  - simpl. now destruct (primal_step self Q P).
  - change (primal_iterate self Q P (S (S k)))
      with (match primal_step self Q P with
            | Finite P1 => primal_iterate self Q P1 (S k)
            | NonFinite => NonFinite
            end).
    simpl. destruct (primal_step self Q P) as [P1|]; [apply IH | reflexivity].
Qed.

Lemma primal_delta_at_S (self : SupervisedRWRecommender) (Q : matrix)
    (P P1 : vec) (k : nat) :
  primal_step self Q P = Finite P1 ->
  primal_delta_at self Q P (S k) = primal_delta_at self Q P1 k.
Proof. intros H. unfold primal_delta_at. simpl. now rewrite H. Qed.

Lemma primal_converged_at_S (self : SupervisedRWRecommender) (Q : matrix)
    (P P1 : vec) (k : nat) :
  primal_step self Q P = Finite P1 ->
  primal_converged_at self Q P (S k) = primal_converged_at self Q P1 k.
Proof.
  intros H. unfold primal_converged_at. erewrite primal_delta_at_S by exact H. reflexivity.
Qed.

(** Once [P] holds a non-finite entry the loop runs to the end without
    converging. *)
Lemma primal_loop_nonfinite (self : SupervisedRWRecommender) (Q : matrix)
    (n : nat) :
  primal_loop self Q n (LoopState NonFinite false NonFinite)
  = LoopState NonFinite false NonFinite.
Proof. induction n as [|n IH]; simpl; auto. Qed.

(** When the test first succeeds at step [k], the loop returns [P_k]. *)
Lemma primal_loop_converges (self : SupervisedRWRecommender) (Q : matrix)
    (k : nat) :
  forall (n : nat) (P : vec) (c : bool) (d : ndarray R),
  (k < n)%nat ->
  (forall j, (j < k)%nat -> primal_converged_at self Q P j = false) ->
  primal_converged_at self Q P k = true ->
  exists Pk,
    primal_iterate self Q P k = Finite Pk /\
    primal_loop self Q n (LoopState (Finite P) c d)
    = LoopState (Finite Pk) true (primal_delta_at self Q P k).
Proof.
  induction k as [|k IH]; intros n P c d Hk Hbefore Hat.
  - destruct n as [|n]; [lia|].
    exists P. split; [reflexivity|].
    unfold primal_converged_at, primal_delta_at in *. simpl in *.
    destruct (primal_step self Q P) as [P1|]; [|discriminate].
    now rewrite Hat.
  - destruct n as [|n]; [lia|].
    assert (H0 : primal_converged_at self Q P 0 = false)
      by (apply Hbefore; lia).
    destruct (primal_step self Q P) as [P1|] eqn:Hstep.
    + erewrite primal_converged_at_S in Hat by exact Hstep.
      destruct (IH n P1 false (Finite (snd (_converged self P P1))))
        as [Pk [Hit Hloop]]; [lia| |assumption|].
      { intros j Hj. erewrite <- primal_converged_at_S by exact Hstep.
        apply Hbefore. lia. }
      exists Pk. split; [simpl; now rewrite Hstep|].
      erewrite primal_delta_at_S by exact Hstep.
      simpl. rewrite Hstep.
      unfold primal_converged_at, primal_delta_at in H0. simpl in H0.
      rewrite Hstep in H0. rewrite H0. exact Hloop.
    + unfold primal_converged_at, primal_delta_at in Hat. simpl in Hat.
      rewrite Hstep in Hat. discriminate.
Qed.

(** When the test fails at every step, the loop returns the last iterate
    and leaves [converged] false. *)
Lemma primal_loop_exhausts (self : SupervisedRWRecommender) (Q : matrix)
    (n : nat) :
  forall (P : vec) (d : ndarray R),
  (forall j, (j < n)%nat -> primal_converged_at self Q P j = false) ->
  primal_loop self Q n (LoopState (Finite P) false d)
  = LoopState (primal_iterate self Q P n) false
      (match n with O => d | S n' => primal_delta_at self Q P n' end).
Proof.
  induction n as [|n IH]; intros P d Hnever; [reflexivity|].
  assert (H0 : primal_converged_at self Q P 0 = false) by (apply Hnever; lia).
  simpl. destruct (primal_step self Q P) as [P1|] eqn:Hstep.
  - unfold primal_converged_at, primal_delta_at in H0. simpl in H0.
    rewrite Hstep in H0. rewrite H0.
    rewrite IH.
    + f_equal. destruct n as [|n'].
      * unfold primal_delta_at. simpl. now rewrite Hstep.
      * now erewrite primal_delta_at_S by exact Hstep.
    + intros j Hj. erewrite <- primal_converged_at_S by exact Hstep.
      apply Hnever. lia.
  - rewrite primal_loop_nonfinite. f_equal.
    destruct n as [|n']; unfold primal_delta_at; simpl; now rewrite Hstep.
Qed.

(** ** The derivative fixed-point loop *)

Lemma derivative_iterate_S (self : SupervisedRWRecommender)
    (P : vec) (Q dQm : matrix) (dP : vec) (k : nat) :
  derivative_iterate self P Q dQm dP (S k)
  = derivative_step (N self) P Q dQm (derivative_iterate self P Q dQm dP k).
Proof.
  revert dP. induction k as [|k IH]; intros dP; [reflexivity|].
  change (derivative_iterate self P Q dQm dP (S (S k)))
    with (derivative_iterate self P Q dQm
            (derivative_step (N self) P Q dQm dP) (S k)).
  rewrite IH. reflexivity.
Qed.

Lemma derivative_loop_converges (self : SupervisedRWRecommender)
    (P : vec) (Q dQm : matrix) (k : nat) :
  forall (n : nat) (dP : vec) (c : bool) (d : R),
  (k < n)%nat ->
  (forall j, (j < k)%nat ->
     derivative_converged_at self P Q dQm dP j = false) ->
  derivative_converged_at self P Q dQm dP k = true ->
  derivative_loop self P Q dQm n (DLoopState dP c d)
  = DLoopState (derivative_iterate self P Q dQm dP k) true
      (derivative_delta_at self P Q dQm dP k).
Proof.
  induction k as [|k IH]; intros n dP c d Hk Hbefore Hat;
    (destruct n as [|n]; [lia|]).
  - unfold derivative_converged_at, derivative_delta_at in *.
    simpl in *. now rewrite Hat.
  - assert (H0 : derivative_converged_at self P Q dQm dP 0 = false)
      by (apply Hbefore; lia).
    unfold derivative_converged_at, derivative_delta_at in H0.
    simpl in *. rewrite H0.
    apply IH; [lia| |exact Hat].
    intros j Hj. apply (Hbefore (S j)). lia.
Qed.

Lemma derivative_loop_exhausts (self : SupervisedRWRecommender)
    (P : vec) (Q dQm : matrix) (n : nat) :
  forall (dP : vec) (d : R),
  (forall j, (j < n)%nat ->
     derivative_converged_at self P Q dQm dP j = false) ->
  derivative_loop self P Q dQm n (DLoopState dP false d)
  = DLoopState (derivative_iterate self P Q dQm dP n) false
      (match n with
       | O => d
       | S n' => derivative_delta_at self P Q dQm dP n'
       end).
Proof.
  induction n as [|n IH]; intros dP d Hnever; [reflexivity|].
  assert (H0 : derivative_converged_at self P Q dQm dP 0 = false)
    by (apply Hnever; lia).
  unfold derivative_converged_at, derivative_delta_at in H0.
  simpl in *. rewrite H0. rewrite IH.
  - f_equal. now destruct n.
  - intros j Hj. apply (Hnever (S j)). lia.
Qed.

Lemma length_derivative_loop (self : SupervisedRWRecommender)
    (P : vec) (Q dQm : matrix) (n : nat) :
  forall st, length (ds_dP st) = N self ->
  length (ds_dP (derivative_loop self P Q dQm n st)) = N self.
Proof.
  induction n as [|n IH]; intros st Hst; [assumption|].
  simpl. destruct (Rltb _ _); [assumption|].
  apply IH. simpl. apply length_build.
Qed.

(** Column [m] of the array [dP] is the outcome of the loop of feature
    [m]. *)
Lemma derivative_solver_column (self : SupervisedRWRecommender)
    (P : vec) (Q : matrix) (dQ : list matrix) (m : nat) :
  (m < M self)%nat ->
  column m (fst (_get_stationary_distribution_derivative self P Q dQ))
  = fst (derivative_column self P Q (nth m dQ [])).
Proof.
  intros Hm. unfold _get_stationary_distribution_derivative, column.
  cbn [fst]. rewrite map_map.
  set (cols := map (fun m0 => derivative_column self P Q (nth m0 dQ []))
                   (seq 0 (M self))).
  assert (Hcol : nth m cols ([], []) = derivative_column self P Q (nth m dQ [])).
  { unfold cols. rewrite (nth_map_lt _ _ _ _ O) by now rewrite length_seq.
    now rewrite seq_nth. }
  assert (Hlen : length (fst (derivative_column self P Q (nth m dQ []))) = N self).
  { unfold derivative_column. cbn [fst]. apply length_derivative_loop.
    simpl. apply repeat_length. }
  rewrite <- Hcol in *.
  transitivity (map (fun i => vget (fst (nth m cols ([], []))) i)
                    (seq 0 (N self))).
  - apply map_ext_in. intros i _.
    rewrite (nth_map_lt _ _ _ _ ([], [])); [reflexivity|].
    unfold cols. now rewrite length_map, length_seq.
  - rewrite <- Hlen. generalize (fst (nth m cols ([], []))). intros v.
    clear. unfold vget.
    induction v as [|x v IH]; [reflexivity|].
    simpl. f_equal. rewrite <- seq_shift, map_map. exact IH.
Qed.

(** ** The stationary distribution is a probability vector *)

Lemma uniform_stochastic (self : SupervisedRWRecommender) :
  (0 < N self)%nat -> stochastic (N self) (uniform self).
Proof.
  intros HN. unfold stochastic, uniform.
  assert (0 < INR (N self)) by now apply lt_0_INR.
  split; [apply repeat_length|]. split.
  - apply Forall_forall. intros x Hx. apply repeat_spec in Hx. subst x.
    apply Rlt_le, Rdiv_lt_0_compat; lra.
  - rewrite vsum_repeat. field. lra.
Qed.

Lemma walkable_entry (n : nat) (Q : matrix) (i j : nat) :
  walkable n Q -> 0 <= mget Q i j.
Proof.
  intros [_ [Hpos _]]. unfold mget.
  destruct (Nat.lt_ge_cases i (length Q)) as [Hi|Hi].
  - assert (Hr : Forall (fun x => 0 <= x) (nth i Q []))
      by (rewrite Forall_forall in Hpos; now apply Hpos, nth_In).
    destruct (Nat.lt_ge_cases j (length (nth i Q []))) as [Hj|Hj].
    + rewrite Forall_forall in Hr. now apply Hr, nth_In.
    + rewrite nth_overflow by assumption. lra.
  - rewrite (nth_overflow Q) by assumption. destruct j; simpl; lra.
Qed.

Lemma walkable_row (n : nat) (Q : matrix) (i : nat) :
  walkable n Q -> (i < n)%nat -> 0 < sum_upto n (fun j => mget Q i j).
Proof.
  intros [[Hlen Hsq] [_ Hrow]] Hi.
  assert (Hin : In (nth i Q []) Q) by (apply nth_In; lia).
  rewrite Forall_forall in Hsq, Hrow.
  specialize (Hsq _ Hin). specialize (Hrow _ Hin).
  unfold row_sum in Hrow. rewrite vsum_sum_upto, Hsq in Hrow. exact Hrow.
Qed.

(** The mass that one step moves: the sum of [Q^T P] weighs the row sums
    of [Q] by [P]. *)
Lemma Qt_dot_sum (n : nat) (Q : matrix) (P : vec) :
  vsum (Qt_dot n Q P)
  = sum_upto n (fun i => vget P i * sum_upto n (fun j => mget Q i j)).
Proof.
  unfold Qt_dot. rewrite vsum_build, sum_upto_swap.
  apply sum_upto_ext. intros i _. rewrite <- sum_upto_scal.
  apply sum_upto_ext. intros j _. lra.
Qed.

Lemma stochastic_entry (n : nat) (P : vec) (i : nat) :
  stochastic n P -> 0 <= vget P i.
Proof.
  intros [_ [Hpos _]]. unfold vget.
  destruct (Nat.lt_ge_cases i (length P)) as [Hi|Hi].
  - rewrite Forall_forall in Hpos. now apply Hpos, nth_In.
  - rewrite nth_overflow by assumption. lra.
Qed.

Lemma Qt_dot_sum_pos (n : nat) (Q : matrix) (P : vec) :
  walkable n Q -> stochastic n P -> 0 < vsum (Qt_dot n Q P).
Proof.
  intros HQ HP. rewrite Qt_dot_sum.
  set (f := fun i => vget P i * sum_upto n (fun j => mget Q i j)).
  assert (Hf : forall i, (i < n)%nat -> 0 <= f i).
  { intros i Hi. unfold f. apply Rmult_le_pos.
    - eapply stochastic_entry; eassumption.
    - apply Rlt_le. now apply walkable_row. }
  destruct (Rle_lt_or_eq_dec 0 (sum_upto n f) (sum_upto_nonneg n f Hf))
    as [Hlt|Heq]; [assumption|exfalso].
  assert (Hzero : forall i, (i < n)%nat -> vget P i = 0).
  { intros i Hi.
    pose proof (sum_upto_term_le n f i Hf Hi) as Hle.
    pose proof (Hf i Hi) as Hge. rewrite <- Heq in Hle.
    assert (Hfi : f i = 0) by lra. unfold f in Hfi.
    pose proof (walkable_row n Q i HQ Hi) as Hr.
    apply Rmult_integral in Hfi. destruct Hfi; lra. }
  destruct HP as [Hlen [_ Hsum]].
  rewrite vsum_sum_upto, Hlen, (sum_upto_zero _ _ Hzero) in Hsum. lra.
Qed.

(** One step from a probability vector, along a walkable matrix, is a
    probability vector again. *)
Lemma primal_step_stochastic (self : SupervisedRWRecommender) (Q : matrix)
    (P : vec) :
  walkable (N self) Q -> stochastic (N self) P ->
  exists P1, primal_step self Q P = Finite P1 /\ stochastic (N self) P1.
Proof.
  intros HQ HP. unfold primal_step.
  pose proof (Qt_dot_sum_pos _ _ _ HQ HP) as Hs.
  destruct (Req_dec_T (vsum (Qt_dot (N self) Q P)) 0) as [Hz|Hnz]; [lra|].
  eexists. split; [reflexivity|].
  split; [|split].
  - unfold Qt_dot. now rewrite length_map, length_build.
  - apply Forall_forall. intros x Hx. apply in_map_iff in Hx.
    destruct Hx as [y [<- Hy]].
    unfold Qt_dot, build in Hy. apply in_map_iff in Hy.
    destruct Hy as [j [<- _]].
    apply Rmult_le_pos; [|apply Rlt_le, Rinv_0_lt_compat; lra].
    apply sum_upto_nonneg. intros i _. apply Rmult_le_pos.
    + eapply walkable_entry; eassumption.
    + eapply stochastic_entry; eassumption.
  - rewrite vsum_map_div. now apply Rdiv_diag.
Qed.

Lemma primal_loop_stochastic (self : SupervisedRWRecommender) (Q : matrix)
    (n : nat) :
  walkable (N self) Q ->
  forall (P : vec) (c : bool) (d : ndarray R),
  stochastic (N self) P ->
  exists P',
    ls_P (primal_loop self Q n (LoopState (Finite P) c d)) = Finite P'
    /\ stochastic (N self) P'.
Proof.
  intros HQ. induction n as [|n IH]; intros P c d HP.
  - exists P. split; [reflexivity | assumption].
  - destruct (primal_step_stochastic self Q P HQ HP) as [P1 [Hstep HP1]].
    simpl. rewrite Hstep.
    destruct (Rltb _ _).
    + exists P. split; [reflexivity | assumption].
    + now apply IH.
Qed.

(** C5, as amended.  For a matrix without negative entries in which every
    row has a positive sum, and a positive number of nodes, the solver
    returns a finite vector that sums to 1, for every number of steps and
    every tolerance, converged or not. *)
Theorem stationary_distribution_sums_to_one
    (self : SupervisedRWRecommender) (Q : matrix) :
  (0 < N self)%nat -> walkable (N self) Q ->
  exists P log,
    _get_stationary_distribution self Q = Ok (Finite P, log)
    /\ vsum P = 1.
Proof.
  intros HN HQ. unfold _get_stationary_distribution.
  destruct (N self) as [|n] eqn:HNeq; [lia|]. rewrite <- HNeq in *.
  destruct (primal_loop_stochastic self Q (max_steps self) HQ (uniform self)
              false (Finite 0) (uniform_stochastic self HN))
    as [P [HP [_ [_ Hsum]]]].
  exists P. eexists. rewrite HP. split; [reflexivity | exact Hsum].
Qed.

(** Evaluation of the tests of the loops on concrete arrays. *)
Lemma Rltb_true (x y : R) : x < y -> Rltb x y = true.
Proof. intros H. unfold Rltb. now destruct (Rlt_dec x y). Qed.

Lemma Rltb_false (x y : R) : y <= x -> Rltb x y = false.
Proof. intros H. unfold Rltb. destruct (Rlt_dec x y); [lra | reflexivity]. Qed.

Lemma converged_eval (self : SupervisedRWRecommender) (X1 X2 : vec) (d : R) :
  vmax (map Rabs (vsub X2 X1)) = d ->
  _converged self X1 X2 = (Rltb d (epsilon self), d).
Proof. intros <-. reflexivity. Qed.

(** The maximal change between two concrete arrays. *)
Ltac eval_delta :=
  unfold vmax, vsub; simpl; unfold Rmax, Rabs; decide_reals; lra.

(** One concrete step of a loop. *)
Ltac eval_step :=
  unfold primal_step, derivative_step, Qt_dot, sum_upto, build, mget, vget;
  simpl; decide_reals; same_entries.

(** C5 (the claim as stated fails).  In the directed session the
    transition matrix has no negative entry and a zero row; the second
    product [Q^T P] is the zero vector, its normalization divides by
    zero, and the vector returned holds [nan]: it does not sum to 1. *)
Lemma stationary_distribution_zero_row :
  _get_transition_probability follow_demo [1 / 2] 0 = [[0; 1]; [0; 0]]
  /\ Forall (Forall (fun x => 0 <= x)) [[0; 1]; [0; 0]]
  /\ _get_stationary_distribution follow_demo [[0; 1]; [0; 0]]
     = Ok (NonFinite, [Warning Primal 2 NonFinite]).
Proof.
  split; [|split].
  - unfold _get_transition_probability, normalize_l1_row. simpl.
    unfold Rabs, build. evaluate; same_entries.
  - repeat constructor; lra.
  - set (Q := [[0; 1]; [0; 0]]).
    assert (H0 : uniform follow_demo = [1 / 2; 1 / 2])
      by (unfold uniform; simpl; same_entries).
    assert (H1 : primal_step follow_demo Q [1 / 2; 1 / 2] = Finite [0; 1])
      by eval_step.
    assert (H2 : _converged follow_demo [1 / 2; 1 / 2] [0; 1]
                 = (false, 1 / 2)).
    { rewrite (converged_eval follow_demo _ _ (1 / 2)) by eval_delta.
      rewrite Rltb_false by (simpl; lra). reflexivity. }
    assert (H3 : primal_step follow_demo Q [0; 1] = NonFinite) by eval_step.
    unfold _get_stationary_distribution.
    change (N follow_demo) with 2%nat.
    change (max_steps follow_demo) with 2%nat.
    rewrite H0. cbn [primal_loop ls_P]. rewrite H1, H2.
    cbn [primal_loop ls_P]. rewrite H3. reflexivity.
Qed.

(** ** What the loops return *)

(** The loop always returns one of the iterates. *)
Lemma primal_loop_iterate (self : SupervisedRWRecommender) (Q : matrix)
    (n : nat) :
  forall (P : vec) (c : bool) (d : ndarray R),
  exists k, (k <= n)%nat /\
    ls_P (primal_loop self Q n (LoopState (Finite P) c d))
    = primal_iterate self Q P k.
Proof.
  induction n as [|n IH]; intros P c d.
  - exists O. split; [lia | reflexivity].
  - simpl. destruct (primal_step self Q P) as [P1|] eqn:Hstep.
    + destruct (Rltb _ _).
      * exists O. split; [lia | reflexivity].
      * destruct (IH P1 false
                    (Finite (snd (_converged self P P1)))) as [k [Hk Hit]].
        exists (S k). split; [lia|]. simpl. rewrite Hstep. exact Hit.
    + exists 1%nat. split; [lia|].
      rewrite primal_loop_nonfinite. simpl. now rewrite Hstep.
Qed.



(** ** The ranking loss *)

Lemma build_ext (n : nat) (f g : nat -> R) :
  (forall i, (i < n)%nat -> f i = g i) -> build n f = build n g.
Proof.
  intros H. unfold build. apply map_ext_in. intros i Hi.
  apply in_seq in Hi. apply H. lia.
Qed.

Lemma combine_map_same {A B C : Type} (f : A -> B) (g : A -> C) (l : list A) :
  combine (map f l) (map g l) = map (fun x => (f x, g x)) l.
Proof. induction l as [|x l IH]; simpl; [reflexivity | now rewrite IH]. Qed.

Lemma vget_vsub (a b : vec) (m : nat) :
  length a = length b -> vget (vsub a b) m = vget a m - vget b m.
Proof.
  intros Hlen. unfold vget, vsub.
  destruct (Nat.lt_ge_cases m (length a)) as [Hm|Hm].
  - rewrite (nth_map_lt _ _ _ _ (0, 0)) by (rewrite length_combine; lia).
    now rewrite combine_nth.
  - rewrite !nth_overflow; try lia; [lra|].
    rewrite length_map, length_combine. lia.
Qed.

(** The rows of [dP] have equal lengths, one entry per feature. *)
Lemma derivative_solver_rows (self : SupervisedRWRecommender)
    (P : vec) (Q : matrix) (dQ : list matrix) (u : nat) :
  (u < N self)%nat ->
  length (nth u (fst (_get_stationary_distribution_derivative self P Q dQ)) [])
  = M self.
Proof.
  intros Hu. unfold _get_stationary_distribution_derivative. cbn [fst].
  rewrite (nth_map_lt _ _ _ _ O) by now rewrite length_seq.
  now rewrite !length_map, length_seq.
Qed.

(** [_loss_function] on a walk whose [P] and [dQ] are finite. *)
Lemma loss_function_finite (self : SupervisedRWRecommender) (w : vec)
    (root : nat) (pairs : list (nat * nat)) (P : vec)
    (log : list diagnostic) (dQ : list matrix) :
  let A := fst (_get_edge_strength self w) in
  let dA := snd (_get_edge_strength self w) in
  let Q := _get_transition_probability self A root in
  _get_stationary_distribution self Q = Ok (Finite P, log) ->
  all_finite (_get_transition_probability_derivative self A dA) = Finite dQ ->
  pairs = [] \/ loss_width self <> 0 ->
  _loss_function self w root pairs
  = Ok (Finite (loss_of self w pairs P
                  (fst (_get_stationary_distribution_derivative self P Q dQ)))).
Proof.
  intros A dA Q HP HdQ Hw. unfold _loss_function.
  destruct (_get_edge_strength self w) as [A' dA'] eqn:HA.
  cbn [fst snd] in *. subst A dA Q. rewrite HP, HdQ.
  destruct pairs as [|p pairs]; [reflexivity|].
  destruct Hw as [Hw|Hw]; [discriminate|].
  destruct (Req_dec_T (loss_width self) 0); [contradiction | reflexivity].
Qed.

(** Lines 144-152 compute the objective of section 4.4 and the gradient
    of the chain rule. *)
Lemma loss_of_chain_rule (self : SupervisedRWRecommender) (w : vec)
    (pairs : list (nat * nat)) (P : vec) (dP : list vec) :
  (forall u v, In (u, v) pairs ->
     length (nth u dP []) = length (nth v dP [])) ->
  loss_of self w pairs P dP
  = (objective_of self w pairs P, chain_rule_gradient self w pairs P dP).
Proof.
  intros Hrows. unfold loss_of, objective_of, chain_rule_gradient.
  f_equal.
  - now rewrite map_map.
  - apply build_ext. intros m _. f_equal. rewrite Rmult_comm. f_equal.
    unfold einsum_i_im. rewrite !map_map, combine_map_same, map_map.
    f_equal. apply map_ext_in. intros [u v] Huv. cbn [fst snd].
    rewrite vget_vsub by now apply Hrows.
    unfold logistic', mget, vget. reflexivity.
Qed.

(** C3, as amended.  When the walk is finite, the loss function returns
    the objective [|w|^2 + lambda * sum_pairs logistic((P[u] - P[v]) /
    width)] and the gradient [2w + lambda * sum_pairs logistic'((P[u] -
    P[v]) / width) / width * (dP[u, :] - dP[v, :])], where [P] and [dP]
    are what the two solvers return at [w]. *)
Theorem loss_objective_and_gradient (self : SupervisedRWRecommender)
    (w : vec) (root : nat) (pairs : list (nat * nat)) (P : vec)
    (log : list diagnostic) (dQ : list matrix) :
  let A := fst (_get_edge_strength self w) in
  let dA := snd (_get_edge_strength self w) in
  let Q := _get_transition_probability self A root in
  let dP := fst (_get_stationary_distribution_derivative self P Q dQ) in
  _get_stationary_distribution self Q = Ok (Finite P, log) ->
  all_finite (_get_transition_probability_derivative self A dA) = Finite dQ ->
  pairs = [] \/ loss_width self <> 0 ->
  Forall (fun uv => (fst uv < N self)%nat /\ (snd uv < N self)%nat) pairs ->
  _loss_function self w root pairs
  = Ok (Finite (objective_of self w pairs P,
                chain_rule_gradient self w pairs P dP)).
Proof.
  intros A dA Q dP HP HdQ Hw Hpairs.
  rewrite (loss_function_finite self w root pairs P log dQ HP HdQ Hw).
  fold A Q dP. rewrite loss_of_chain_rule; [reflexivity|].
  intros u v Huv. rewrite Forall_forall in Hpairs.
  destruct (Hpairs _ Huv) as [Hu Hv]. cbn [fst snd] in *.
  unfold dP. now rewrite !derivative_solver_rows.
Qed.

(** ** The small session, step by step *)

Lemma sigmoid_0 : sigmoid 0 = 1 / 2.
Proof. unfold sigmoid. rewrite Ropp_0, exp_0. lra. Qed.

Lemma demo_edge_strength :
  _get_edge_strength demo [0]
  = ([1 / 2; 1 / 2; 1 / 2; 1 / 2], [[1 / 4]; [1 / 2]; [1 / 4]; [1 / 2]]).
Proof.
  unfold _get_edge_strength. simpl.
  replace (1 * 0 + 0) with 0 by lra. replace (2 * 0 + 0) with 0 by lra.
  rewrite sigmoid_0. same_entries.
Qed.

Lemma demo_transition :
  _get_transition_probability demo [1 / 2; 1 / 2; 1 / 2; 1 / 2] 0
  = [[1 / 2; 1 / 4; 1 / 4; 0]; [1; 0; 0; 0]; [1; 0; 0; 0]; [1 / 2; 0; 0; 0]].
Proof.
  unfold _get_transition_probability, normalize_l1_row. simpl.
  unfold Rabs, build. evaluate; same_entries.
Qed.

Lemma demo_transition_derivative :
  _get_transition_probability_derivative demo
    [1 / 2; 1 / 2; 1 / 2; 1 / 2] [[1 / 4]; [1 / 2]; [1 / 4]; [1 / 2]]
  = [Finite [[0; - (1 / 9); 1 / 9; 0];
             [0; 0; 0; 0]; [0; 0; 0; 0]; [0; 0; 0; 0]]].
Proof.
  unfold _get_transition_probability_derivative, dQ_m, dQ_row,
    dQ_numerator, is_zero, row_sum.
  simpl. decide_reals. simpl. same_entries.
Qed.

Lemma demo_stationary :
  _get_stationary_distribution demo
    [[1 / 2; 1 / 4; 1 / 4; 0]; [1; 0; 0; 0]; [1; 0; 0; 0]; [1 / 2; 0; 0; 0]]
  = Ok (Finite [6 / 7; 1 / 14; 1 / 14; 0],
        [Warning Primal 1 (Finite (17 / 28))]).
Proof.
  set (Q := [[1 / 2; 1 / 4; 1 / 4; 0]; [1; 0; 0; 0]; [1; 0; 0; 0];
             [1 / 2; 0; 0; 0]]).
  assert (H0 : uniform demo = [1 / 4; 1 / 4; 1 / 4; 1 / 4])
    by (unfold uniform; simpl; same_entries).
  assert (H1 : primal_step demo Q [1 / 4; 1 / 4; 1 / 4; 1 / 4]
               = Finite [6 / 7; 1 / 14; 1 / 14; 0]) by eval_step.
  assert (H2 : _converged demo [1 / 4; 1 / 4; 1 / 4; 1 / 4]
                 [6 / 7; 1 / 14; 1 / 14; 0] = (false, 17 / 28)).
  { rewrite (converged_eval demo _ _ (17 / 28)) by eval_delta.
    rewrite Rltb_false by (simpl; lra). reflexivity. }
  unfold _get_stationary_distribution.
  change (N demo) with 4%nat. change (max_steps demo) with 1%nat.
  rewrite H0. cbn [primal_loop ls_P]. rewrite H1, H2. reflexivity.
Qed.

Lemma demo_stationary_derivative :
  _get_stationary_distribution_derivative demo
    [6 / 7; 1 / 14; 1 / 14; 0]
    [[1 / 2; 1 / 4; 1 / 4; 0]; [1; 0; 0; 0]; [1; 0; 0; 0]; [1 / 2; 0; 0; 0]]
    [[[0; - (1 / 9); 1 / 9; 0]; [0; 0; 0; 0]; [0; 0; 0; 0]; [0; 0; 0; 0]]]
  = ([[0]; [- (2 / 21)]; [2 / 21]; [0]],
     [Warning Derivative 1 (Finite (2 / 21))]).
Proof.
  set (P := [6 / 7; 1 / 14; 1 / 14; 0]).
  set (Q := [[1 / 2; 1 / 4; 1 / 4; 0]; [1; 0; 0; 0]; [1; 0; 0; 0];
             [1 / 2; 0; 0; 0]]).
  set (dQ0 := [[0; - (1 / 9); 1 / 9; 0]; [0; 0; 0; 0]; [0; 0; 0; 0];
               [0; 0; 0; 0]]).
  assert (H1 : derivative_step 4 P Q dQ0 [0; 0; 0; 0]
               = [0; - (2 / 21); 2 / 21; 0]) by eval_step.
  assert (H2 : _converged demo [0; 0; 0; 0] [0; - (2 / 21); 2 / 21; 0]
               = (false, 2 / 21)).
  { rewrite (converged_eval demo _ _ (2 / 21)) by eval_delta.
    rewrite Rltb_false by (simpl; lra). reflexivity. }
  assert (H3 : derivative_column demo P Q dQ0
               = ([0; - (2 / 21); 2 / 21; 0],
                  [Warning Derivative 1 (Finite (2 / 21))])).
  { unfold derivative_column.
    change (N demo) with 4%nat. change (max_steps demo) with 1%nat.
    cbn [repeat derivative_loop ds_dP]. change (N demo) with 4%nat.
    rewrite H1, H2. reflexivity. }
  unfold _get_stationary_distribution_derivative.
  change (N demo) with 4%nat. change (M demo) with 1%nat.
  cbn [seq map nth]. rewrite H3. reflexivity.
Qed.

Lemma logistic'_pos (x : R) : 0 < logistic' x.
Proof.
  unfold logistic'. pose proof (sigmoid_bounds x) as [H0 H1].
  apply Rmult_lt_0_compat; lra.
Qed.

(** The walk of the small session at [w = [0]], rooted at the user. *)
Lemma demo_walk :
  let A := fst (_get_edge_strength demo [0]) in
  let dA := snd (_get_edge_strength demo [0]) in
  let Q := _get_transition_probability demo A 0 in
  let P := [6 / 7; 1 / 14; 1 / 14; 0] in
  let dQ := [[[0; - (1 / 9); 1 / 9; 0];
              [0; 0; 0; 0]; [0; 0; 0; 0]; [0; 0; 0; 0]]] in
  _get_stationary_distribution demo Q
  = Ok (Finite P, [Warning Primal 1 (Finite (17 / 28))])
  /\ all_finite (_get_transition_probability_derivative demo A dA) = Finite dQ
  /\ fst (_get_stationary_distribution_derivative demo P Q dQ)
     = [[0]; [- (2 / 21)]; [2 / 21]; [0]].
Proof.
  cbv zeta. rewrite demo_edge_strength. cbn [fst snd].
  rewrite demo_transition, demo_stationary, demo_transition_derivative,
    demo_stationary_derivative.
  repeat split.
Qed.

(** C3 (the claim as stated fails).  In the small session, with [w =
    [0]], the user as root and the pair (repository 2, repository 0), the
    width is 2: the gradient returned carries the factor [1 / width] of
    the chain rule, which the gradient of the claim leaves out. *)
Lemma loss_gradient_carries_width :
  let P := [6 / 7; 1 / 14; 1 / 14; 0] in
  let dP := [[0]; [- (2 / 21)]; [2 / 21]; [0]] in
  let x := (0 - 1 / 14) / 2 in
  _loss_function demo [0] 0 [(3, 1)%nat]
  = Ok (Finite (objective_of demo [0] [(3, 1)%nat] P,
                [logistic' x / 2 * (2 / 21)]))
  /\ claimed_gradient demo [0] [(3, 1)%nat] P dP = [logistic' x * (2 / 21)]
  /\ logistic' x / 2 * (2 / 21) < logistic' x * (2 / 21).
Proof.
  cbv zeta. destruct demo_walk as [HP [HdQ HdP]].
  split; [|split].
  - rewrite (loss_function_finite demo [0] 0 [(3, 1)%nat] _ _ _ HP HdQ)
      by (right; simpl; lra).
    rewrite HdP. unfold loss_of, objective_of, logistic', einsum_i_im, build.
    unfold vget, vsub. simpl. do 4 f_equal. field.
  - unfold claimed_gradient, logistic', build, mget, vget. simpl.
    f_equal. field.
  - pose proof (logistic'_pos ((0 - 1 / 14) / 2)). lra.
Qed.

(** The walk of the small session is in the domain of the amended
    claim. *)
Lemma loss_objective_and_gradient_demo :
  _loss_function demo [0] 0 [(3, 1)%nat]
  = Ok (Finite
          (objective_of demo [0] [(3, 1)%nat] [6 / 7; 1 / 14; 1 / 14; 0],
           chain_rule_gradient demo [0] [(3, 1)%nat]
             [6 / 7; 1 / 14; 1 / 14; 0]
             (fst (_get_stationary_distribution_derivative demo
                     [6 / 7; 1 / 14; 1 / 14; 0]
                     (_get_transition_probability demo
                        (fst (_get_edge_strength demo [0])) 0)
                     [[[0; - (1 / 9); 1 / 9; 0];
                       [0; 0; 0; 0]; [0; 0; 0; 0]; [0; 0; 0; 0]]])))).
Proof.
  destruct demo_walk as [HP [HdQ _]].
  apply (loss_objective_and_gradient demo [0] 0 [(3, 1)%nat] _ _ _ HP HdQ).
  - right. simpl. lra.
  - repeat constructor; simpl; lia.
Defined.

(** ** Computations that call the libraries *)

Lemma returns_bind {A B : Type} (p : prog A) (k : A -> prog B) (b : B) :
  returns (bind p k) b <-> exists a, returns p a /\ returns (k a) b.
Proof.
  induction p as [a|e|pop n cont IH|m cont IH|f x0 cont IH]; simpl.
  - split.
    + intros H. exists a. split; [constructor | exact H].
    + intros [a' [Ha Hb]]. inversion Ha; subst. exact Hb.
  - split.
    + intros H. inversion H.
    + intros [a [Ha _]]. inversion Ha.
  - split.
    + intros H. inversion H as [|? ? ? s ? Hs Hr| |]; subst.
      apply IH in Hr. destruct Hr as [a [Ha Hb]].
      exists a. split; [econstructor; eassumption | exact Hb].
    + intros [a [Ha Hb]]. inversion Ha as [|? ? ? s ? Hs Hr| |]; subst.
      econstructor; [exact Hs|]. apply IH. eauto.
  - split.
    + intros H. inversion H as [| |? ? w ? Hw Hr|]; subst.
      apply IH in Hr. destruct Hr as [a [Ha Hb]].
      exists a. split; [econstructor; eauto | exact Hb].
    + intros [a [Ha Hb]]. inversion Ha as [| |? ? w ? Hw Hr|]; subst.
      econstructor; [reflexivity|]. apply IH. eauto.
  - split.
    + intros H. inversion H as [| | |? ? ? w ? Hw Hr]; subst.
      apply IH in Hr. destruct Hr as [a [Ha Hb]].
      exists a. split; [econstructor; eauto | exact Hb].
    + intros [a [Ha Hb]]. inversion Ha as [| | |? ? ? w ? Hw Hr]; subst.
      econstructor; [exact Hw|]. apply IH. eauto.
Qed.

Lemma raises_bind {A B : Type} (p : prog A) (k : A -> prog B) (e : exn) :
  raises (bind p k) e
  <-> raises p e \/ exists a, returns p a /\ raises (k a) e.
Proof.
  induction p as [a|e'|pop n cont IH|m cont IH|f x0 cont IH]; simpl.
  - split.
    + intros H. right. exists a. split; [constructor | exact H].
    + intros [H|[a' [Ha Hb]]]; [inversion H|].
      inversion Ha; subst. exact Hb.
  - split.
    + intros H. inversion H; subst. left. constructor.
    + intros [H|[a [Ha _]]]; [|inversion Ha].
      inversion H; subst. constructor.
  - split.
    + intros H. inversion H as [|? ? ? s ? Hs Hr| |]; subst.
      apply IH in Hr. destruct Hr as [Hr|[a [Ha Hb]]].
      * left. econstructor; eassumption.
      * right. exists a. split; [econstructor; eassumption | exact Hb].
    + intros [H|[a [Ha Hb]]].
      * inversion H as [|? ? ? s ? Hs Hr| |]; subst.
        econstructor; [exact Hs|]. apply IH. now left.
      * inversion Ha as [|? ? ? s ? Hs Hr| |]; subst.
        econstructor; [exact Hs|]. apply IH. right. eauto.
  - split.
    + intros H. inversion H as [| |? ? w ? Hw Hr|]; subst.
      apply IH in Hr. destruct Hr as [Hr|[a [Ha Hb]]].
      * left. econstructor; eauto.
      * right. exists a. split; [econstructor; eauto | exact Hb].
    + intros [H|[a [Ha Hb]]].
      * inversion H as [| |? ? w ? Hw Hr|]; subst.
        econstructor; [reflexivity|]. apply IH. now left.
      * inversion Ha as [| |? ? w ? Hw Hr|]; subst.
        econstructor; [reflexivity|]. apply IH. right. eauto.
  - split.
    + intros H. inversion H as [| | |? ? ? w ? Hw Hr]; subst.
      apply IH in Hr. destruct Hr as [Hr|[a [Ha Hb]]].
      * left. econstructor; eauto.
      * right. exists a. split; [econstructor; eauto | exact Hb].
    + intros [H|[a [Ha Hb]]].
      * inversion H as [| | |? ? ? w ? Hw Hr]; subst.
        econstructor; [exact Hw|]. apply IH. now left.
      * inversion Ha as [| | |? ? ? w ? Hw Hr]; subst.
        econstructor; [exact Hw|]. apply IH. right. eauto.
Qed.

Lemma returns_Ret_eq {A : Type} (a b : A) : returns (Ret a) b -> b = a.
Proof. intros H. inversion H. reflexivity. Qed.

Lemma returns_lift {A : Type} (r : result A) (a : A) :
  returns (lift r) a <-> r = Ok a.
Proof.
  destruct r as [a'|e]; simpl; split; intros H.
  - inversion H. reflexivity.
  - injection H as ->. constructor.
  - inversion H.
  - discriminate.
Qed.

Lemma raises_lift {A : Type} (r : result A) (e : exn) :
  raises (lift r) e <-> r = Raise e.
Proof.
  destruct r as [a|e']; simpl; split; intros H.
  - inversion H.
  - discriminate.
  - inversion H. reflexivity.
  - injection H as ->. constructor.
Qed.

(** ** Node indices *)

Lemma index_of_In (x : node) (l : list node) :
  In x l -> exists i, index_of x l = Some i.
Proof.
  induction l as [|y l IH]; intros H; [contradiction|].
  simpl. destruct (node_eq_dec x y) as [|Hne]; [eauto|].
  destruct H as [H|H]; [congruence|].
  destruct (IH H) as [i ->]. eauto.
Qed.

Lemma index_of_nth (x : node) (l : list node) (i : nat) :
  index_of x l = Some i -> (i < length l)%nat /\ nth_error l i = Some x.
Proof.
  revert i. induction l as [|y l IH]; intros i H; [discriminate|].
  simpl in H. destruct (node_eq_dec x y) as [->|Hne].
  - injection H as <-. simpl. split; [lia | reflexivity].
  - destruct (index_of x l) as [j|]; [|discriminate].
    injection H as <-. destruct (IH j eq_refl) as [Hj Hn].
    simpl. split; [lia | exact Hn].
Qed.

Lemma index_of_inj (x y : node) (l : list node) (i : nat) :
  index_of x l = Some i -> index_of y l = Some i -> x = y.
Proof.
  intros Hx Hy. apply index_of_nth in Hx, Hy.
  destruct Hx as [_ Hx]. destruct Hy as [_ Hy]. congruence.
Qed.

Lemma indices_of_total (nodes l : list node) :
  incl l nodes -> exists r, indices_of nodes l = Ok r.
Proof.
  induction l as [|x l IH]; intros Hl; [now exists []|].
  destruct (index_of_In x nodes) as [i Hi]; [apply Hl; now left|].
  destruct IH as [r Hr]; [intros y Hy; apply Hl; now right|].
  exists (i :: r). simpl. now rewrite Hi, Hr.
Qed.

(** The indices of a list of nodes: one per node, each the position of
    its node. *)
Lemma indices_of_spec (nodes l : list node) (r : list nat) :
  indices_of nodes l = Ok r ->
  Forall2 (fun x i => index_of x nodes = Some i) l r.
Proof.
  revert r. induction l as [|x l IH]; intros r H; simpl in H.
  - injection H as <-. constructor.
  - destruct (index_of x nodes) as [i|] eqn:Hi; [|discriminate].
    destruct (indices_of nodes l) as [r'|e]; [|discriminate].
    injection H as <-. constructor; [exact Hi | now apply IH].
Qed.

Lemma indices_of_nodup (nodes l : list node) (r : list nat) :
  indices_of nodes l = Ok r -> NoDup l -> NoDup r.
Proof.
  intros H Hl. apply indices_of_spec in H.
  induction H as [|x i l r Hxi Hlr IH]; [constructor|].
  inversion Hl as [|? ? Hx Hl']; subst. constructor; [|now apply IH].
  intros Hi. apply Hx. clear IH Hl Hl' Hx.
  induction Hlr as [|y j l r Hyj _ IH]; [contradiction|].
  destruct Hi as [->|Hi]; [left | right; now apply IH].
  eapply index_of_inj; eassumption.
Qed.

(** ** Sets of nodes *)

Lemma mem_In (x : node) (l : list node) : mem x l = true <-> In x l.
Proof.
  unfold mem. destruct (in_dec node_eq_dec x l); split; intros;
    try discriminate; try contradiction; auto.
Qed.

Lemma set_diff_In (a b : list node) (x : node) :
  In x (set_diff a b) <-> In x a /\ ~ In x b.
Proof.
  unfold set_diff, set_of. rewrite filter_In, nodup_In.
  rewrite negb_true_iff, <- not_true_iff_false, mem_In. reflexivity.
Qed.

Lemma set_diff_NoDup (a b : list node) : NoDup (set_diff a b).
Proof. unfold set_diff, set_of. apply NoDup_filter, NoDup_nodup. Qed.

(** A sample of any size up to the population exists. *)
Lemma valid_sample_firstn (pop : list node) (k : nat) :
  NoDup pop -> (k <= length pop)%nat -> valid_sample pop k (firstn k pop).
Proof.
  intros Hpop Hk. split; [|split].
  - rewrite length_firstn. lia.
  - rewrite <- (firstn_skipn k pop) in Hpop.
    now apply NoDup_app_remove_r in Hpop.
  - intros x Hx. rewrite <- (firstn_skipn k pop). apply in_or_app. now left.
Qed.

(** ** Sampling *)

Lemma returns_Sample_Ret (pop : list node) (k : nat) (s : list node) :
  returns (Sample pop k (@Ret _)) s <-> valid_sample pop k s.
Proof.
  split.
  - intros H. inversion H as [|? ? ? s' ? Hs Hr| |]; subst.
    inversion Hr; subst. exact Hs.
  - intros H. econstructor; [exact H | constructor].
Qed.

(** What [_select_samples] can return. *)
Lemma select_samples_returns (self : SupervisedRWRecommender) (user : node)
    (positive negative : list nat) :
  In user (g_nodes (graph self)) ->
  let nbrs := g_adj (graph self) user in
  let others := set_diff (candidates self) nbrs in
  returns (_select_samples self user) (positive, negative)
  <-> exists s,
        valid_sample others (Nat.min (length nbrs) (length others)) s
        /\ indices_of (nodes self) nbrs = Ok positive
        /\ indices_of (nodes self) s = Ok negative.
Proof.
  intros Huser nbrs others. unfold _select_samples.
  apply mem_In in Huser. rewrite Huser. fold nbrs. fold others.
  rewrite returns_bind. split.
  - intros [s [Hs Hr]]. apply returns_Sample_Ret in Hs.
    apply returns_bind in Hr. destruct Hr as [pos [Hpos Hr]].
    apply returns_bind in Hr. destruct Hr as [neg [Hneg Hr]].
    apply returns_lift in Hpos, Hneg. inversion Hr; subst.
    exists s. auto.
  - intros [s [Hs [Hpos Hneg]]]. exists s.
    split; [now apply returns_Sample_Ret|].
    apply returns_bind. exists positive. split; [now apply returns_lift|].
    apply returns_bind. exists negative. split; [now apply returns_lift|].
    constructor.
Qed.

Lemma select_samples_never_raises (self : SupervisedRWRecommender)
    (user : node) (e : exn) :
  trained self -> In user (nodes self) ->
  ~ raises (_select_samples self user) e.
Proof.
  intros Ht Huser Hr. destruct Ht as [[_ _ Hclosed] Hnodes _ Hcand _].
  rewrite Hnodes in Huser. unfold _select_samples in Hr.
  apply mem_In in Huser. rewrite Huser in Hr.
  set (nbrs := g_adj (graph self) user) in *.
  assert (Hnbrs : incl nbrs (nodes self)).
  { intros x Hx. rewrite Hnodes. eapply Hclosed. exact Hx. }
  apply raises_bind in Hr. destruct Hr as [Hr|[s [Hs Hr]]].
  - inversion Hr as [|? ? ? s ? Hs Hr'| |]; subst. inversion Hr'.
  - apply returns_Sample_Ret in Hs. destruct Hs as [_ [_ Hincl]].
    apply raises_bind in Hr. destruct Hr as [Hr|[pos [_ Hr]]].
    + apply raises_lift in Hr.
      destruct (indices_of_total (nodes self) nbrs Hnbrs) as [r Hr'].
      congruence.
    + apply raises_bind in Hr. destruct Hr as [Hr|[neg [_ Hr]]];
        [|inversion Hr].
      apply raises_lift in Hr.
      destruct (indices_of_total (nodes self) s) as [r Hr']; [|congruence].
      intros x Hx. apply Hincl, set_diff_In in Hx. destruct Hx as [Hx _].
      rewrite Hcand in Hx. now apply filter_In in Hx.
Qed.

(** What the sampling step returns.  The positive set holds the indices
    of the neighbours of the root, as [graph.neighbors] lists them; the
    negative set holds the indices of distinct repositories that are not
    neighbours of the root, as many as the smaller of the number of
    neighbours and the number of such repositories.  The call returns and
    does not raise. *)
Theorem select_samples_all_neighbours (self : SupervisedRWRecommender)
    (user : node) :
  trained self -> In user (nodes self) ->
  let nbrs := g_adj (graph self) user in
  let others := set_diff (candidates self) nbrs in
  (forall x, In x others
             <-> is_repository x = true /\ In x (nodes self) /\ ~ In x nbrs)
  /\ NoDup others
  /\ (exists r, returns (_select_samples self user) r)
  /\ (forall e, ~ raises (_select_samples self user) e)
  /\ forall positive negative,
       returns (_select_samples self user) (positive, negative) ->
       indices_of (nodes self) nbrs = Ok positive
       /\ length negative = Nat.min (length nbrs) (length others)
       /\ NoDup negative
       /\ exists s, indices_of (nodes self) s = Ok negative
                    /\ NoDup s /\ incl s others.
Proof.
  intros Ht Huser nbrs others.
  assert (Hothers : forall x, In x others
             <-> is_repository x = true /\ In x (nodes self) /\ ~ In x nbrs).
  { intros x. unfold others. rewrite set_diff_In, (candidates_def _ Ht).
    rewrite filter_In. tauto. }
  assert (Hg : In user (g_nodes (graph self)))
    by now rewrite <- (nodes_graph _ Ht).
  split; [exact Hothers|]. split; [apply set_diff_NoDup|].
  split; [|split].
  - set (k := Nat.min (length nbrs) (length others)).
    destruct (indices_of_total (nodes self) nbrs) as [pos Hpos].
    { intros x Hx. rewrite (nodes_graph _ Ht).
      eapply (g_adj_closed _ (graph_ok _ Ht)). exact Hx. }
    assert (Hs : valid_sample others k (firstn k others)).
    { apply valid_sample_firstn; [apply set_diff_NoDup | unfold k; lia]. }
    destruct (indices_of_total (nodes self) (firstn k others)) as [neg Hneg].
    { intros x Hx. destruct Hs as [_ [_ Hincl]].
      apply Hincl, Hothers in Hx. tauto. }
    exists (pos, neg). apply select_samples_returns; [exact Hg|].
    exists (firstn k others). auto.
  - intros e. now apply select_samples_never_raises.
  - intros positive negative Hr.
    apply select_samples_returns in Hr; [|exact Hg].
    destruct Hr as [s [[Hlen [Hnd Hincl]] [Hpos Hneg]]].
    split; [exact Hpos|].
    pose proof (indices_of_spec _ _ _ Hneg) as Hspec.
    split; [|split].
    + apply Forall2_length in Hspec. fold nbrs others in Hlen. lia.
    + eapply indices_of_nodup; eassumption.
    + exists s. auto.
Qed.

(** C7.  In the mixed session the user follows another user and starred
    a repository.  Line 155 takes the neighbours as they are: the
    positive set holds the index of the other user, a node that is not a
    repository, next to that of the repository, where the neighbours of
    the candidate type are the repository alone.  The pool of the
    negatives (line 156) holds repositories only. *)
Lemma select_samples_takes_a_user :
  returns (_select_samples mixed_demo (User 0)) ([1; 2]%nat, [3]%nat)
  /\ nth_error (nodes mixed_demo) 1 = Some (User 1)
  /\ is_repository (User 1) = false
  /\ indices_of (nodes mixed_demo)
       (filter is_repository (g_adj (graph mixed_demo) (User 0)))
     = Ok [2]%nat
  /\ set_diff (candidates mixed_demo) (g_adj (graph mixed_demo) (User 0))
     = [Repository 1].
Proof.
  split; [|repeat split; reflexivity].
  apply select_samples_returns; [simpl; auto|].
  exists [Repository 1]. split; [|split; reflexivity].
  split; [reflexivity|]. split; [nodup_nodes|].
  intros x [<-|[]]. simpl. now left.
Qed.

Lemma select_samples_all_neighbours_demo :
  let nbrs := g_adj (graph demo) (User 0) in
  let others := set_diff (candidates demo) nbrs in
  (forall x, In x others
             <-> is_repository x = true /\ In x (nodes demo) /\ ~ In x nbrs)
  /\ NoDup others
  /\ (exists r, returns (_select_samples demo (User 0)) r)
  /\ (forall e, ~ raises (_select_samples demo (User 0)) e)
  /\ forall positive negative,
       returns (_select_samples demo (User 0)) (positive, negative) ->
       indices_of (nodes demo) nbrs = Ok positive
       /\ length negative = Nat.min (length nbrs) (length others)
       /\ NoDup negative
       /\ exists s, indices_of (nodes demo) s = Ok negative
                    /\ NoDup s /\ incl s others.
Proof.
  apply (select_samples_all_neighbours demo (User 0) demo_trained).
  simpl. auto.
Defined.

(** ** Fitting for a root without neighbours *)

Lemma valid_sample_0 (pop s : list node) : valid_sample pop 0 s <-> s = [].
Proof.
  split.
  - intros [Hlen _]. now destruct s.
  - intros ->. split; [reflexivity|]. split; [constructor|]. intros x [].
Qed.

(** Without neighbours there is nothing to sample, the list of pairs is
    empty, and [fit] draws a starting point and calls the optimizer. *)
Lemma fit_no_neighbours (self : SupervisedRWRecommender) (user : node)
    (u : nat) :
  In user (g_nodes (graph self)) ->
  index_of user (nodes self) = Some u ->
  g_adj (graph self) user = [] ->
  exists pop cont,
    fit self user = Sample pop 0 cont
    /\ cont []
       = Rand (M self) (fun w0 =>
           Minimize (fun w => _loss_function self w u []) w0
                    (fun w => Ret (u, w))).
Proof.
  intros Huser Hu Hadj. unfold fit, _select_samples.
  apply mem_In in Huser. rewrite Huser, Hadj, Hu.
  eexists. eexists. split; reflexivity.
Qed.

(** What such a computation does. *)
Lemma sample_nothing_then_minimize {A : Type} (p : prog A)
    (pop : list node) (cont : list node -> prog A) (m : nat)
    (f : vec -> result (ndarray (R * vec))) (k : vec -> A) :
  p = Sample pop 0 cont ->
  cont [] = Rand m (fun w0 => Minimize f w0 (fun w => Ret (k w))) ->
  (forall e, ~ raises p e)
  /\ optimizes p
  /\ (forall w0, length w0 = m -> hands_over p f w0)
  /\ (forall a, returns p a <-> exists w, length w = m /\ a = k w).
Proof.
  intros -> Hcont.
  assert (H0 : valid_sample pop 0 []) by now apply valid_sample_0.
  split; [|split; [|split]].
  - intros e Hr. inversion Hr as [|? ? ? s ? Hs Hr'| |]; subst.
    apply valid_sample_0 in Hs. subst s. rewrite Hcont in Hr'.
    inversion Hr' as [| |? ? w0 ? Hw0 Hr''|]; subst.
    inversion Hr'' as [| | |? ? ? w ? Hw Hr3]; subst. inversion Hr3.
  - econstructor; [exact H0|]. rewrite Hcont.
    apply optimizes_Rand with (w := repeat 0 m); [apply repeat_length|].
    constructor.
  - intros w0 Hw0. econstructor; [exact H0|]. rewrite Hcont.
    econstructor; [exact Hw0 | constructor].
  - intros a. split.
    + intros Hr. inversion Hr as [|? ? ? s ? Hs Hr'| |]; subst.
      apply valid_sample_0 in Hs. subst s. rewrite Hcont in Hr'.
      inversion Hr' as [| |? ? w0 ? Hw0 Hr''|]; subst.
      inversion Hr'' as [| | |? ? ? w ? Hw Hr3]; subst.
      inversion Hr3; subst. exists w. split; [exact Hw | reflexivity].
    + intros [w [Hw ->]]. econstructor; [exact H0|]. rewrite Hcont.
      apply returns_Rand with (w := w); [exact Hw|].
      econstructor; [reflexivity | constructor].
Qed.

(** Without pairs the loss is the regularizer. *)
Lemma loss_of_no_pairs (self : SupervisedRWRecommender) (w P : vec)
    (dP : list vec) :
  loss_of self w [] P dP
  = (sq_norm w, build (M self) (fun m => 2 * vget w m)).
Proof.
  unfold loss_of, einsum_i_im. simpl. f_equal; [lra|].
  apply build_ext. intros m _. lra.
Qed.

(** C9, as amended.  For a root without neighbours [fit] neither skips
    the optimization nor raises: it samples nothing, draws a starting
    point and calls the optimizer on the loss without pairs, which is the
    regularizer [|w|^2] with gradient [2w] wherever the walk is finite;
    it returns whatever weights the optimizer answers. *)
Theorem fit_without_neighbours (self : SupervisedRWRecommender)
    (user : node) :
  trained self -> In user (nodes self) -> g_adj (graph self) user = [] ->
  exists u,
    index_of user (nodes self) = Some u
    /\ (forall e, ~ raises (fit self user) e)
    /\ optimizes (fit self user)
    /\ (forall w0, length w0 = M self ->
          hands_over (fit self user)
                     (fun w => _loss_function self w u []) w0)
    /\ (forall r, returns (fit self user) r
                  <-> exists w, length w = M self /\ r = (u, w))
    /\ (forall w P log dQ,
          let A := fst (_get_edge_strength self w) in
          let dA := snd (_get_edge_strength self w) in
          let Q := _get_transition_probability self A u in
          _get_stationary_distribution self Q = Ok (Finite P, log) ->
          all_finite (_get_transition_probability_derivative self A dA)
          = Finite dQ ->
          _loss_function self w u []
          = Ok (Finite (sq_norm w, build (M self) (fun m => 2 * vget w m)))).
Proof.
  intros Ht Huser Hadj.
  destruct (index_of_In user (nodes self) Huser) as [u Hu].
  exists u. split; [exact Hu|].
  assert (Hg : In user (g_nodes (graph self)))
    by now rewrite <- (nodes_graph _ Ht).
  destruct (fit_no_neighbours self user u Hg Hu Hadj)
    as [pop [cont [Hfit Hcont]]].
  destruct (sample_nothing_then_minimize (fit self user) pop cont (M self)
              (fun w => _loss_function self w u []) (fun w => (u, w))
              Hfit Hcont) as [Hraise [Hopt [Hhand Hret]]].
  repeat (split; [assumption|]).
  intros w P log dQ A dA Q HP HdQ.
  rewrite (loss_function_finite self w u [] P log dQ HP HdQ)
    by now left.
  now rewrite loss_of_no_pairs.
Qed.

(** C9 (the claim as stated fails).  In the session without edges the
    user has no neighbour; [fit] does not raise, and it does not skip the
    optimization: it hands the starting point [[1]] to the optimizer and
    returns the optimizer's answer, here [[0]]. *)
Lemma fit_optimizes_without_neighbours :
  g_adj (graph lonely_demo) (User 0) = []
  /\ (forall e, ~ raises (fit lonely_demo (User 0)) e)
  /\ optimizes (fit lonely_demo (User 0))
  /\ hands_over (fit lonely_demo (User 0))
                (fun w => _loss_function lonely_demo w 0 []) [1]
  /\ returns (fit lonely_demo (User 0)) (0%nat, [0]).
Proof.
  split; [reflexivity|].
  destruct (fit_no_neighbours lonely_demo (User 0) 0)
    as [pop [cont [Hfit Hcont]]]; [simpl; auto | reflexivity | reflexivity |].
  destruct (sample_nothing_then_minimize (fit lonely_demo (User 0)) pop cont
              (M lonely_demo) (fun w => _loss_function lonely_demo w 0 [])
              (fun w => (0%nat, w)) Hfit Hcont)
    as [Hraise [Hopt [Hhand Hret]]].
  split; [exact Hraise|]. split; [exact Hopt|].
  split; [now apply Hhand|].
  apply Hret. exists [0]. split; reflexivity.
Qed.

(** ** The walk of the final ranking *)

Lemma normalize_l1_row_nonneg (r : vec) :
  Forall (fun x => 0 <= x) r -> Forall (fun x => 0 <= x) (normalize_l1_row r).
Proof.
  intros Hr. unfold normalize_l1_row. rewrite map_Rabs_nonneg by assumption.
  destruct (Req_dec_T (vsum r) 0) as [Hz|Hnz]; [assumption|].
  pose proof (vsum_nonneg r Hr) as Hs.
  apply Forall_forall. intros y Hy. apply in_map_iff in Hy.
  destruct Hy as [x [<- Hx]]. rewrite Forall_forall in Hr.
  apply Rmult_le_pos; [now apply Hr|].
  apply Rlt_le, Rinv_0_lt_compat. lra.
Qed.

Lemma add_at_nonneg (j : nat) (a : R) (r : vec) :
  0 <= a -> Forall (fun x => 0 <= x) r ->
  Forall (fun x => 0 <= x) (add_at j a r).
Proof.
  intros Ha Hr. revert j.
  induction Hr as [|x r Hx Hr IH]; intros [|j]; simpl; constructor;
    auto; lra.
Qed.

(** With a teleport probability in (0, 1] and non-negative strengths the
    transition matrix can be walked: no entry is negative and every row
    has a positive sum. *)
Lemma transition_walkable (self : SupervisedRWRecommender) (A : vec)
    (root : nat) :
  0 < alpha self <= 1 -> Forall (fun a => 0 <= a) A -> (root < N self)%nat ->
  walkable (N self) (_get_transition_probability self A root).
Proof.
  intros Halpha HA Hroot.
  split; [apply transition_square|].
  assert (Hrows : forall r, In r (_get_transition_probability self A root) ->
            exists i, (i < N self)%nat /\
              r = add_at root (alpha self)
                    (map (fun x => x * (1 - alpha self))
                       (normalize_l1_row
                          (build (N self)
                             (coo_entry (row self) (col self) A i))))).
  { intros r Hr. apply (In_nth _ _ []) in Hr. destruct Hr as [i [Hi <-]].
    destruct (transition_square self A root) as [Hlen _].
    rewrite Hlen in Hi. exists i. split; [exact Hi|].
    now apply transition_row. }
  assert (Hcoo : forall i, Forall (fun x => 0 <= x)
                   (build (N self) (coo_entry (row self) (col self) A i))).
  { intros i. apply Forall_build. intros j _. now apply coo_entry_nonneg. }
  split; apply Forall_forall; intros r Hr;
    destruct (Hrows r Hr) as [i [Hi ->]].
  - apply add_at_nonneg; [lra|].
    apply Forall_forall. intros y Hy. apply in_map_iff in Hy.
    destruct Hy as [x [<- Hx]].
    pose proof (normalize_l1_row_nonneg _ (Hcoo i)) as Hn.
    rewrite Forall_forall in Hn. apply Rmult_le_pos; [now apply Hn | lra].
  - unfold row_sum. rewrite vsum_add_at
      by (rewrite length_map, length_normalize_l1_row; now rewrite length_build).
    rewrite vsum_map_scal, normalize_l1_row_sum by apply Hcoo.
    destruct (Req_dec_T _ 0); lra.
Qed.

(** Along a matrix that can be walked the solver returns a probability
    vector. *)
Lemma stationary_distribution_stochastic (self : SupervisedRWRecommender)
    (Q : matrix) :
  (0 < N self)%nat -> walkable (N self) Q ->
  exists P log,
    _get_stationary_distribution self Q = Ok (Finite P, log)
    /\ stochastic (N self) P.
Proof.
  intros HN HQ. unfold _get_stationary_distribution.
  destruct (N self) as [|n] eqn:HNeq; [lia|]. rewrite <- HNeq in *.
  destruct (primal_loop_stochastic self Q (max_steps self) HQ (uniform self)
              false (Finite 0) (uniform_stochastic self HN))
    as [P [HP Hst]].
  exists P. eexists. rewrite HP. split; [reflexivity | exact Hst].
Qed.

Lemma stochastic_bounds (n : nat) (P : vec) (x : R) :
  stochastic n P -> In x P -> 0 <= x <= 1.
Proof.
  intros [_ [Hpos Hsum]] Hx. rewrite Forall_forall in Hpos.
  split; [now apply Hpos|].
  apply (In_nth _ _ 0) in Hx. destruct Hx as [i [Hi <-]].
  rewrite vsum_sum_upto in Hsum. rewrite <- Hsum.
  apply (sum_upto_term_le (length P) (vget P) i); [|exact Hi].
  intros j Hj. apply Hpos. now apply nth_In.
Qed.

Lemma edge_strength_nonneg (self : SupervisedRWRecommender) (w : vec) :
  Forall (fun a => 0 <= a) (fst (_get_edge_strength self w)).
Proof.
  unfold _get_edge_strength. cbn [fst]. apply Forall_forall.
  intros a Ha. apply in_map_iff in Ha. destruct Ha as [x [<- _]].
  apply Rlt_le, sigmoid_bounds.
Qed.

(** ** The ranking *)

Lemma insert_by_score_In (x y : node * R) (l : list (node * R)) :
  In y (insert_by_score x l) <-> y = x \/ In y l.
Proof.
  induction l as [|z l IH]; simpl.
  - intuition.
  - destruct (Rlt_dec (snd x) (snd z)); simpl; rewrite ?IH; intuition.
Qed.

Lemma sort_by_score_In (y : node * R) (l : list (node * R)) :
  In y (sort_by_score l) <-> In y l.
Proof.
  induction l as [|x l IH]; simpl; [reflexivity|].
  rewrite insert_by_score_In, IH. intuition.
Qed.

Section Ranking.

(** The order in which the entries come. *)
Variable earlier : node * R -> node * R -> Prop.

Lemma insert_by_score_ordered (x : node * R) (l : list (node * R)) :
  ForallOrdPairs (by_score earlier) l -> Forall (earlier x) l ->
  ForallOrdPairs (by_score earlier) (insert_by_score x l).
Proof.
  intros Hl Hx. induction Hl as [|z l Hz Hl IH]; simpl.
  - constructor; constructor.
  - inversion Hx as [|? ? Hxz Hxl]; subst.
    destruct (Rlt_dec (snd x) (snd z)) as [Hlt|Hge].
    + constructor; [|now apply IH].
      apply Forall_forall. intros y Hy.
      apply insert_by_score_In in Hy. destruct Hy as [->|Hy].
      * left. exact Hlt.
      * rewrite Forall_forall in Hz. now apply Hz.
    + constructor; [|now constructor].
      assert (Hxz' : by_score earlier x z).
      { unfold by_score. destruct (Rle_lt_or_eq_dec (snd z) (snd x));
          [lra | now left | right; split; [lra | exact Hxz]]. }
      constructor; [exact Hxz'|].
      apply Forall_forall. intros y Hy.
      rewrite Forall_forall in Hz, Hxl.
      specialize (Hz y Hy). specialize (Hxl y Hy). unfold by_score in *.
      destruct Hz as [Hz|[Hz Hzy]]; [left; lra|].
      destruct Hxz' as [Hxz'|[Hxz' _]]; [left; lra|].
      right. split; [lra | exact Hxl].
Qed.

(** The sort is a stable sort by descending score. *)
Lemma sort_by_score_ordered (l : list (node * R)) :
  ForallOrdPairs earlier l ->
  ForallOrdPairs (by_score earlier) (sort_by_score l).
Proof.
  induction 1 as [|x l Hx Hl IH]; simpl; [constructor|].
  apply insert_by_score_ordered; [exact IH|].
  apply Forall_forall. intros y Hy.
  apply (proj1 (sort_by_score_In y l)) in Hy.
  rewrite Forall_forall in Hx. now apply Hx.
Qed.

End Ranking.

Lemma ForallOrdPairs_firstn {A : Type} (R : A -> A -> Prop) (n : nat)
    (l : list A) :
  ForallOrdPairs R l -> ForallOrdPairs R (firstn n l).
Proof.
  intros H. revert n. induction H as [|x l Hx Hl IH]; intros [|n]; simpl;
    try constructor; [|apply IH].
  apply Forall_forall. intros y Hy. rewrite Forall_forall in Hx.
  apply Hx. rewrite <- (firstn_skipn n l). apply in_or_app. now left.
Qed.

Lemma ForallOrdPairs_filter {A : Type} (R : A -> A -> Prop) (f : A -> bool)
    (l : list A) :
  ForallOrdPairs R l -> ForallOrdPairs R (filter f l).
Proof.
  induction 1 as [|x l Hx Hl IH]; simpl; [constructor|].
  destruct (f x); [|exact IH]. constructor; [|exact IH].
  apply Forall_forall. intros y Hy. apply filter_In in Hy.
  rewrite Forall_forall in Hx. now apply Hx.
Qed.

(** In a list without repetition the index of a node is its position. *)
Lemma index_of_position (l : list node) (x : node) (i : nat) :
  NoDup l -> nth_error l i = Some x -> index_of x l = Some i.
Proof.
  intros Hl Hi.
  destruct (index_of_In x l) as [j Hj]; [eapply nth_error_In; eassumption|].
  destruct (index_of_nth x l j Hj) as [Hlt Hnth].
  rewrite Hj. f_equal.
  apply (proj1 (NoDup_nth_error l) Hl); [exact Hlt | congruence].
Qed.

(** The items of [izip(self.nodes, rank)] come in the order of the
    nodes. *)
Lemma combine_in_order (suf : list node) :
  forall (pre : list node) (P : vec),
  ForallOrdPairs
    (fun x y : node * R =>
       exists i j, nth_error (pre ++ suf) i = Some (fst x)
                   /\ nth_error (pre ++ suf) j = Some (fst y) /\ (i < j)%nat)
    (combine suf P).
Proof.
  induction suf as [|x suf IH]; intros pre P; [constructor|].
  destruct P as [|p P]; [constructor|]. simpl. constructor.
  - apply Forall_forall. intros [y q] Hy. apply in_combine_l in Hy.
    apply In_nth_error in Hy. destruct Hy as [k Hk].
    exists (length pre), (length pre + S k)%nat. cbn [fst].
    split; [|split; [|lia]].
    + rewrite nth_error_app2 by lia. now rewrite Nat.sub_diag.
    + rewrite nth_error_app2 by lia.
      replace (length pre + S k - length pre)%nat with (S k) by lia.
      exact Hk.
  - specialize (IH (pre ++ [x]) P). rewrite <- app_assoc in IH. exact IH.
Qed.

Lemma combine_precedes (nodes : list node) (P : vec) :
  NoDup nodes ->
  ForallOrdPairs (fun x y : node * R => precedes nodes (fst x) (fst y))
                 (combine nodes P).
Proof.
  intros Hnd. pose proof (combine_in_order nodes [] P) as H. simpl in H.
  induction H as [|x l Hx Hl IH]; constructor; [|exact IH].
  eapply Forall_impl; [|exact Hx].
  intros y [i [j [Hi [Hj Hij]]]]. exists i, j.
  split; [|split; [|exact Hij]]; now apply index_of_position.
Qed.

(** ** Recommendations *)

Lemma select_samples_total (self : SupervisedRWRecommender) (user : node) :
  trained self -> In user (nodes self) ->
  exists r, returns (_select_samples self user) r.
Proof.
  intros Ht Huser.
  set (nbrs := g_adj (graph self) user).
  set (others := set_diff (candidates self) nbrs).
  set (k := Nat.min (length nbrs) (length others)).
  destruct (indices_of_total (nodes self) nbrs) as [pos Hpos].
  { intros x Hx. rewrite (nodes_graph _ Ht).
    eapply (g_adj_closed _ (graph_ok _ Ht)). exact Hx. }
  assert (Hs : valid_sample others k (firstn k others)).
  { apply valid_sample_firstn; [apply set_diff_NoDup | unfold k; lia]. }
  destruct (indices_of_total (nodes self) (firstn k others)) as [neg Hneg].
  { intros x Hx. destruct Hs as [_ [_ Hincl]].
    apply Hincl, set_diff_In in Hx. destruct Hx as [Hx _].
    rewrite (candidates_def _ Ht) in Hx. now apply filter_In in Hx. }
  exists (pos, neg). apply select_samples_returns.
  - now rewrite <- (nodes_graph _ Ht).
  - exists (firstn k others). auto.
Qed.

(** [fit] returns the index of the root with the weights. *)
Lemma fit_returns (self : SupervisedRWRecommender) (user : node)
    (u : nat) (w : vec) :
  returns (fit self user) (u, w) -> index_of user (nodes self) = Some u.
Proof.
  unfold fit. intros H.
  apply returns_bind in H. destruct H as [pn [_ H]].
  apply returns_bind in H. destruct H as [u' [Hu H]].
  apply returns_lift in Hu.
  apply returns_bind in H. destruct H as [w0 [_ H]].
  apply returns_bind in H. destruct H as [w' [_ H]].
  inversion H; subst.
  destruct (index_of user (nodes self)); [congruence | discriminate].
Qed.

Lemma fit_total (self : SupervisedRWRecommender) (user : node) :
  trained self -> In user (nodes self) ->
  exists u w, returns (fit self user) (u, w).
Proof.
  intros Ht Huser.
  destruct (select_samples_total self user Ht Huser) as [pn Hpn].
  destruct (index_of_In user (nodes self) Huser) as [u Hu].
  exists u, (repeat 0 (M self)). unfold fit.
  apply returns_bind. exists pn. split; [exact Hpn|].
  apply returns_bind. exists u. split; [apply returns_lift; now rewrite Hu|].
  apply returns_bind. exists (repeat 0 (M self)). split.
  { econstructor; [apply repeat_length | constructor]. }
  apply returns_bind. exists (repeat 0 (M self)). split.
  { econstructor; [reflexivity | constructor]. }
  constructor.
Qed.

(** [fit] can return any weights of the right length. *)
Lemma fit_returns_any (self : SupervisedRWRecommender) (user : node)
    (u : nat) (w : vec) :
  trained self -> In user (nodes self) ->
  index_of user (nodes self) = Some u -> length w = M self ->
  returns (fit self user) (u, w).
Proof.
  intros Ht Huser Hu Hw.
  destruct (select_samples_total self user Ht Huser) as [pn Hpn].
  unfold fit.
  apply returns_bind. exists pn. split; [exact Hpn|].
  apply returns_bind. exists u. split; [apply returns_lift; now rewrite Hu|].
  apply returns_bind. exists (repeat 0 (M self)). split.
  { econstructor; [apply repeat_length | constructor]. }
  apply returns_bind. exists w. split.
  { apply returns_Minimize with (w := w);
      [rewrite repeat_length; exact Hw | constructor]. }
  constructor.
Qed.

(** What [recommend] can return: the ranking of the stationary
    distribution at the weights the optimizer answered. *)
Lemma recommend_returns (iteritems : list (node * R) -> list (node * R))
    (self : SupervisedRWRecommender) (user : node)
    (n : nat) (r : ndarray (list (node * R))) :
  returns (recommend iteritems self user n) r
  <-> exists u w P log,
        returns (fit self user) (u, w)
        /\ _get_stationary_distribution self
             (_get_transition_probability self
                (fst (_get_edge_strength self w)) u) = Ok (P, log)
        /\ r = match P with
               | Finite rank =>
                   Finite (recommend_by_rank
                             (iteritems (rank_items self user rank)) n)
               | NonFinite => NonFinite
               end.
Proof.
  unfold recommend, _get_rank. split.
  - intros H.
    apply returns_bind in H. destruct H as [rank [H Hr]].
    apply returns_bind in H. destruct H as [[u w] [Hfit H]].
    apply returns_bind in H. destruct H as [[P log] [HP H]].
    apply returns_lift in HP. apply returns_Ret_eq in H. subst rank.
    cbn [fst snd] in *.
    exists u, w, P, log. split; [exact Hfit|]. split; [exact HP|].
    destruct P; apply returns_Ret_eq in Hr; exact Hr.
  - intros [u [w [P [log [Hfit [HP ->]]]]]].
    apply returns_bind. exists P. split.
    + apply returns_bind. exists (u, w). split; [exact Hfit|].
      apply returns_bind. exists (P, log).
      split; [now apply returns_lift | constructor].
    + destruct P; constructor.
Qed.

Lemma rank_items_In (self : SupervisedRWRecommender) (user : node)
    (rank : vec) (kv : node * R) :
  In kv (rank_items self user rank) ->
  is_repository (fst kv) = true
  /\ In (fst kv) (nodes self)
  /\ ~ In (fst kv) (g_adj (graph self) user)
  /\ In (snd kv) rank.
Proof.
  unfold rank_items. intros H. apply filter_In in H.
  destruct H as [Hin Hf]. apply andb_true_iff in Hf. destruct Hf as [Hr Hn].
  destruct kv as [k v]. cbn [fst snd] in *.
  split; [exact Hr|]. split; [eapply in_combine_l; eassumption|].
  split; [|eapply in_combine_r; eassumption].
  intros Hadj. apply mem_In in Hadj. rewrite Hadj in Hn. discriminate.
Qed.

(** A sequence lists its entries in the order in which it yields them. *)
Lemma yielded_in_order (suf : list (node * R)) :
  forall pre : list (node * R),
  ForallOrdPairs (yielded_before (pre ++ suf)) suf.
Proof.
  induction suf as [|x suf IH]; intros pre; constructor.
  - apply Forall_forall. intros y Hy.
    apply In_nth_error in Hy. destruct Hy as [k Hk].
    exists (length pre), (length pre + S k)%nat.
    split; [|split; [|lia]].
    + rewrite nth_error_app2 by lia. now rewrite Nat.sub_diag.
    + rewrite nth_error_app2 by lia.
      replace (length pre + S k - length pre)%nat with (S k) by lia.
      exact Hk.
  - specialize (IH (pre ++ [x])). now rewrite <- app_assoc in IH.
Qed.

(** C8, as amended.  With a teleport probability in (0, 1], whatever the
    order in which the dictionary yields its items, [recommend(user, n)]
    returns, and what it returns is a list of at most [n] (node, score)
    pairs: every node is a repository of the graph that is not a
    neighbour of the user, every score lies between 0 and 1, the scores
    descend, and of two nodes with the same score the one that the
    dictionary of the final stationary distribution [P] yields first
    comes first. *)
Theorem recommend_ranking (iteritems : list (node * R) -> list (node * R))
    (self : SupervisedRWRecommender) (user : node) (n : nat) :
  dict_order iteritems ->
  trained self -> shapes_ok self -> 0 < alpha self <= 1 ->
  In user (nodes self) ->
  (exists r, returns (recommend iteritems self user n) r)
  /\ forall r, returns (recommend iteritems self user n) r ->
       exists recs u w P log,
         r = Finite recs
         /\ returns (fit self user) (u, w)
         /\ _get_stationary_distribution self
              (_get_transition_probability self
                 (fst (_get_edge_strength self w)) u) = Ok (Finite P, log)
         /\ (length recs <= n)%nat
         /\ Forall (fun kv =>
                      is_repository (fst kv) = true
                      /\ In (fst kv) (nodes self)
                      /\ ~ In (fst kv) (g_adj (graph self) user)
                      /\ 0 <= snd kv <= 1) recs
         /\ ForallOrdPairs
              (by_score (yielded_before (iteritems (rank_items self user P))))
              recs.
Proof.
  intros Horder Ht _ Halpha Huser.
  assert (Hwalk : forall u w, index_of user (nodes self) = Some u ->
            exists P log,
              _get_stationary_distribution self
                (_get_transition_probability self
                   (fst (_get_edge_strength self w)) u) = Ok (Finite P, log)
              /\ stochastic (N self) P).
  { intros u w Hu. apply index_of_nth in Hu. destruct Hu as [Hu _].
    rewrite <- (N_def _ Ht) in Hu.
    apply stationary_distribution_stochastic; [lia|].
    apply transition_walkable;
      [exact Halpha | apply edge_strength_nonneg | exact Hu]. }
  split.
  - destruct (fit_total self user Ht Huser) as [u [w Hfit]].
    destruct (Hwalk u w (fit_returns self user u w Hfit))
      as [P [log [HP _]]].
    eexists. apply recommend_returns.
    exists u, w, (Finite P), log. repeat split; assumption.
  - intros r Hr. apply recommend_returns in Hr.
    destruct Hr as [u [w [P' [log' [Hfit [HP' ->]]]]]].
    destruct (Hwalk u w (fit_returns self user u w Hfit))
      as [P [log [HP Hst]]].
    rewrite HP in HP'. injection HP' as <- <-.
    set (items := iteritems (rank_items self user P)).
    exists (recommend_by_rank items n), u, w, P, log.
    split; [reflexivity|]. split; [exact Hfit|]. split; [exact HP|].
    unfold recommend_by_rank. split; [|split].
    + rewrite length_firstn. lia.
    + apply Forall_forall. intros kv Hkv.
      assert (Hin : In kv (rank_items self user P)).
      { eapply Permutation_in; [apply Permutation_sym, Horder|].
        apply sort_by_score_In.
        rewrite <- (firstn_skipn n (sort_by_score _)).
        apply in_or_app. left. exact Hkv. }
      apply rank_items_In in Hin. destruct Hin as [H1 [H2 [H3 H4]]].
      repeat (split; [assumption|]).
      eapply stochastic_bounds; eassumption.
    + apply ForallOrdPairs_firstn, sort_by_score_ordered.
      exact (yielded_in_order items []).
Qed.

Lemma recommend_ranking_demo :
  (exists r, returns (recommend (@rev _) demo (User 0) 3) r)
  /\ forall r, returns (recommend (@rev _) demo (User 0) 3) r ->
       exists recs u w P log,
         r = Finite recs
         /\ returns (fit demo (User 0)) (u, w)
         /\ _get_stationary_distribution demo
              (_get_transition_probability demo
                 (fst (_get_edge_strength demo w)) u) = Ok (Finite P, log)
         /\ (length recs <= 3)%nat
         /\ Forall (fun kv =>
                      is_repository (fst kv) = true
                      /\ In (fst kv) (nodes demo)
                      /\ ~ In (fst kv) (g_adj (graph demo) (User 0))
                      /\ 0 <= snd kv <= 1) recs
         /\ ForallOrdPairs
              (by_score (yielded_before (rev (rank_items demo (User 0) P))))
              recs.
Proof.
  apply (recommend_ranking (@rev _) demo (User 0) 3).
  - intros items. apply Permutation_rev.
  - exact demo_trained.
  - exact demo_shapes_ok.
  - simpl. lra.
  - simpl. auto.
Defined.

(** ** Ties, and teleport probabilities outside (0, 1] *)

Lemma tie_graph_ok : well_formed tie_graph.
Proof. constructor; [nodup_nodes | adj_nodup | adj_closed]. Qed.

Lemma tie_trained : trained tie_demo.
Proof.
  constructor; simpl; try reflexivity; [apply tie_graph_ok | nodup_nodes].
Qed.

Lemma sink_graph_ok : well_formed sink_graph.
Proof. constructor; [nodup_nodes | adj_nodup | adj_closed]. Qed.

Lemma sink_trained : trained sink_demo.
Proof.
  constructor; simpl; try reflexivity; [apply sink_graph_ok | nodup_nodes].
Qed.

Lemma steep_trained : trained steep_demo.
Proof.
  constructor; simpl; try reflexivity; [apply sink_graph_ok | nodup_nodes].
Qed.

(** A feature that is zero gives every edge the strength 1/2, whatever
    the weights. *)
Lemma dot_zero_feature (w : vec) : dot [0] w = 0.
Proof. destruct w; simpl; lra. Qed.

Lemma tie_edge_strength (w : vec) :
  fst (_get_edge_strength tie_demo w) = [1 / 2; 1 / 2].
Proof.
  unfold _get_edge_strength. cbn [fst features tie_demo map].
  now rewrite dot_zero_feature, sigmoid_0.
Qed.

Lemma tie_walk :
  _get_stationary_distribution tie_demo
    (_get_transition_probability tie_demo [1 / 2; 1 / 2] 0)
  = Ok (Finite [5 / 6; 1 / 6; 0; 0], [Warning Primal 1 (Finite (7 / 12))]).
Proof.
  assert (HQ : _get_transition_probability tie_demo [1 / 2; 1 / 2] 0
               = [[1 / 2; 1 / 2; 0; 0]; [1; 0; 0; 0]; [1 / 2; 0; 0; 0];
                  [1 / 2; 0; 0; 0]]).
  { unfold _get_transition_probability, normalize_l1_row. simpl.
    unfold Rabs, build. evaluate; same_entries. }
  rewrite HQ.
  set (Q := [[1 / 2; 1 / 2; 0; 0]; [1; 0; 0; 0]; [1 / 2; 0; 0; 0];
             [1 / 2; 0; 0; 0]]).
  assert (H0 : uniform tie_demo = [1 / 4; 1 / 4; 1 / 4; 1 / 4])
    by (unfold uniform; simpl; same_entries).
  assert (H1 : primal_step tie_demo Q [1 / 4; 1 / 4; 1 / 4; 1 / 4]
               = Finite [5 / 6; 1 / 6; 0; 0]) by eval_step.
  assert (H2 : _converged tie_demo [1 / 4; 1 / 4; 1 / 4; 1 / 4]
                 [5 / 6; 1 / 6; 0; 0] = (false, 7 / 12)).
  { rewrite (converged_eval tie_demo _ _ (7 / 12)) by eval_delta.
    rewrite Rltb_false by (simpl; lra). reflexivity. }
  unfold _get_stationary_distribution.
  change (N tie_demo) with 4%nat. change (max_steps tie_demo) with 1%nat.
  rewrite H0. cbn [primal_loop ls_P]. rewrite H1, H2. reflexivity.
Qed.

Lemma sink_edge_strength (w : vec) :
  fst (_get_edge_strength sink_demo w) = [1 / 2].
Proof.
  unfold _get_edge_strength. cbn [fst features sink_demo map].
  now rewrite dot_zero_feature, sigmoid_0.
Qed.

Lemma steep_edge_strength (w : vec) :
  fst (_get_edge_strength steep_demo w) = [1 / 2].
Proof.
  unfold _get_edge_strength. cbn [fst features steep_demo map].
  now rewrite dot_zero_feature, sigmoid_0.
Qed.

Lemma sink_walk :
  _get_stationary_distribution sink_demo
    (_get_transition_probability sink_demo [1 / 2] 0)
  = Ok (NonFinite, [Warning Primal 2 NonFinite]).
Proof.
  assert (HQ : _get_transition_probability sink_demo [1 / 2] 0
               = [[0; 0; 0]; [0; 0; 1]; [0; 0; 0]]).
  { unfold _get_transition_probability, normalize_l1_row. simpl.
    unfold Rabs, build. evaluate; same_entries. }
  rewrite HQ.
  set (Q := [[0; 0; 0]; [0; 0; 1]; [0; 0; 0]]).
  assert (H0 : uniform sink_demo = [1 / 3; 1 / 3; 1 / 3])
    by (unfold uniform; simpl; same_entries).
  assert (H1 : primal_step sink_demo Q [1 / 3; 1 / 3; 1 / 3]
               = Finite [0; 0; 1]) by eval_step.
  assert (H2 : _converged sink_demo [1 / 3; 1 / 3; 1 / 3] [0; 0; 1]
               = (false, 2 / 3)).
  { rewrite (converged_eval sink_demo _ _ (2 / 3)) by eval_delta.
    rewrite Rltb_false by (simpl; lra). reflexivity. }
  assert (H3 : primal_step sink_demo Q [0; 0; 1] = NonFinite) by eval_step.
  unfold _get_stationary_distribution.
  change (N sink_demo) with 3%nat. change (max_steps sink_demo) with 2%nat.
  rewrite H0. cbn [primal_loop ls_P]. rewrite H1, H2.
  cbn [primal_loop ls_P]. rewrite H3. reflexivity.
Qed.

Lemma steep_walk :
  _get_stationary_distribution steep_demo
    (_get_transition_probability steep_demo [1 / 2] 0)
  = Ok (Finite [6 / 5; 0; - (1 / 5)], [Warning Primal 1 (Finite (13 / 15))]).
Proof.
  assert (HQ : _get_transition_probability steep_demo [1 / 2] 0
               = [[2; 0; 0]; [2; 0; - 1]; [2; 0; 0]]).
  { unfold _get_transition_probability, normalize_l1_row. simpl.
    unfold Rabs, build. evaluate; same_entries. }
  rewrite HQ.
  set (Q := [[2; 0; 0]; [2; 0; - 1]; [2; 0; 0]]).
  assert (H0 : uniform steep_demo = [1 / 3; 1 / 3; 1 / 3])
    by (unfold uniform; simpl; same_entries).
  assert (H1 : primal_step steep_demo Q [1 / 3; 1 / 3; 1 / 3]
               = Finite [6 / 5; 0; - (1 / 5)]) by eval_step.
  assert (H2 : _converged steep_demo [1 / 3; 1 / 3; 1 / 3] [6 / 5; 0; - (1 / 5)]
               = (false, 13 / 15)).
  { rewrite (converged_eval steep_demo _ _ (13 / 15)) by eval_delta.
    rewrite Rltb_false by (simpl; lra). reflexivity. }
  unfold _get_stationary_distribution.
  change (N steep_demo) with 3%nat. change (max_steps steep_demo) with 1%nat.
  rewrite H0. cbn [primal_loop ls_P]. rewrite H1, H2. reflexivity.
Qed.

(** What [recommend] returns on a session whose edge strengths do not
    depend on the weights. *)
Lemma recommend_fixed_walk (iteritems : list (node * R) -> list (node * R))
    (self : SupervisedRWRecommender) (user : node) (n u : nat) (A : vec)
    (P : ndarray vec) (log : list diagnostic) (r : ndarray (list (node * R))) :
  trained self -> In user (nodes self) ->
  index_of user (nodes self) = Some u ->
  (forall w, fst (_get_edge_strength self w) = A) ->
  _get_stationary_distribution self (_get_transition_probability self A u)
  = Ok (P, log) ->
  returns (recommend iteritems self user n) r
  <-> r = match P with
          | Finite rank =>
              Finite (recommend_by_rank
                        (iteritems (rank_items self user rank)) n)
          | NonFinite => NonFinite
          end.
Proof.
  intros Ht Huser Hu HA HP. rewrite recommend_returns. split.
  - intros [u' [w [P' [log' [Hfit [HP' ->]]]]]].
    apply fit_returns in Hfit. rewrite Hu in Hfit. injection Hfit as <-.
    rewrite HA, HP in HP'. now injection HP' as <- _.
  - intros ->. exists u, (repeat 0 (M self)), P, log.
    split; [|split; [|reflexivity]].
    + apply fit_returns_any; auto. apply repeat_length.
    + now rewrite HA.
Qed.

(** C8 (the claim as stated fails).  Three sessions.  With two
    repositories of equal score and a dictionary that yields its items
    in the reverse of the order of insertion, [recommend] returns the
    repository of index 3 before that of index 2.  On the directed graph
    without teleportation the walk loses all its mass at the second step,
    the normalization divides by zero and the scores are not numbers.
    On the same graph with a teleport probability of 2 the score of the
    repository is negative. *)
Lemma recommend_ties_and_scores :
  (dict_order (@rev (node * R))
   /\ (forall r, returns (recommend (@rev _) tie_demo (User 0) 2) r
                 <-> r = Finite [(Repository 2, 0); (Repository 1, 0)])
   /\ index_of (Repository 1) (nodes tie_demo) = Some 2%nat
   /\ index_of (Repository 2) (nodes tie_demo) = Some 3%nat
   /\ ~ ForallOrdPairs (ranked_before (nodes tie_demo))
          [(Repository 2, 0); (Repository 1, 0)])
  /\ (forall iteritems r,
        returns (recommend iteritems sink_demo (User 0) 1) r
        <-> r = NonFinite)
  /\ (forall r,
        returns (recommend (fun items => items) steep_demo (User 0) 1) r
        <-> r = Finite [(Repository 0, - (1 / 5))])
  /\ - (1 / 5) < 0.
Proof.
  split; [|split; [|split; [|lra]]].
  - split; [intros items; apply Permutation_rev|].
    split; [|split; [reflexivity|split; [reflexivity|]]].
    + intros r.
      rewrite (recommend_fixed_walk (@rev _) tie_demo (User 0) 2 0
                 [1 / 2; 1 / 2] (Finite [5 / 6; 1 / 6; 0; 0])
                 [Warning Primal 1 (Finite (7 / 12))] r tie_trained);
        [| simpl; auto | reflexivity | exact tie_edge_strength
         | exact tie_walk].
      replace (recommend_by_rank
                 (rev (rank_items tie_demo (User 0) [5 / 6; 1 / 6; 0; 0])) 2)
        with [(Repository 2, 0); (Repository 1, 0)]; [reflexivity|].
      unfold recommend_by_rank, sort_by_score. simpl.
      decide_reals. reflexivity.
    + intros H. inversion H as [|x l Hx _]; subst.
      inversion Hx as [|y l' Hxy _]; subst.
      destruct Hxy as [Hlt|[_ [i [j [Hi [Hj Hij]]]]]].
      * simpl in Hlt. lra.
      * vm_compute in Hi, Hj. injection Hi as <-. injection Hj as <-. lia.
  - intros iteritems r.
    apply (recommend_fixed_walk iteritems sink_demo (User 0) 1 0 [1 / 2]
             NonFinite [Warning Primal 2 NonFinite] r sink_trained);
      [simpl; auto | reflexivity | exact sink_edge_strength | exact sink_walk].
  - intros r.
    rewrite (recommend_fixed_walk _ steep_demo (User 0) 1 0 [1 / 2]
               (Finite [6 / 5; 0; - (1 / 5)])
               [Warning Primal 1 (Finite (13 / 15))] r steep_trained);
      [| simpl; auto | reflexivity | exact steep_edge_strength
       | exact steep_walk].
    reflexivity.
Qed.

(** ** The claims on the sample sessions *)


Lemma transition_rows_sum_demo :
  let A := [1 / 2; 1 / 2; 1 / 2; 1 / 2] in
  let F := coo_matrix (N demo) (row demo) (col demo) A in
  let Q := _get_transition_probability demo A 0 in
  square (N demo) Q /\
  forall i, (i < N demo)%nat ->
    row_sum (nth i Q [])
    = if Req_dec_T (row_sum (nth i F [])) 0 then alpha demo else 1.
Proof.
  apply (transition_rows_sum demo [1 / 2; 1 / 2; 1 / 2; 1 / 2] 0
           demo_shapes_ok).
  - reflexivity.
  - repeat constructor; lra.
  - simpl. lia.
Defined.

Lemma demo_Q_walkable : walkable (N demo) demo_Q.
Proof.
  split; [|split].
  - split; [reflexivity | repeat constructor].
  - repeat constructor; lra.
  - unfold demo_Q, row_sum. repeat constructor; simpl; lra.
Qed.

Lemma stationary_distribution_sums_to_one_demo :
  exists P log,
    _get_stationary_distribution demo demo_Q = Ok (Finite P, log)
    /\ vsum P = 1.
Proof.
  apply (stationary_distribution_sums_to_one demo demo_Q).
  - simpl. lia.
  - exact demo_Q_walkable.
Defined.

Lemma uniform_demo : uniform demo = [1 / 4; 1 / 4; 1 / 4; 1 / 4].
Proof. unfold uniform; simpl; same_entries. Qed.

Lemma demo_first_step :
  primal_step demo demo_Q [1 / 4; 1 / 4; 1 / 4; 1 / 4]
  = Finite [6 / 7; 1 / 14; 1 / 14; 0].
Proof. unfold demo_Q. eval_step. Qed.

Lemma demo_first_delta (self : SupervisedRWRecommender) :
  snd (_converged self [1 / 4; 1 / 4; 1 / 4; 1 / 4]
         [6 / 7; 1 / 14; 1 / 14; 0]) = 17 / 28.
Proof.
  rewrite (converged_eval self _ _ (17 / 28)) by eval_delta. reflexivity.
Qed.

(** In the small session the first step moves the vector by 17/28, more
    than the tolerance: the loop runs out of steps. *)
Lemma demo_never_converges (j : nat) :
  (j < max_steps demo)%nat ->
  primal_converged_at demo demo_Q (uniform demo) j = false.
Proof.
  intros Hj. assert (j = O) by (simpl in Hj; lia). subst j.
  unfold primal_converged_at, primal_delta_at. cbn [primal_iterate].
  rewrite uniform_demo, demo_first_step, demo_first_delta.
  apply Rltb_false. simpl. lra.
Qed.



Lemma lonely_graph_ok : well_formed lonely_graph.
Proof. constructor; [nodup_nodes | intros u; constructor | intros u v []]. Qed.

Lemma lonely_trained : trained lonely_demo.
Proof.
  constructor; simpl; try reflexivity; [apply lonely_graph_ok | nodup_nodes].
Qed.

Lemma fit_without_neighbours_demo :
  exists u,
    index_of (User 0) (nodes lonely_demo) = Some u
    /\ (forall e, ~ raises (fit lonely_demo (User 0)) e)
    /\ optimizes (fit lonely_demo (User 0))
    /\ (forall w0, length w0 = M lonely_demo ->
          hands_over (fit lonely_demo (User 0))
                     (fun w => _loss_function lonely_demo w u []) w0)
    /\ (forall r, returns (fit lonely_demo (User 0)) r
                  <-> exists w, length w = M lonely_demo /\ r = (u, w))
    /\ (forall w P log dQ,
          let A := fst (_get_edge_strength lonely_demo w) in
          let dA := snd (_get_edge_strength lonely_demo w) in
          let Q := _get_transition_probability lonely_demo A u in
          _get_stationary_distribution lonely_demo Q = Ok (Finite P, log) ->
          all_finite (_get_transition_probability_derivative lonely_demo A dA)
          = Finite dQ ->
          _loss_function lonely_demo w u []
          = Ok (Finite (sq_norm w,
                        build (M lonely_demo) (fun m => 2 * vget w m)))).
Proof.
  apply (fit_without_neighbours lonely_demo (User 0) lonely_trained).
  - simpl. auto.
  - reflexivity.
Defined.

(** * Further properties of the walk *)

(** ** The derivative of the transition matrix *)

Lemma all_finite_nth {A : Type} (l : list (ndarray A)) (r : list A) :
  all_finite l = Finite r ->
  length r = length l
  /\ forall i d, (i < length l)%nat -> nth i l NonFinite = Finite (nth i r d).
Proof.
  revert r. induction l as [|a l IH]; intros r H; simpl in H.
  - injection H as <-. split; [reflexivity|]. intros i d Hi. simpl in Hi. lia.
  - destruct a as [a|]; [|discriminate].
    destruct (all_finite l) as [r'|]; [|discriminate].
    injection H as <-. destruct (IH r' eq_refl) as [Hlen Hnth].
    split; [simpl; now rewrite Hlen|].
    intros [|i] d Hi; simpl; [reflexivity|]. apply Hnth. simpl in Hi. lia.
Qed.

Lemma vsum_map_scal_l (c : R) (v : vec) :
  vsum (map (fun x => c * x) v) = c * vsum v.
Proof. induction v as [|x v IH]; simpl; [lra | rewrite IH; lra]. Qed.

Lemma forallb_is_zero (v : vec) :
  forallb is_zero v = true -> Forall (fun x => x = 0) v.
Proof.
  induction v as [|x v IH]; simpl; intros H; [constructor|].
  apply andb_true_iff in H. destruct H as [Hx Hv].
  constructor; [|now apply IH].
  unfold is_zero in Hx. now destruct (Req_dec_T x 0).
Qed.

Lemma vsum_all_zero (v : vec) : Forall (fun x => x = 0) v -> vsum v = 0.
Proof. induction 1 as [|x v Hx _ IH]; simpl; [reflexivity | lra]. Qed.

(** The numerator of the quotient rule sums to zero along a row. *)
Lemma dQ_numerator_sum (Frow dFrow : vec) :
  length Frow = length dFrow ->
  vsum (dQ_numerator (vsum Frow) (vsum dFrow) Frow dFrow) = 0.
Proof.
  intros Hlen. unfold dQ_numerator.
  assert (H : forall a b, vsum (map (fun p : R * R => a * snd p - b * fst p)
                                    (combine Frow dFrow))
                          = a * vsum dFrow - b * vsum Frow).
  { intros a b. revert dFrow Hlen.
    induction Frow as [|x Frow IH]; intros [|y dFrow] Hlen;
      try discriminate; simpl; [lra|].
    rewrite IH by (simpl in Hlen; lia). lra. }
  rewrite H. lra.
Qed.

Lemma dQ_row_sum (Frow dFrow r : vec) :
  length Frow = length dFrow ->
  dQ_row (row_sum dFrow)
         (dQ_numerator (row_sum Frow) (row_sum dFrow) Frow dFrow) = Finite r ->
  vsum r = 0.
Proof.
  intros Hlen. unfold dQ_row, row_sum.
  destruct (forallb is_zero _) eqn:Hz.
  - intros H. injection H as <-. now apply dQ_numerator_sum.
  - destruct (Req_dec_T (vsum dFrow) 0); [discriminate|].
    intros H. injection H as <-.
    rewrite vsum_map_scal_l, dQ_numerator_sum by assumption. lra.
Qed.

Lemma coo_rows_length (n : nat) (rows cols : list nat) (data : vec) (i : nat) :
  (i < n)%nat -> length (nth i (coo_matrix n rows cols data) []) = n.
Proof.
  intros Hi. unfold coo_matrix. rewrite nth_build2 by assumption.
  apply length_build.
Qed.

(** Row [i] of a finite [dQ[m]], from rows [i] of [F] and [dF_m]. *)
Lemma dQ_m_row (self : SupervisedRWRecommender) (F : matrix) (dAm : vec)
    (dQm : matrix) (i : nat) :
  length F = N self -> (i < N self)%nat ->
  dQ_m self F dAm = Finite dQm ->
  exists r,
    dQ_row (row_sum (nth i (coo_matrix (N self) (row self) (col self) dAm) []))
      (dQ_numerator (row_sum (nth i F []))
         (row_sum (nth i (coo_matrix (N self) (row self) (col self) dAm) []))
         (nth i F [])
         (nth i (coo_matrix (N self) (row self) (col self) dAm) []))
    = Finite r
    /\ nth i dQm [] = map (fun x => x * (1 - alpha self)) r.
Proof.
  intros HF Hi. unfold dQ_m.
  set (dFm := coo_matrix (N self) (row self) (col self) dAm).
  set (rows := map _ (combine F dFm)).
  destruct (all_finite rows) as [dQ|] eqn:Hall; [|discriminate].
  intros H. injection H as <-.
  destruct (all_finite_nth rows dQ Hall) as [Hlen Hnth].
  assert (HdF : length dFm = N self) by apply length_build2.
  assert (Hrows : length rows = N self).
  { unfold rows. rewrite length_map, length_combine. lia. }
  exists (nth i dQ []). split.
  - rewrite <- (Hnth i []) by lia. unfold rows.
    rewrite (nth_map_lt _ _ _ _ ([], [])) by (rewrite length_combine; lia).
    rewrite combine_nth by lia. reflexivity.
  - apply nth_map_lt. lia.
Qed.

(** X1.  Every row of a finite [dQ[m]] sums to zero, as the derivative of
    a row that keeps its sum must. *)
Theorem transition_derivative_rows_sum_to_zero
    (self : SupervisedRWRecommender) (A : vec) (dA : list (list R))
    (m : nat) (dQm : matrix) (i : nat) :
  (m < M self)%nat -> (i < N self)%nat ->
  nth m (_get_transition_probability_derivative self A dA) NonFinite
  = Finite dQm ->
  row_sum (nth i dQm []) = 0.
Proof.
  intros Hm Hi. unfold _get_transition_probability_derivative.
  rewrite (nth_map_lt _ _ _ _ O) by now rewrite length_seq.
  rewrite seq_nth by assumption. simpl. intros H.
  destruct (dQ_m_row self _ _ dQm i (length_build2 _ _) Hi H) as [r [Hr ->]].
  unfold row_sum. rewrite vsum_map_scal.
  assert (Hz : vsum r = 0).
  { eapply dQ_row_sum; [|exact Hr].
    fold (coo_matrix (N self) (row self) (col self) A).
    now rewrite !coo_rows_length. }
  rewrite Hz. lra.
Qed.

Lemma transition_derivative_rows_sum_to_zero_demo :
  row_sum (nth 0 [[0; - (1 / 9); 1 / 9; 0];
                  [0; 0; 0; 0]; [0; 0; 0; 0]; [0; 0; 0; 0]] []) = 0.
Proof.
  apply (transition_derivative_rows_sum_to_zero demo
           [1 / 2; 1 / 2; 1 / 2; 1 / 2] [[1 / 4]; [1 / 2]; [1 / 4]; [1 / 2]]
           0 _ 0).
  - simpl. lia.
  - simpl. lia.
  - rewrite demo_transition_derivative. reflexivity.
Defined.

Lemma Forall_zero_forallb (v : vec) :
  Forall (fun x => x = 0) v -> forallb is_zero v = true.
Proof.
  induction 1 as [|x v Hx _ IH]; simpl; [reflexivity|].
  rewrite IH, andb_true_r. unfold is_zero.
  destruct (Req_dec_T x 0); [reflexivity | contradiction].
Qed.

Lemma Forall_zero_repeat (v : vec) :
  Forall (fun x => x = 0) v -> v = repeat 0 (length v).
Proof. induction 1 as [|x v Hx _ IH]; simpl; [reflexivity | congruence]. Qed.

(** Non-negative numbers that sum to zero are zeros. *)
Lemma nonneg_sum_zero (v : vec) :
  Forall (fun x => 0 <= x) v -> vsum v = 0 -> Forall (fun x => x = 0) v.
Proof.
  induction 1 as [|x v Hx Hv IH]; simpl; intros Hs; [constructor|].
  pose proof (vsum_nonneg v Hv). constructor; [lra | apply IH; lra].
Qed.

Lemma dQ_numerator_zero_row (sdF : R) (Frow dFrow : vec) :
  Forall (fun x => x = 0) Frow ->
  Forall (fun x => x = 0) (dQ_numerator 0 sdF Frow dFrow).
Proof.
  intros HF. unfold dQ_numerator. apply Forall_forall. intros y Hy.
  apply in_map_iff in Hy. destruct Hy as [[a b] [<- Hab]].
  apply in_combine_l in Hab. rewrite Forall_forall in HF.
  rewrite (HF a Hab). simpl. lra.
Qed.

Lemma length_dQ_numerator (a b : R) (Frow dFrow : vec) :
  length Frow = length dFrow ->
  length (dQ_numerator a b Frow dFrow) = length Frow.
Proof.
  intros H. unfold dQ_numerator. rewrite length_map, length_combine. lia.
Qed.

Lemma coo_row_nonneg (n : nat) (rows cols : list nat) (data : vec) (i : nat) :
  (i < n)%nat -> Forall (fun a => 0 <= a) data ->
  Forall (fun x => 0 <= x) (nth i (coo_matrix n rows cols data) []).
Proof.
  intros Hi Hd. unfold coo_matrix. rewrite nth_build2 by assumption.
  apply Forall_build. intros j _. now apply coo_entry_nonneg.
Qed.

(** X2.  For non-negative strengths, a row of [F] that sums to zero (a
    node without outgoing strength) is an all-zero row of every finite
    [dQ[m]]: the division by zero of line 87 does not reach it. *)
Theorem transition_derivative_zero_mass_row
    (self : SupervisedRWRecommender) (A : vec) (dA : list (list R))
    (m : nat) (dQm : matrix) (i : nat) :
  Forall (fun a => 0 <= a) A -> (m < M self)%nat -> (i < N self)%nat ->
  row_sum (nth i (coo_matrix (N self) (row self) (col self) A) []) = 0 ->
  nth m (_get_transition_probability_derivative self A dA) NonFinite
  = Finite dQm ->
  nth i dQm [] = repeat 0 (N self).
Proof.
  intros HA Hm Hi Hmass. unfold _get_transition_probability_derivative.
  rewrite (nth_map_lt _ _ _ _ O) by now rewrite length_seq.
  rewrite seq_nth by assumption. simpl. intros H.
  destruct (dQ_m_row self _ _ dQm i (length_build2 _ _) Hi H) as [r [Hr ->]].
  fold (coo_matrix (N self) (row self) (col self) A) in Hr.
  set (Frow := nth i (coo_matrix (N self) (row self) (col self) A) []) in *.
  set (dFrow := nth i (coo_matrix (N self) (row self) (col self)
                         (column m dA)) []) in *.
  assert (HF0 : Forall (fun x => x = 0) Frow).
  { apply nonneg_sum_zero; [now apply coo_row_nonneg | exact Hmass]. }
  rewrite Hmass in Hr.
  pose proof (dQ_numerator_zero_row (row_sum dFrow) Frow dFrow HF0) as Hnum.
  unfold dQ_row in Hr. rewrite (Forall_zero_forallb _ Hnum) in Hr.
  injection Hr as <-.
  assert (Hlen : length (dQ_numerator 0 (row_sum dFrow) Frow dFrow) = N self).
  { rewrite length_dQ_numerator; unfold Frow, dFrow;
      now rewrite !coo_rows_length. }
  assert (Hzero : Forall (fun x => x = 0)
                    (map (fun x => x * (1 - alpha self))
                       (dQ_numerator 0 (row_sum dFrow) Frow dFrow))).
  { apply Forall_forall. intros y Hy.
    apply in_map_iff in Hy. destruct Hy as [x [<- Hx]].
    rewrite Forall_forall in Hnum. rewrite (Hnum x Hx). lra. }
  rewrite (Forall_zero_repeat _ Hzero), length_map, Hlen. reflexivity.
Qed.

Lemma transition_derivative_zero_mass_row_demo :
  nth 3 [[0; - (1 / 9); 1 / 9; 0];
         [0; 0; 0; 0]; [0; 0; 0; 0]; [0; 0; 0; 0]] [] = repeat 0 (N demo).
Proof.
  apply (transition_derivative_zero_mass_row demo
           [1 / 2; 1 / 2; 1 / 2; 1 / 2] [[1 / 4]; [1 / 2]; [1 / 4]; [1 / 2]]
           0 _ 3).
  - repeat constructor; lra.
  - simpl. lia.
  - simpl. lia.
  - unfold row_sum. simpl. lra.
  - rewrite demo_transition_derivative. reflexivity.
Defined.

Lemma all_finite_total {A : Type} (l : list (ndarray A)) :
  Forall (fun x => exists a, x = Finite a) l ->
  exists r, all_finite l = Finite r.
Proof.
  induction 1 as [|x l [a ->] _ [r IH]]; simpl; [now exists []|].
  rewrite IH. now exists (a :: r).
Qed.

(** X3.  [dQ[m]] is finite as soon as every row of [dF_m] has a non-zero
    sum or belongs to a node without outgoing strength: these are the
    rows on which line 87 does not divide by zero, or divides nothing. *)
Theorem transition_derivative_finite
    (self : SupervisedRWRecommender) (A : vec) (dA : list (list R))
    (m : nat) :
  Forall (fun a => 0 <= a) A -> (m < M self)%nat ->
  (forall i, (i < N self)%nat ->
     row_sum (nth i (coo_matrix (N self) (row self) (col self) A) []) = 0
     \/ row_sum (nth i (coo_matrix (N self) (row self) (col self)
                          (column m dA)) []) <> 0) ->
  exists dQm,
    nth m (_get_transition_probability_derivative self A dA) NonFinite
    = Finite dQm.
Proof.
  intros HA Hm Hrows. unfold _get_transition_probability_derivative.
  rewrite (nth_map_lt _ _ _ _ O) by now rewrite length_seq.
  rewrite seq_nth by assumption. simpl. unfold dQ_m.
  set (F := coo_matrix (N self) (row self) (col self) A).
  set (dFm := coo_matrix (N self) (row self) (col self) (column m dA)).
  set (rows := map _ (combine F dFm)).
  destruct (all_finite_total rows) as [dQ ->]; [|eauto].
  assert (HF : length F = N self) by apply length_build2.
  assert (HdF : length dFm = N self) by apply length_build2.
  apply Forall_forall. intros x Hx. apply (In_nth _ _ NonFinite) in Hx.
  destruct Hx as [i [Hi <-]]. unfold rows in *.
  rewrite length_map, length_combine in Hi.
  rewrite (nth_map_lt _ _ _ _ ([], [])) by (rewrite length_combine; lia).
  rewrite combine_nth by lia. cbn [fst snd].
  unfold dQ_row. destruct (forallb is_zero _) eqn:Hz; [eauto|].
  destruct (Req_dec_T (row_sum (nth i dFm [])) 0) as [Hzero|Hnz]; [|eauto].
  exfalso. destruct (Hrows i) as [Hmass|Hne]; [lia| |contradiction].
  fold F in Hmass. rewrite Hmass in Hz.
  rewrite Forall_zero_forallb in Hz; [discriminate|].
  apply dQ_numerator_zero_row, nonneg_sum_zero; [|exact Hmass].
  apply coo_row_nonneg; [lia | exact HA].
Qed.

Lemma transition_derivative_finite_follow :
  exists dQm,
    nth 0 (_get_transition_probability_derivative follow_demo [1 / 2]
             [[1 / 4]]) NonFinite = Finite dQm.
Proof.
  apply (transition_derivative_finite follow_demo [1 / 2] [[1 / 4]] 0).
  - repeat constructor; lra.
  - simpl. lia.
  - intros i Hi. simpl in Hi.
    destruct i as [|[|i]]; [right | left | lia]; unfold row_sum; simpl; lra.
Defined.

(** ** A feature that is zero on every edge *)

Lemma coo_entry_zero (rows cols : list nat) (data : vec) (i j : nat) :
  Forall (fun a => a = 0) data -> coo_entry rows cols data i j = 0.
Proof.
  intros H. revert rows cols.
  induction H as [|a data Ha _ IH]; intros [|r rows] [|c cols]; simpl;
    try reflexivity.
  rewrite IH, Ha. destruct ((r =? i)%nat && (c =? j)%nat)%bool; lra.
Qed.

Lemma build_zero (n : nat) (f : nat -> R) :
  (forall i, (i < n)%nat -> f i = 0) -> build n f = repeat 0 n.
Proof.
  intros H. rewrite (build_ext n f (fun _ => 0) H). unfold build.
  rewrite map_const, length_seq. reflexivity.
Qed.

Lemma all_finite_repeat {A : Type} (a : A) (n : nat) :
  all_finite (repeat (Finite a) n) = Finite (repeat a n).
Proof. induction n as [|n IH]; simpl; [reflexivity | now rewrite IH]. Qed.

Lemma vget_repeat_zero (n i : nat) : vget (repeat 0 n) i = 0.
Proof.
  unfold vget. destruct (Nat.lt_ge_cases i n).
  - now apply nth_repeat_lt.
  - apply nth_overflow. now rewrite repeat_length.
Qed.

Lemma mget_repeat_zero (n i j : nat) : mget (repeat (repeat 0 n) n) i j = 0.
Proof.
  unfold mget. destruct (Nat.lt_ge_cases i n).
  - rewrite nth_repeat_lt by assumption. apply vget_repeat_zero.
  - rewrite (nth_overflow (repeat (repeat 0 n) n))
      by now rewrite repeat_length.
    now destruct j.
Qed.

(** The derivative matrix of a strength derivative that vanishes on
    every edge is the zero matrix. *)
Lemma dQ_m_zero (self : SupervisedRWRecommender) (A dAm : vec) :
  Forall (fun a => a = 0) dAm ->
  dQ_m self (coo_matrix (N self) (row self) (col self) A) dAm
  = Finite (repeat (repeat 0 (N self)) (N self)).
Proof.
  intros HdA. unfold dQ_m.
  set (F := coo_matrix (N self) (row self) (col self) A).
  assert (HdF : coo_matrix (N self) (row self) (col self) dAm
                = repeat (repeat 0 (N self)) (N self)).
  { unfold coo_matrix, build2.
    rewrite (map_ext_in _ (fun _ => repeat 0 (N self))).
    - now rewrite map_const, length_seq.
    - intros i _. apply build_zero. intros j _. now apply coo_entry_zero. }
  rewrite HdF.
  set (rows := map _ (combine F _)).
  assert (Hrows : rows = repeat (Finite (repeat 0 (N self))) (N self)).
  { unfold rows.
    rewrite (map_ext_in _ (fun _ => Finite (repeat 0 (N self)))).
    - rewrite map_const, length_combine, repeat_length.
      unfold F, coo_matrix. rewrite length_build2, Nat.min_id. reflexivity.
    - intros [Frow dFrow] Hp. cbn [fst snd].
      pose proof (in_combine_l _ _ _ _ Hp) as HF.
      pose proof (in_combine_r _ _ _ _ Hp) as HdFrow.
      apply repeat_spec in HdFrow. subst dFrow.
      assert (HFlen : length Frow = N self).
      { destruct (square_build2 (N self)
                    (coo_entry (row self) (col self) A)) as [_ Hsq].
        rewrite Forall_forall in Hsq. now apply Hsq. }
      unfold row_sum. rewrite vsum_repeat, Rmult_0_r.
      assert (Hnum : Forall (fun x => x = 0)
                (dQ_numerator (vsum Frow) 0 Frow (repeat 0 (N self)))).
      { unfold dQ_numerator. apply Forall_forall. intros y Hy.
        apply in_map_iff in Hy. destruct Hy as [[a b] [<- Hab]].
        apply in_combine_r, repeat_spec in Hab. subst b. simpl. lra. }
      unfold dQ_row. rewrite (Forall_zero_forallb _ Hnum). f_equal.
      rewrite (Forall_zero_repeat _ Hnum).
      rewrite length_dQ_numerator by now rewrite repeat_length.
      now rewrite HFlen. }
  rewrite Hrows, all_finite_repeat. f_equal.
  rewrite map_repeat, map_repeat, Rmult_0_l. reflexivity.
Qed.

(** X4.  A feature that is zero on every edge has the zero matrix for
    [dQ[m]], whatever the weights. *)
Theorem zero_feature_zero_derivative (self : SupervisedRWRecommender)
    (w : vec) (m : nat) :
  (m < M self)%nat ->
  Forall (fun f => nth m f 0 = 0) (features self) ->
  let A := fst (_get_edge_strength self w) in
  let dA := snd (_get_edge_strength self w) in
  nth m (_get_transition_probability_derivative self A dA) NonFinite
  = Finite (repeat (repeat 0 (N self)) (N self)).
Proof.
  intros Hm Hf A dA. unfold _get_transition_probability_derivative.
  rewrite (nth_map_lt _ _ _ _ O) by now rewrite length_seq.
  rewrite seq_nth by assumption. simpl. apply dQ_m_zero.
  unfold column, dA, _get_edge_strength. cbn [snd].
  apply Forall_forall. intros y Hy. apply in_map_iff in Hy.
  destruct Hy as [r [<- Hr]]. apply in_map_iff in Hr.
  destruct Hr as [[a f] [<- Haf]]. apply in_combine_r in Haf. cbn [fst snd].
  rewrite Forall_forall in Hf. specialize (Hf f Haf).
  destruct (Nat.lt_ge_cases m (length f)) as [Hlt|Hge].
  - rewrite (nth_map_lt _ _ _ _ 0) by assumption. rewrite Hf. lra.
  - apply nth_overflow. now rewrite length_map.
Qed.

Lemma zero_feature_zero_derivative_flat :
  nth 1 (_get_transition_probability_derivative flat_demo
           (fst (_get_edge_strength flat_demo [1; 3]))
           (snd (_get_edge_strength flat_demo [1; 3]))) NonFinite
  = Finite (repeat (repeat 0 (N flat_demo)) (N flat_demo)).
Proof.
  apply (zero_feature_zero_derivative flat_demo [1; 3] 1).
  - simpl. lia.
  - repeat constructor.
Defined.

Lemma derivative_step_zero (n : nat) (P : vec) (Q : matrix) :
  derivative_step n P Q (repeat (repeat 0 n) n) (repeat 0 n) = repeat 0 n.
Proof.
  unfold derivative_step. apply build_zero. intros j _.
  apply sum_upto_zero. intros i _.
  rewrite vget_repeat_zero, mget_repeat_zero. lra.
Qed.

Lemma derivative_loop_zero (self : SupervisedRWRecommender) (P : vec)
    (Q : matrix) (n : nat) :
  forall (c : bool) (d : R),
  ds_dP (derivative_loop self P Q (repeat (repeat 0 (N self)) (N self)) n
           (DLoopState (repeat 0 (N self)) c d))
  = repeat 0 (N self).
Proof.
  induction n as [|n IH]; intros c d; [reflexivity|].
  simpl. rewrite derivative_step_zero.
  destruct (Rltb _ _); [reflexivity | apply IH].
Qed.

(** X5.  Where [dQ[m]] is the zero matrix, column [m] of [dP] is zero,
    for every tolerance and every number of steps, whatever the other
    features do. *)
Theorem zero_derivative_matrix_zero_column
    (self : SupervisedRWRecommender) (P : vec) (Q : matrix)
    (dQ : list matrix) (m : nat) :
  (m < M self)%nat ->
  nth m dQ [] = repeat (repeat 0 (N self)) (N self) ->
  column m (fst (_get_stationary_distribution_derivative self P Q dQ))
  = repeat 0 (N self).
Proof.
  intros Hm HdQ. rewrite derivative_solver_column by assumption.
  rewrite HdQ. unfold derivative_column. cbn [fst].
  apply derivative_loop_zero.
Qed.

Lemma zero_derivative_matrix_zero_column_lonely :
  column 0 (fst (_get_stationary_distribution_derivative lonely_demo
                   [1 / 2; 1 / 2] [[1; 0]; [1; 0]]
                   [repeat (repeat 0 2) 2]))
  = repeat 0 (N lonely_demo).
Proof.
  apply (zero_derivative_matrix_zero_column lonely_demo).
  - simpl. lia.
  - reflexivity.
Defined.

(** ** The derivative of a probability vector sums to zero *)

Lemma derivative_step_sum (n : nat) (P : vec) (Q dQm : matrix) (dP : vec) :
  length dP = n ->
  (forall i, (i < n)%nat -> sum_upto n (fun j => mget Q i j) = 1) ->
  (forall i, (i < n)%nat -> sum_upto n (fun j => mget dQm i j) = 0) ->
  vsum (derivative_step n P Q dQm dP) = vsum dP.
Proof.
  intros Hlen HQ HdQ. unfold derivative_step.
  rewrite vsum_build, <- sum_upto_swap.
  rewrite vsum_sum_upto, Hlen. apply sum_upto_ext. intros i Hi.
  rewrite sum_upto_plus.
  rewrite (sum_upto_scal n (vget dP i) (fun j => mget Q i j)).
  rewrite (sum_upto_scal n (vget P i) (fun j => mget dQm i j)).
  rewrite HQ, HdQ by assumption. lra.
Qed.

Lemma derivative_loop_sum (self : SupervisedRWRecommender) (P : vec)
    (Q dQm : matrix) (n : nat) :
  (forall i, (i < N self)%nat ->
     sum_upto (N self) (fun j => mget Q i j) = 1) ->
  (forall i, (i < N self)%nat ->
     sum_upto (N self) (fun j => mget dQm i j) = 0) ->
  forall st, length (ds_dP st) = N self -> vsum (ds_dP st) = 0 ->
  vsum (ds_dP (derivative_loop self P Q dQm n st)) = 0.
Proof.
  intros HQ HdQ. induction n as [|n IH]; intros st Hlen Hsum; [assumption|].
  simpl. destruct (Rltb _ _); [assumption|].
  apply IH; simpl; [apply length_build|].
  now rewrite derivative_step_sum.
Qed.

(** X6.  Along a matrix whose rows all sum to 1, with a derivative matrix
    whose rows sum to zero, every column of [dP] sums to zero: the
    derivative of a vector that keeps summing to 1. *)
Theorem stationary_derivative_sums_to_zero
    (self : SupervisedRWRecommender) (P : vec) (Q : matrix)
    (dQ : list matrix) (m : nat) :
  (m < M self)%nat ->
  (forall i, (i < N self)%nat ->
     sum_upto (N self) (fun j => mget Q i j) = 1) ->
  (forall i, (i < N self)%nat ->
     sum_upto (N self) (fun j => mget (nth m dQ []) i j) = 0) ->
  vsum (column m (fst (_get_stationary_distribution_derivative self P Q dQ)))
  = 0.
Proof.
  intros Hm HQ HdQ. rewrite derivative_solver_column by assumption.
  unfold derivative_column. cbn [fst].
  apply derivative_loop_sum; try assumption; simpl.
  - apply repeat_length.
  - rewrite vsum_repeat. lra.
Qed.

Lemma stationary_derivative_sums_to_zero_demo :
  vsum (column 0
          (fst (_get_stationary_distribution_derivative demo
                  [1 / 4; 1 / 4; 1 / 4; 1 / 4]
                  [[0; 1 / 2; 1 / 2; 0]; [1; 0; 0; 0]; [1; 0; 0; 0];
                   [1; 0; 0; 0]]
                  [[[0; - (1 / 9); 1 / 9; 0];
                    [0; 0; 0; 0]; [0; 0; 0; 0]; [0; 0; 0; 0]]]))) = 0.
Proof.
  apply (stationary_derivative_sums_to_zero demo).
  - simpl. lia.
  - intros i Hi. simpl in Hi.
    destruct i as [|[|[|[|i]]]]; try lia; unfold sum_upto, mget; simpl; lra.
  - intros i Hi. simpl in Hi.
    destruct i as [|[|[|[|i]]]]; try lia; unfold sum_upto, mget; simpl; lra.
Defined.

(** ** Transition probabilities and scores are probabilities *)

Lemma mget_add_at (j : nat) (a : R) (r : vec) :
  (j < length r)%nat -> nth j (add_at j a r) 0 = nth j r 0 + a.
Proof.
  revert j. induction r as [|x r IH]; intros [|j] Hj; simpl in *; try lia.
  - reflexivity.
  - apply IH. lia.
Qed.

(** X7.  With a teleport probability in [0, 1] and non-negative
    strengths, every entry of the transition matrix lies in [0, 1] and
    every entry of the root's column is at least [alpha]. *)
Theorem transition_entries_are_probabilities
    (self : SupervisedRWRecommender) (A : vec) (root i j : nat) :
  0 <= alpha self <= 1 -> Forall (fun a => 0 <= a) A ->
  (root < N self)%nat -> (i < N self)%nat -> (j < N self)%nat ->
  let Q := _get_transition_probability self A root in
  0 <= mget Q i j <= 1 /\ alpha self <= mget Q i root.
Proof.
  intros Halpha HA Hroot Hi Hj Q. subst Q. unfold mget.
  rewrite transition_row by assumption.
  set (r := build (N self) (coo_entry (row self) (col self) A i)).
  assert (Hr : Forall (fun x => 0 <= x) r).
  { apply Forall_build. intros k _. now apply coo_entry_nonneg. }
  set (s := map (fun x => x * (1 - alpha self)) (normalize_l1_row r)).
  assert (Hs : Forall (fun x => 0 <= x) s).
  { apply Forall_forall. intros y Hy. apply in_map_iff in Hy.
    destruct Hy as [x [<- Hx]].
    pose proof (normalize_l1_row_nonneg r Hr) as Hn.
    rewrite Forall_forall in Hn. apply Rmult_le_pos; [now apply Hn | lra]. }
  assert (Hlen : length s = N self).
  { unfold s, r. now rewrite length_map, length_normalize_l1_row,
      length_build. }
  assert (Hq : Forall (fun x => 0 <= x) (add_at root (alpha self) s))
    by (apply add_at_nonneg; [lra | exact Hs]).
  assert (Hsum : vsum (add_at root (alpha self) s) <= 1).
  { rewrite vsum_add_at by lia. unfold s.
    rewrite vsum_map_scal, normalize_l1_row_sum by assumption.
    destruct (Req_dec_T (vsum r) 0); lra. }
  assert (Hlen' : length (add_at root (alpha self) s) = N self)
    by now rewrite length_add_at.
  split; [split|].
  - rewrite Forall_forall in Hq. apply Hq, nth_In. lia.
  - eapply Rle_trans; [|exact Hsum].
    rewrite vsum_sum_upto.
    apply (sum_upto_term_le _ (vget (add_at root (alpha self) s)) j);
      [|lia].
    intros k Hk. rewrite Forall_forall in Hq. now apply Hq, nth_In.
  - rewrite mget_add_at by lia.
    rewrite Forall_forall in Hs.
    assert (0 <= nth root s 0) by (apply Hs, nth_In; lia). lra.
Qed.

Lemma transition_entries_are_probabilities_demo :
  let Q := _get_transition_probability demo [1 / 2; 1 / 2; 1 / 2; 1 / 2] 0 in
  0 <= mget Q 1 2 <= 1 /\ alpha demo <= mget Q 1 0.
Proof.
  apply (transition_entries_are_probabilities demo
           [1 / 2; 1 / 2; 1 / 2; 1 / 2] 0 1 2).
  - simpl. lra.
  - repeat constructor; lra.
  - simpl. lia.
  - simpl. lia.
  - simpl. lia.
Defined.

(** X8.  With a teleport probability in (0, 1], whatever the weights and
    the root, the walk built from the edge strengths has a finite
    stationary distribution: the solver returns N numbers in [0, 1] that
    sum to 1. *)
Theorem scores_are_probabilities (self : SupervisedRWRecommender)
    (w : vec) (root : nat) :
  0 < alpha self <= 1 -> (root < N self)%nat ->
  let A := fst (_get_edge_strength self w) in
  let Q := _get_transition_probability self A root in
  exists P log,
    _get_stationary_distribution self Q = Ok (Finite P, log)
    /\ length P = N self
    /\ Forall (fun x => 0 <= x <= 1) P
    /\ vsum P = 1.
Proof.
  intros Halpha Hroot A Q.
  destruct (stationary_distribution_stochastic self Q) as [P [log [HP Hst]]].
  - lia.
  - apply transition_walkable;
      [exact Halpha | apply edge_strength_nonneg | exact Hroot].
  - exists P, log. split; [exact HP|].
    pose proof Hst as [Hlen [_ Hsum]].
    split; [exact Hlen|]. split; [|exact Hsum].
    apply Forall_forall. intros x Hx. eapply stochastic_bounds; eassumption.
Qed.

Lemma scores_are_probabilities_demo :
  let A := fst (_get_edge_strength demo [0]) in
  let Q := _get_transition_probability demo A 0 in
  exists P log,
    _get_stationary_distribution demo Q = Ok (Finite P, log)
    /\ length P = N demo
    /\ Forall (fun x => 0 <= x <= 1) P
    /\ vsum P = 1.
Proof.
  apply (scores_are_probabilities demo [0] 0).
  - simpl. lra.
  - simpl. lia.
Defined.

(** ** The analytic derivatives are derivatives *)

Lemma derivable_pt_lim_eq (f g : R -> R) (x l : R) :
  (forall t, f t = g t) -> derivable_pt_lim f x l -> derivable_pt_lim g x l.
Proof.
  intros Hfg Hf eps Heps. destruct (Hf eps Heps) as [delta Hd].
  exists delta. intros h Hh Hlt. rewrite <- !Hfg. now apply Hd.
Qed.

Lemma derivable_pt_lim_affine (a b x : R) :
  derivable_pt_lim (fun t => a + b * t) x b.
Proof.
  intros eps Heps. exists (mkposreal 1 Rlt_0_1). intros h Hh _.
  replace ((a + b * (x + h) - (a + b * x)) / h - b) with 0 by (field; exact Hh).
  now rewrite Rabs_R0.
Qed.

(** The derivative of the logistic function. *)
Lemma sigmoid_derivative (x : R) : derivable_pt_lim sigmoid x (logistic' x).
Proof.
  pose proof (exp_pos (- x)) as He.
  assert (Hden : derivable_pt_lim (plus_fct (fct_cte 1) (comp exp (opp_fct id))) x
                   (0 + exp (- x) * - 1)).
  { apply derivable_pt_lim_plus; [apply derivable_pt_lim_const|].
    apply derivable_pt_lim_comp.
    - apply derivable_pt_lim_opp, derivable_pt_lim_id.
    - apply derivable_pt_lim_exp. }
  pose proof (derivable_pt_lim_div (fct_cte 1)
                (plus_fct (fct_cte 1) (comp exp (opp_fct id))) x 0 _
                (derivable_pt_lim_const 1 x) Hden) as H.
  unfold plus_fct, fct_cte, comp, opp_fct, id in H.
  replace (logistic' x)
    with ((0 * (1 + exp (- x)) - (0 + exp (- x) * - 1) * 1)
          / Rsqr (1 + exp (- x))).
  - apply (derivable_pt_lim_eq
             (div_fct (fct_cte 1)
                (plus_fct (fct_cte 1) (comp exp (opp_fct id)))) sigmoid);
      [reflexivity|].
    apply H. lra.
  - unfold logistic', sigmoid, Rsqr. field. lra.
Qed.

Lemma dot_set_at (f w : vec) (m : nat) (t : R) :
  length f = length w -> (m < length w)%nat ->
  dot f (set_at m t w) = dot f w - vget f m * vget w m + vget f m * t.
Proof.
  revert w m. induction f as [|x f IH]; intros [|y w] m Hlen Hm;
    simpl in *; try lia.
  destruct m as [|m]; unfold vget in *; simpl.
  - lra.
  - rewrite IH by lia. lra.
Qed.

Lemma set_at_same (m : nat) (w : vec) : set_at m (vget w m) w = w.
Proof.
  revert m. induction w as [|x w IH]; intros [|m]; simpl; try reflexivity.
  unfold vget in *. simpl. now rewrite IH.
Qed.

(** X9.  The array [dA] is the gradient of [A]: [dA[e, m]] is the
    derivative of [A[e]] with respect to the weight [w[m]] at [w]. *)
Theorem edge_strength_gradient (self : SupervisedRWRecommender) (w : vec)
    (e m : nat) :
  shapes_ok self -> length w = M self ->
  (e < E self)%nat -> (m < M self)%nat ->
  derivable_pt_lim
    (fun t => vget (fst (_get_edge_strength self (set_at m t w))) e)
    (vget w m)
    (mget (snd (_get_edge_strength self w)) e m).
Proof.
  intros Hs Hw He Hm.
  destruct (edge_strength_entries self w Hs Hw) as [_ [_ Hspec]].
  destruct (Hspec e He) as [HA [_ [_ HdA]]]. rewrite (HdA m Hm), HA.
  set (f := nth e (features self) []).
  assert (Hf : length f = M self).
  { pose proof (features_cols _ Hs) as Hc. rewrite Forall_forall in Hc.
    apply Hc, nth_In. rewrite (features_rows _ Hs). exact He. }
  assert (Hdot : forall v, length v = M self ->
            vget (fst (_get_edge_strength self v)) e = sigmoid (dot f v)).
  { intros v Hv. unfold _get_edge_strength. cbn [fst]. unfold vget.
    rewrite map_map.
    apply (nth_map_lt (fun g => sigmoid (dot g v))).
    rewrite (features_rows _ Hs). exact He. }
  assert (Hsum : sum_upto (M self)
                   (fun k => mget (features self) e k * vget w k) = dot f w).
  { rewrite dot_sum_upto by lia. now rewrite Hw. }
  rewrite Hsum.
  set (a := dot f w - vget f m * vget w m).
  apply (derivable_pt_lim_eq
           (comp sigmoid (fun t => a + vget f m * t))).
  - intros t. unfold comp. rewrite Hdot.
    + f_equal. unfold a. rewrite dot_set_at by lia. reflexivity.
    + clear -Hw. rewrite <- Hw. clear Hw. revert m.
      induction w as [|x w IH]; intros [|m]; simpl; auto.
  - replace (sigmoid (dot f w) * (1 - sigmoid (dot f w)) * mget (features self) e m)
      with (logistic' (a + vget f m * vget w m) * vget f m).
    + apply derivable_pt_lim_comp;
        [apply derivable_pt_lim_affine | apply sigmoid_derivative].
    + unfold logistic', a, mget, f, vget.
      replace (dot (nth e (features self) []) w
               - nth m (nth e (features self) []) 0 * nth m w 0
               + nth m (nth e (features self) []) 0 * nth m w 0)
        with (dot (nth e (features self) []) w) by lra.
      reflexivity.
Qed.

Lemma edge_strength_gradient_demo :
  derivable_pt_lim
    (fun t => vget (fst (_get_edge_strength demo (set_at 0 t [0]))) 1)
    (vget [0] 0)
    (mget (snd (_get_edge_strength demo [0])) 1 0).
Proof.
  apply (edge_strength_gradient demo [0] 1 0 demo_shapes_ok).
  - reflexivity.
  - simpl. lia.
  - simpl. lia.
Defined.

(** X10.  Line 147: [ddiff = loss * (1 - loss) / width] is the derivative
    of [loss = sigmoid(diff / width)] (line 145) with respect to
    [diff]. *)
Theorem loss_term_derivative (self : SupervisedRWRecommender) (d : R) :
  loss_width self <> 0 ->
  let loss := sigmoid (d / loss_width self) in
  derivable_pt_lim (fun x => sigmoid (x / loss_width self)) d
                   (loss * (1 - loss) / loss_width self).
Proof.
  intros Hw loss.
  apply (derivable_pt_lim_eq
           (comp sigmoid (fun t => 0 + / loss_width self * t))).
  - intros t. unfold comp. f_equal. field. exact Hw.
  - replace (loss * (1 - loss) / loss_width self)
      with (logistic' (0 + / loss_width self * d) * / loss_width self).
    + apply derivable_pt_lim_comp;
        [apply derivable_pt_lim_affine | apply sigmoid_derivative].
    + unfold logistic', loss.
      replace (0 + / loss_width self * d) with (d / loss_width self)
        by (field; exact Hw).
      reflexivity.
Qed.

Lemma loss_term_derivative_demo :
  derivable_pt_lim (fun x => sigmoid (x / loss_width demo)) 0
    (sigmoid (0 / loss_width demo) * (1 - sigmoid (0 / loss_width demo))
     / loss_width demo).
Proof.
  apply (loss_term_derivative demo 0). simpl. lra.
Defined.

(** ** Bounds on the objective *)

Lemma loss_function_inv (self : SupervisedRWRecommender) (w : vec)
    (root : nat) (pairs : list (nat * nat)) (r : R * vec) :
  _loss_function self w root pairs = Ok (Finite r) ->
  exists P dP, r = loss_of self w pairs P dP.
Proof.
  unfold _loss_function.
  destruct (_get_edge_strength self w) as [A dA].
  destruct (_get_stationary_distribution self _) as [[[P|] log]|e];
    try discriminate.
  destruct (all_finite _) as [dQ|]; [|discriminate].
  destruct pairs as [|p pairs].
  - intros H. injection H as <-. eauto.
  - destruct (Req_dec_T (loss_width self) 0); [discriminate|].
    intros H. injection H as <-. eauto.
Qed.

Lemma vsum_sigmoid_bounds {A : Type} (f : A -> R) (l : list A) :
  0 <= vsum (map (fun x => sigmoid (f x)) l) <= INR (length l).
Proof.
  induction l as [|x l IH]; [simpl; lra|].
  change (length (x :: l)) with (S (length l)). rewrite S_INR. simpl.
  pose proof (sigmoid_bounds (f x)). lra.
Qed.

(** X11.  With a non-negative [lambda], a finite objective lies between
    the regularizer [|w|^2] and [|w|^2 + lambda * len(pairs)], and the
    gradient has one entry per feature. *)
Theorem objective_bounds (self : SupervisedRWRecommender) (w : vec)
    (root : nat) (pairs : list (nat * nat)) (objective : R) (gradient : vec) :
  0 <= lambda_ self ->
  _loss_function self w root pairs = Ok (Finite (objective, gradient)) ->
  sq_norm w <= objective <= sq_norm w + lambda_ self * INR (length pairs)
  /\ length gradient = M self.
Proof.
  intros Hl H. apply loss_function_inv in H. destruct H as [P [dP H]].
  unfold loss_of in H. injection H as -> ->.
  split; [|apply length_build].
  rewrite map_map.
  pose proof (vsum_sigmoid_bounds
                (fun uv : nat * nat =>
                   (vget P (fst uv) - vget P (snd uv)) / loss_width self)
                pairs) as [H0 H1].
  split.
  - assert (0 <= lambda_ self * vsum (map
               (fun uv : nat * nat =>
                  sigmoid ((vget P (fst uv) - vget P (snd uv))
                           / loss_width self)) pairs))
      by (apply Rmult_le_pos; assumption).
    lra.
  - apply Rplus_le_compat_l, Rmult_le_compat_l; assumption.
Qed.

Lemma demo_loss_value :
  _loss_function demo [0] 0 [(3, 1)%nat]
  = Ok (Finite (objective_of demo [0] [(3, 1)%nat] [6 / 7; 1 / 14; 1 / 14; 0],
                [logistic' ((0 - 1 / 14) / 2) / 2 * (2 / 21)])).
Proof.
  destruct demo_walk as [HP [HdQ HdP]].
  rewrite (loss_function_finite demo [0] 0 [(3, 1)%nat] _ _ _ HP HdQ)
    by (right; simpl; lra).
  rewrite HdP. unfold loss_of, objective_of, logistic', einsum_i_im, build.
  unfold vget, vsub. simpl. do 4 f_equal. field.
Qed.

Lemma objective_bounds_demo :
  sq_norm [0]
  <= objective_of demo [0] [(3, 1)%nat] [6 / 7; 1 / 14; 1 / 14; 0]
  <= sq_norm [0] + lambda_ demo * INR (length [(3, 1)%nat])
  /\ length [logistic' ((0 - 1 / 14) / 2) / 2 * (2 / 21)] = M demo.
Proof.
  apply (objective_bounds demo [0] 0 [(3, 1)%nat]).
  - simpl. lra.
  - exact demo_loss_value.
Defined.

(** ** Node indices *)

(** X12.  After [train] the node index is a bijection between the nodes
    and the positions below N: [nodes[node_indices[x]]] is [x] and
    [node_indices[nodes[i]]] is [i]. *)
Theorem node_indices_bijection (self : SupervisedRWRecommender) :
  trained self ->
  (forall x, In x (nodes self) ->
     exists i, index_of x (nodes self) = Some i
               /\ (i < N self)%nat /\ nth_error (nodes self) i = Some x)
  /\ (forall i, (i < N self)%nat ->
        exists x, nth_error (nodes self) i = Some x
                  /\ index_of x (nodes self) = Some i)
  /\ (forall x, ~ In x (nodes self) -> index_of x (nodes self) = None).
Proof.
  intros Ht. rewrite (N_def _ Ht). split; [|split].
  - intros x Hx. destruct (index_of_In x _ Hx) as [i Hi].
    exists i. split; [exact Hi|]. now apply index_of_nth.
  - intros i Hi. destruct (nth_error (nodes self) i) as [x|] eqn:Hx.
    + exists x. split; [reflexivity|].
      apply index_of_position; [apply (nodes_nodup _ Ht) | exact Hx].
    + apply nth_error_None in Hx. lia.
  - intros x Hx. destruct (index_of x (nodes self)) as [i|] eqn:Hi;
      [|reflexivity].
    exfalso. apply Hx. apply index_of_nth in Hi.
    destruct Hi as [_ Hi]. eapply nth_error_In. exact Hi.
Qed.

Lemma node_indices_bijection_demo :
  (forall x, In x (nodes demo) ->
     exists i, index_of x (nodes demo) = Some i
               /\ (i < N demo)%nat /\ nth_error (nodes demo) i = Some x)
  /\ (forall i, (i < N demo)%nat ->
        exists x, nth_error (nodes demo) i = Some x
                  /\ index_of x (nodes demo) = Some i)
  /\ (forall x, ~ In x (nodes demo) -> index_of x (nodes demo) = None).
Proof. exact (node_indices_bijection demo demo_trained). Defined.

(** ** Samples *)

Lemma indices_of_In (nodes l : list node) (r : list nat) (i : nat) :
  indices_of nodes l = Ok r -> In i r ->
  exists x, In x l /\ index_of x nodes = Some i.
Proof.
  intros H Hi. apply indices_of_spec in H.
  induction H as [|x j l r Hxj _ IH]; [contradiction|].
  destruct Hi as [->|Hi].
  - exists x. split; [now left | exact Hxj].
  - destruct (IH Hi) as [y [Hy Hyi]]. exists y. split; [now right | exact Hyi].
Qed.

(** X13.  No index is both a positive and a negative sample, every
    sampled index is below N, and every negative is the index of a
    repository. *)
Theorem samples_are_disjoint (self : SupervisedRWRecommender) (user : node)
    (positive negative : list nat) :
  trained self -> In user (nodes self) ->
  returns (_select_samples self user) (positive, negative) ->
  (forall i, In i positive -> ~ In i negative)
  /\ Forall (fun i => (i < N self)%nat) (positive ++ negative)
  /\ Forall (fun i => exists x, nth_error (nodes self) i = Some x
                                /\ is_repository x = true) negative.
Proof.
  intros Ht Huser Hr.
  apply select_samples_returns in Hr;
    [|now rewrite <- (nodes_graph _ Ht)].
  destruct Hr as [s [[_ [_ Hincl]] [Hpos Hneg]]].
  split; [|split].
  - intros i Hp Hn.
    destruct (indices_of_In _ _ _ i Hpos Hp) as [x [Hx Hxi]].
    destruct (indices_of_In _ _ _ i Hneg Hn) as [y [Hy Hyi]].
    assert (x = y) by (eapply index_of_inj; eassumption). subst y.
    apply Hincl, set_diff_In in Hy. tauto.
  - rewrite (N_def _ Ht). apply Forall_forall. intros i Hi.
    apply in_app_or in Hi.
    destruct Hi as [Hi|Hi];
      [destruct (indices_of_In _ _ _ i Hpos Hi) as [x [_ Hx]]
      |destruct (indices_of_In _ _ _ i Hneg Hi) as [x [_ Hx]]];
      now apply index_of_nth in Hx.
  - apply Forall_forall. intros i Hi.
    destruct (indices_of_In _ _ _ i Hneg Hi) as [x [Hx Hxi]].
    exists x. split; [now apply index_of_nth in Hxi|].
    apply Hincl, set_diff_In in Hx. destruct Hx as [Hx _].
    rewrite (candidates_def _ Ht) in Hx. now apply filter_In in Hx.
Qed.

Lemma mixed_samples :
  returns (_select_samples mixed_demo (User 0)) ([1; 2]%nat, [3]%nat).
Proof.
  apply select_samples_returns; [simpl; auto|].
  exists [Repository 1]. split; [|split; reflexivity].
  split; [reflexivity|]. split; [nodup_nodes|].
  intros x [<-|[]]. simpl. now left.
Qed.

Lemma mixed_trained : trained mixed_demo.
Proof.
  constructor; simpl; try reflexivity; [|nodup_nodes].
  constructor; [nodup_nodes | adj_nodup | adj_closed].
Qed.

Lemma samples_are_disjoint_mixed :
  (forall i, In i [1; 2]%nat -> ~ In i [3]%nat)
  /\ Forall (fun i => (i < N mixed_demo)%nat) ([1; 2] ++ [3])%nat
  /\ Forall (fun i => exists x, nth_error (nodes mixed_demo) i = Some x
                                /\ is_repository x = true) [3]%nat.
Proof.
  apply (samples_are_disjoint mixed_demo (User 0) _ _ mixed_trained).
  - simpl. auto.
  - exact mixed_samples.
Defined.

(** ** No node twice, and no eligible node left out *)

Lemma insert_by_score_perm (x : node * R) (l : list (node * R)) :
  Permutation (insert_by_score x l) (x :: l).
Proof.
  induction l as [|y l IH]; simpl; [apply Permutation_refl|].
  destruct (Rlt_dec (snd x) (snd y)); [|apply Permutation_refl].
  eapply Permutation_trans; [apply perm_skip, IH | apply perm_swap].
Qed.

Lemma sort_by_score_perm (l : list (node * R)) :
  Permutation (sort_by_score l) l.
Proof.
  induction l as [|x l IH]; simpl; [constructor|].
  eapply Permutation_trans; [apply insert_by_score_perm|].
  now apply perm_skip.
Qed.

Lemma filter_combine_fst (g : node -> bool) (nodes : list node) (P : vec) :
  length P = length nodes ->
  map fst (filter (fun kv : node * R => g (fst kv)) (combine nodes P))
  = filter g nodes.
Proof.
  revert P. induction nodes as [|x nodes IH]; intros [|p P] Hlen;
    simpl in *; try lia; [reflexivity|].
  destruct (g x); simpl; rewrite IH by lia; reflexivity.
Qed.

Lemma NoDup_firstn {A : Type} (n : nat) (l : list A) :
  NoDup l -> NoDup (firstn n l).
Proof.
  intros H. rewrite <- (firstn_skipn n l) in H.
  now apply NoDup_app_remove_r in H.
Qed.

(** X14.  With a teleport probability in (0, 1], whatever the order in
    which the dictionary yields its items, [recommend(user, n)] names no
    node twice, and it returns as many pairs as the smaller of [n] and
    the number of repositories of the graph that are not neighbours of
    the user: with [n] large enough no such repository is left out. *)
Theorem recommend_distinct_and_complete
    (iteritems : list (node * R) -> list (node * R))
    (self : SupervisedRWRecommender)
    (user : node) (n : nat) (recs : list (node * R)) :
  dict_order iteritems ->
  trained self -> 0 < alpha self <= 1 -> In user (nodes self) ->
  returns (recommend iteritems self user n) (Finite recs) ->
  let eligible x :=
    (is_repository x && negb (mem x (g_adj (graph self) user)))%bool in
  NoDup (map fst recs)
  /\ length recs = Nat.min n (length (filter eligible (nodes self)))
  /\ ((length (filter eligible (nodes self)) <= n)%nat ->
      forall x, In x (nodes self) -> eligible x = true ->
                In x (map fst recs)).
Proof.
  intros Horder Ht Halpha Huser Hr eligible.
  apply recommend_returns in Hr.
  destruct Hr as [u [w [P' [log' [Hfit [HP' Hrecs]]]]]].
  assert (Hu : (u < N self)%nat).
  { apply fit_returns, index_of_nth in Hfit.
    rewrite (N_def _ Ht). tauto. }
  destruct (stationary_distribution_stochastic self
              (_get_transition_probability self
                 (fst (_get_edge_strength self w)) u))
    as [P [log [HP [Hlen _]]]]; [lia| |].
  { apply transition_walkable;
      [exact Halpha | apply edge_strength_nonneg | exact Hu]. }
  rewrite HP in HP'. injection HP' as <- <-. injection Hrecs as ->.
  rewrite (N_def _ Ht) in Hlen.
  set (items := iteritems (rank_items self user P)).
  assert (Hitems : Permutation (map fst items) (filter eligible (nodes self))).
  { unfold items.
    rewrite <- (filter_combine_fst eligible (nodes self) P Hlen).
    apply Permutation_map, Permutation_sym, Horder. }
  assert (Hperm : Permutation (map fst (sort_by_score items))
                              (filter eligible (nodes self))).
  { eapply Permutation_trans; [|exact Hitems].
    apply Permutation_map, sort_by_score_perm. }
  assert (Hnd : NoDup (map fst (sort_by_score items))).
  { eapply Permutation_NoDup; [apply Permutation_sym, Hperm|].
    apply NoDup_filter, (nodes_nodup _ Ht). }
  assert (Hlen' : length (sort_by_score items)
                  = length (filter eligible (nodes self))).
  { rewrite <- (length_map fst (sort_by_score items)).
    now apply Permutation_length. }
  unfold recommend_by_rank.
  split; [|split].
  - rewrite <- firstn_map. now apply NoDup_firstn.
  - rewrite length_firstn, Hlen'. reflexivity.
  - intros Hn x Hx Hel. rewrite firstn_all2 by lia.
    eapply Permutation_in; [apply Permutation_sym, Hperm|].
    apply filter_In. auto.
Qed.

Lemma demo_recommendation :
  returns (recommend (@rev _) demo (User 0) 3) (Finite [(Repository 2, 0)]).
Proof.
  apply recommend_returns.
  exists 0%nat, [0], (Finite [6 / 7; 1 / 14; 1 / 14; 0]),
    [Warning Primal 1 (Finite (17 / 28))].
  split; [|split].
  - apply fit_returns_any; [exact demo_trained | simpl; auto | | ];
      reflexivity.
  - exact (proj1 demo_walk).
  - reflexivity.
Qed.

Lemma recommend_distinct_and_complete_demo :
  let eligible x :=
    (is_repository x && negb (mem x (g_adj (graph demo) (User 0))))%bool in
  NoDup (map fst [(Repository 2, 0)])
  /\ length [(Repository 2, 0)]
     = Nat.min 3 (length (filter eligible (nodes demo)))
  /\ ((length (filter eligible (nodes demo)) <= 3)%nat ->
      forall x, In x (nodes demo) -> eligible x = true ->
                In x (map fst [(Repository 2, 0)])).
Proof.
  apply (recommend_distinct_and_complete (@rev _) demo (User 0) 3 _).
  - intros items. apply Permutation_rev.
  - exact demo_trained.
  - simpl. lra.
  - simpl. auto.
  - exact demo_recommendation.
Defined.

(** * Properties of the loaded graphs *)

Lemma add_key_In (x y : node) (l : list node) :
  In y (add_key x l) <-> y = x \/ In y l.
Proof.
  unfold add_key. destruct (mem x l) eqn:Hm.
  - apply mem_In in Hm. split; [auto | intros [->|H]; auto].
  - rewrite in_app_iff. simpl. intuition.
Qed.

Lemma add_key_NoDup (x : node) (l : list node) :
  NoDup l -> NoDup (add_key x l).
Proof.
  intros Hl. unfold add_key. destruct (mem x l) eqn:Hm; [assumption|].
  assert (Hx : ~ In x l).
  { intros H. apply mem_In in H. congruence. }
  apply NoDup_app; [assumption | repeat constructor; auto |].
  intros y Hy [<-|[]]. contradiction.
Qed.

(** The adjacency of a node after an edge is added. *)
Lemma add_edge_adj (directed : bool) (g : Graph) (u v n x : node) :
  In x (g_adj (add_edge directed g u v) n)
  <-> In x (g_adj g n) \/ (n = u /\ x = v)
      \/ (directed = false /\ n = v /\ x = u).
Proof.
  unfold add_edge. cbn [g_adj].
  destruct directed.
  - destruct (node_eq_dec n u) as [Hu|Hu]; rewrite ?add_key_In;
      intuition congruence.
  - destruct (node_eq_dec n v) as [Hv|Hv];
      destruct (node_eq_dec n u) as [Hu|Hu]; rewrite ?add_key_In;
      intuition congruence.
Qed.

Lemma add_edge_adj_nodup (directed : bool) (g : Graph) (u v n : node) :
  NoDup (g_adj g n) -> NoDup (g_adj (add_edge directed g u v) n).
Proof.
  intros H. unfold add_edge. cbn [g_adj].
  destruct directed; [|destruct (node_eq_dec n v)];
    destruct (node_eq_dec n u); repeat apply add_key_NoDup; assumption.
Qed.

Lemma add_edge_nodes (directed : bool) (g : Graph) (u v x : node) :
  In x (g_nodes (add_edge directed g u v))
  <-> x = u \/ x = v \/ In x (g_nodes g).
Proof.
  unfold add_edge. cbn [g_nodes]. rewrite !add_key_In. intuition.
Qed.

Lemma add_edge_well_formed (directed : bool) (g : Graph) (u v : node) :
  well_formed g -> well_formed (add_edge directed g u v).
Proof.
  intros [Hn Ha Hc]. constructor.
  - unfold add_edge. cbn [g_nodes]. now repeat apply add_key_NoDup.
  - intros n. apply add_edge_adj_nodup, Ha.
  - intros n x Hx. apply add_edge_adj in Hx. apply add_edge_nodes.
    destruct Hx as [Hx|[[_ ->]|[_ [_ ->]]]]; eauto.
Qed.

Lemma add_edge_typed (md : metadata) (g : Graph) (u v : node) :
  class_of u = em_class (md_tail md) ->
  class_of v = em_class (md_head md) ->
  edges_typed md g -> edges_typed md (add_edge (md_directed md) g u v).
Proof.
  intros Hu Hv Hg n x Hx. apply add_edge_adj in Hx.
  destruct Hx as [Hx|[[-> ->]|[Hd [-> ->]]]]; [now apply Hg | now left|].
  right. auto.
Qed.

Lemma add_edge_symmetric (g : Graph) (u v : node) :
  symmetric g -> symmetric (add_edge false g u v).
Proof.
  intros Hg n x. rewrite !add_edge_adj, (Hg n x). intuition.
Qed.

Lemma class_of_make (cls : entity_class) (id : nat) :
  class_of (make cls id) = cls.
Proof. now destruct cls. Qed.

Lemma item_edge_classes (md : metadata) (item : dict) (t h : node) :
  item_edge md item = Loaded (t, h) ->
  class_of t = em_class (md_tail md) /\ class_of h = em_class (md_head md).
Proof.
  unfold item_edge.
  destruct (dict_pop _ item) as [[hd item1]|]; [|discriminate].
  destruct (entity_id hd) as [hid|]; [|discriminate].
  destruct (dict_pop _ item1) as [[tl item2]|]; [|discriminate].
  destruct (entity_id tl) as [tid|]; [|discriminate].
  intros H. injection H as <- <-. now rewrite !class_of_make.
Qed.

(** What the loop keeps true of the graph. *)
Lemma load_edges_invariant (md : metadata) (data : list dict) :
  forall g g',
  load_edges md g data = Loaded g' ->
  well_formed g -> edges_typed md g ->
  (md_directed md = false -> symmetric g) ->
  well_formed g' /\ edges_typed md g'
  /\ (md_directed md = false -> symmetric g').
Proof.
  induction data as [|item data IH]; intros g g' H Hwf Hty Hsym; simpl in H.
  - injection H as <-. auto.
  - destruct (item_edge md item) as [[t h]|e] eqn:Hitem; [|discriminate].
    destruct (item_edge_classes md item t h Hitem) as [Ht Hh].
    apply (IH _ _ H).
    + now apply add_edge_well_formed.
    + now apply add_edge_typed.
    + intros Hd. rewrite Hd. apply add_edge_symmetric. now apply Hsym.
Qed.

Lemma empty_graph_well_formed : well_formed empty_graph.
Proof. constructor; simpl; [constructor | constructor | intros u v []]. Qed.

Lemma load_graph_invariant (graph_type : string)
    (item_filter : option (dict -> bool)) (data : list dict) (g : Graph) :
  load_graph graph_type item_filter data = Loaded (Some g) ->
  exists md,
    GRAPH_METADATA graph_type = Some md
    /\ well_formed g
    /\ edges_typed md g
    /\ (md_directed md = false -> symmetric g).
Proof.
  unfold load_graph.
  destruct (GRAPH_METADATA graph_type) as [md|]; [|discriminate].
  destruct (load_edges md empty_graph _) as [g'|e] eqn:Hload; [|discriminate].
  intros H. injection H as <-. exists md. split; [reflexivity|].
  apply (load_edges_invariant md _ _ _ Hload).
  - apply empty_graph_well_formed.
  - intros u v [].
  - intros _ u v. simpl. tauto.
Qed.

(** X15.  A graph that [load_graph] returns is well formed (no node or
    neighbour twice, every neighbour a node), every edge runs from the
    class that the table gives for the tail to the class it gives for the
    head, or back when the graph is undirected, and an undirected graph
    is symmetric. *)
Theorem load_graph_typed (graph_type : string)
    (item_filter : option (dict -> bool)) (data : list dict) (g : Graph) :
  load_graph graph_type item_filter data = Loaded (Some g) ->
  exists md,
    GRAPH_METADATA graph_type = Some md
    /\ well_formed g
    /\ edges_typed md g
    /\ (md_directed md = false -> symmetric g).
Proof. apply load_graph_invariant. Qed.

Lemma star_records_load :
  load_graph "stargazer" None star_records = Loaded (Some star_graph).
Proof. reflexivity. Qed.

Lemma load_graph_typed_star :
  exists md,
    GRAPH_METADATA "stargazer" = Some md
    /\ well_formed star_graph
    /\ edges_typed md star_graph
    /\ (md_directed md = false -> symmetric star_graph).
Proof.
  exact (load_graph_typed "stargazer" None star_records star_graph
           star_records_load).
Defined.

(** The four graph types between users and repositories. *)
Lemma repo_user_types (graph_type : string) (md : metadata) :
  In graph_type ["collaborator"; "contributor"; "stargazer";
                 "subscriber"]%string ->
  GRAPH_METADATA graph_type = Some md ->
  md_directed md = false
  /\ em_class (md_head md) = RepositoryClass
  /\ em_class (md_tail md) = UserClass.
Proof.
  intros Hin H.
  repeat (destruct Hin as [<-|Hin];
          [cbv in H; injection H as <-; repeat split|]).
  contradiction.
Qed.


Lemma star_trained : trained star_demo.
Proof.
  constructor; simpl; try reflexivity; [|nodup_nodes].
  destruct (load_graph_invariant _ _ _ _ star_records_load)
    as [md [_ [Hwf _]]].
  exact Hwf.
Qed.

Lemma star_samples :
  returns (_select_samples star_demo (User 0)) ([1; 2]%nat, []).
Proof.
  apply select_samples_returns; [simpl; auto|].
  exists []. split; [|split; reflexivity].
  split; [reflexivity|]. split; [constructor|]. intros x [].
Qed.


(** * Properties of the edge features *)

Lemma all_some_map {A B : Type} (f : A -> option B) (g : A -> B)
    (l : list A) :
  (forall x, In x l -> f x = Some (g x)) ->
  all_some (map f l) = Some (map g l).
Proof.
  induction l as [|x l IH]; intros H; simpl; [reflexivity|].
  rewrite (H x) by now left. rewrite IH; [reflexivity|].
  intros y Hy. apply H. now right.
Qed.

Section CSR.

Variable self : EdgeFeature.
Hypothesis Hvalid : csr_valid self.

Let ip (r : nat) : nat := nth r (ef_indptr self) O.

(** The pairs (row, entry) that the two loops visit in the first [n]
    rows. *)
Let positions (n : nat) : list (nat * nat) :=
  flat_map (fun r => map (pair r) (seq (ip r) (ip (S r) - ip r))) (seq 0 n).

Lemma csr_positions_entries (n : nat) :
  (n <= length (ef_nodes self))%nat ->
  map snd (positions n) = seq 0 (ip n).
Proof.
  induction n as [|n IH]; intros Hn.
  - unfold positions, ip. simpl. now rewrite (indptr_first _ Hvalid).
  - unfold positions in *. rewrite seq_S, flat_map_app, map_app, IH by lia.
    simpl. rewrite app_nil_r, map_map. simpl. rewrite map_id.
    pose proof (indptr_monotone _ Hvalid n) as Hm. fold (ip n) (ip (S n)) in Hm.
    replace (ip (S n)) with (ip n + (ip (S n) - ip n))%nat at 2 by lia.
    now rewrite seq_app.
Qed.

Lemma csr_positions_rows (n : nat) (r i : nat) :
  In (r, i) (positions n) ->
  (r < n)%nat /\ (ip r <= i < ip (S r))%nat.
Proof.
  unfold positions. intros H. apply in_flat_map in H.
  destruct H as [r' [Hr' H]]. apply in_map_iff in H.
  destruct H as [i' [Heq Hi']]. injection Heq as <- <-.
  apply in_seq in Hr', Hi'. lia.
Qed.

Lemma csr_row_edges (r : nat) :
  (r < length (ef_nodes self))%nat ->
  row_edges self r = map (edge_at self r) (seq (ip r) (ip (S r) - ip r)).
Proof.
  intros Hr. unfold row_edges, ip.
  pose proof (indptr_length _ Hvalid) as Hlen.
  rewrite (nth_error_nth' _ O) by lia.
  rewrite (nth_error_nth' _ O) by lia. reflexivity.
Qed.

Lemma csr_flat_map_positions (n : nat) :
  (n <= length (ef_nodes self))%nat ->
  flat_map (row_edges self) (seq 0 n)
  = map (fun p => edge_at self (fst p) (snd p)) (positions n).
Proof.
  induction n as [|n IH]; intros Hn; [reflexivity|].
  unfold positions in *. rewrite seq_S, !flat_map_app, map_app, IH by lia.
  simpl. rewrite !app_nil_r, csr_row_edges, map_map by lia. reflexivity.
Qed.

Lemma csr_iter_edges_spec :
  exists edges,
    EdgeFeature_iter_edges self = Some edges
    /\ length edges = edge_count self
    /\ forall k c, nth_error (ef_indices self) k = Some c ->
         exists r u v,
           nth_error edges k = Some (u, v)
           /\ nth_error (ef_nodes self) r = Some u
           /\ nth_error (ef_nodes self) c = Some v
           /\ (nth r (ef_indptr self) O <= k
               < nth (S r) (ef_indptr self) O)%nat.
Proof.
  set (N := length (ef_nodes self)).
  set (d := User 0).
  set (g := fun p : nat * nat =>
              (nth (fst p) (ef_nodes self) d,
               nth (nth (snd p) (ef_indices self) O) (ef_nodes self) d)).
  pose proof (csr_positions_entries N (Nat.le_refl _)) as Hentries.
  assert (HipN : ip N = edge_count self) by apply (indptr_last _ Hvalid).
  rewrite HipN in Hentries.
  assert (Hpos : forall r i, In (r, i) (positions N) ->
            (r < N)%nat /\ (i < edge_count self)%nat
            /\ (ip r <= i < ip (S r))%nat).
  { intros r i H. pose proof (csr_positions_rows N r i H) as [Hr Hi].
    split; [exact Hr|]. split; [|exact Hi].
    apply (in_map snd) in H. rewrite Hentries in H. apply in_seq in H.
    simpl in H. lia. }
  assert (Hedge : forall p, In p (positions N) ->
            edge_at self (fst p) (snd p) = Some (g p)).
  { intros [r i] Hp. destruct (Hpos r i Hp) as [Hr [Hi _]].
    unfold edge_at, g. cbn [fst snd]. unfold edge_count in Hi.
    rewrite (nth_error_nth' _ O Hi).
    assert (Hc : (nth i (ef_indices self) O < N)%nat).
    { pose proof (indices_range _ Hvalid) as Hrange.
      rewrite Forall_forall in Hrange. now apply Hrange, nth_In. }
    rewrite (nth_error_nth' _ d Hr), (nth_error_nth' _ d Hc). reflexivity. }
  exists (map g (positions N)). split; [|split].
  - unfold EdgeFeature_iter_edges. fold N.
    rewrite csr_flat_map_positions by apply Nat.le_refl.
    now apply all_some_map.
  - rewrite length_map, <- (length_map snd), Hentries. apply length_seq.
  - intros k c Hk.
    assert (Hklt : (k < edge_count self)%nat)
      by (apply nth_error_Some; unfold edge_count; congruence).
    destruct (nth_error (positions N) k) as [[r i]|] eqn:Hp.
    + assert (Hik : i = k).
      { pose proof (map_nth_error snd k (positions N) Hp) as Hs.
        rewrite Hentries in Hs. cbn [snd] in Hs.
        rewrite nth_error_nth' with (d := O) in Hs by now rewrite length_seq.
        rewrite seq_nth in Hs by assumption. simpl in Hs. congruence. }
      subst i. destruct (Hpos r k (nth_error_In _ _ Hp)) as [Hr [_ Hrow]].
      exists r, (nth r (ef_nodes self) d), (nth c (ef_nodes self) d).
      split; [|split; [|split]].
      * rewrite (map_nth_error g k (positions N) Hp). unfold g. cbn [fst snd].
        now rewrite (nth_error_nth _ _ O Hk).
      * now apply nth_error_nth'.
      * apply nth_error_nth'.
        pose proof (indices_range _ Hvalid) as Hrange.
        rewrite Forall_forall in Hrange.
        eapply Hrange, nth_error_In. exact Hk.
      * exact Hrow.
    + apply nth_error_None in Hp.
      rewrite <- (length_map snd), Hentries, length_seq in Hp. lia.
Qed.

End CSR.

(** X19.  On the index arrays of a CSR matrix over the nodes,
    [EdgeFeature._iter_edges] raises nothing and yields one edge per
    stored entry, in the order of the entries: edge [k] joins the node
    of the row that holds entry [k] to the node of column
    [indices[k]]. *)
Theorem iter_edges_follow_entries (self : EdgeFeature) :
  csr_valid self ->
  exists edges,
    EdgeFeature_iter_edges self = Some edges
    /\ length edges = edge_count self
    /\ forall k c, nth_error (ef_indices self) k = Some c ->
         exists r u v,
           nth_error edges k = Some (u, v)
           /\ nth_error (ef_nodes self) r = Some u
           /\ nth_error (ef_nodes self) c = Some v
           /\ (nth r (ef_indptr self) O <= k
               < nth (S r) (ef_indptr self) O)%nat.
Proof. apply csr_iter_edges_spec. Qed.

Lemma demo_features_valid : csr_valid demo_features.
Proof.
  constructor; simpl; try reflexivity.
  - intros r Hr. destruct r as [|[|[|[|r]]]]; simpl; lia.
  - repeat constructor.
Qed.

Lemma iter_edges_follow_entries_demo :
  exists edges,
    EdgeFeature_iter_edges demo_features = Some edges
    /\ length edges = edge_count demo_features
    /\ forall k c, nth_error (ef_indices demo_features) k = Some c ->
         exists r u v,
           nth_error edges k = Some (u, v)
           /\ nth_error (ef_nodes demo_features) r = Some u
           /\ nth_error (ef_nodes demo_features) c = Some v
           /\ (nth r (ef_indptr demo_features) O <= k
               < nth (S r) (ef_indptr demo_features) O)%nat.
Proof. exact (iter_edges_follow_entries demo_features demo_features_valid). Defined.

(** ** Combined features *)

Lemma hstack_shape (rows c1 c2 : nat) (a b : list (list R)) :
  has_shape rows c1 a -> has_shape rows c2 b ->
  exists m, hstack a b = Some m
            /\ has_shape rows (c1 + c2) m
            /\ forall e, nth e m [] = nth e a [] ++ nth e b [].
Proof.
  intros [Ha Hca] [Hb Hcb]. unfold hstack.
  rewrite Ha, Hb, Nat.eqb_refl. eexists. split; [reflexivity|].
  split; [split|].
  - rewrite length_map, length_combine. lia.
  - apply Forall_forall. intros r Hr. apply in_map_iff in Hr.
    destruct Hr as [[x y] [<- Hxy]]. cbn [fst snd]. rewrite length_app.
    rewrite Forall_forall in Hca, Hcb.
    rewrite (Hca x), (Hcb y);
      [reflexivity | eapply in_combine_r | eapply in_combine_l]; eassumption.
  - intros e. destruct (Nat.lt_ge_cases e rows) as [He|He].
    + rewrite (nth_map_lt _ _ _ _ ([], []))
        by (rewrite length_combine; lia).
      rewrite combine_nth by lia. reflexivity.
    + rewrite !nth_overflow; try lia; [reflexivity|].
      rewrite length_map, length_combine. lia.
Qed.

Lemma concatenate_shape (rows : nat) (es : list extractor) (root : option nat) :
  es <> [] ->
  Forall (fun e => has_shape rows (feature_count e)
                     (get_feature_matrix e root)) es ->
  exists m,
    concatenate_axis1 (map (fun e => get_feature_matrix e root) es) = Some m
    /\ has_shape rows (list_sum (map feature_count es)) m
    /\ forall e, nth e m []
                 = concat (map (fun x => nth e (get_feature_matrix x root) [])
                               es).
Proof.
  intros Hne Hall. induction Hall as [|x es Hx Hes IH]; [contradiction|].
  destruct es as [|y es].
  - exists (get_feature_matrix x root). simpl.
    rewrite Nat.add_0_r. split; [reflexivity|]. split; [exact Hx|].
    intros e. now rewrite app_nil_r.
  - destruct IH as [m [Hm [Hshape Hrows]]]; [discriminate|].
    destruct (hstack_shape rows _ _ _ _ Hx Hshape) as [m' [Hm' [Hs' Hr']]].
    exists m'. split; [|split].
    + change (map (fun e => get_feature_matrix e root) (x :: y :: es))
        with (get_feature_matrix x root
              :: map (fun e => get_feature_matrix e root) (y :: es)).
      simpl concatenate_axis1. simpl in Hm. rewrite Hm. exact Hm'.
    + exact Hs'.
    + intros e. rewrite Hr', Hrows. reflexivity.
Qed.

(** X20.  When every extractor gives one row per edge and
    [feature_count] columns, the combined matrix has one row per edge
    and [feature_count] columns, the sum of theirs, and each row is the
    rows of the extractors one after the other; without extractors it
    has no column. *)
Theorem combined_feature_shape (self : EdgeFeature)
    (extractors : list extractor) (root : option nat) :
  Forall (fun e => has_shape (edge_count self) (feature_count e)
                     (get_feature_matrix e root)) extractors ->
  exists m,
    combined_feature_matrix self extractors root = Some m
    /\ has_shape (edge_count self)
                 (combined_feature_count self extractors) m
    /\ (forall e, nth e m []
                  = concat (map (fun x => nth e (get_feature_matrix x root) [])
                                extractors))
    /\ (extractors = [] -> combined_feature_count self extractors = O).
Proof.
  intros Hall. unfold combined_feature_matrix, combined_feature_count.
  destruct extractors as [|x es].
  - exists (repeat [] (edge_count self)). simpl.
    split; [reflexivity|]. split; [|split; [|reflexivity]].
    + split; [apply repeat_length|].
      apply Forall_forall. intros r Hr. apply repeat_spec in Hr. now subst.
    + intros e. destruct (Nat.lt_ge_cases e (edge_count self)).
      * now apply nth_repeat_lt.
      * apply nth_overflow. now rewrite repeat_length.
  - destruct (concatenate_shape (edge_count self) (x :: es) root)
      as [m [Hm [Hs Hr]]]; [discriminate | exact Hall |].
    exists m. cbn [combined_extractors]. repeat split; try assumption;
      try apply Hs. discriminate.
Qed.

Lemma combined_feature_shape_demo :
  exists m,
    combined_feature_matrix demo_features
      [ConstantFeature demo_features 1; DummyFeature demo_features;
       ConstantFeature demo_features 2] None = Some m
    /\ has_shape (edge_count demo_features)
         (combined_feature_count demo_features
            [ConstantFeature demo_features 1; DummyFeature demo_features;
             ConstantFeature demo_features 2]) m
    /\ (forall e, nth e m []
                  = concat (map (fun x => nth e (get_feature_matrix x None) [])
                                [ConstantFeature demo_features 1;
                                 DummyFeature demo_features;
                                 ConstantFeature demo_features 2]))
    /\ ([ConstantFeature demo_features 1; DummyFeature demo_features;
         ConstantFeature demo_features 2] = [] ->
        combined_feature_count demo_features
          [ConstantFeature demo_features 1; DummyFeature demo_features;
           ConstantFeature demo_features 2] = O).
Proof.
  apply (combined_feature_shape demo_features).
  repeat constructor.
Defined.
